(** * revng-c: the AST node taxonomy of the control-flow restructuring engine

    A shallow embedding of [include/revng-c/RestructureCFG/ASTNode.h].

    AST nodes are C++ objects that point at one another, so the embedding
    has an explicit store: a finite map from addresses to objects.  A
    pointer [T *] is an [option ptr] ([None] is [nullptr]); the identity of
    a node is its address.  A member function that only touches the fields
    of [*this] is a function on the object; a member function that follows
    pointers, or allocates, is a function on the store.

    [revng_assert] and [revng_abort] terminate the process: an aborted
    computation is [Abort], which carries a diagnostic and no state.

    The transfer functions of the bit liveness analysis
    ([lib/TypeShrinking/BitLiveness.cpp]) are embedded in the module
    [TypeShrinking]: they are functions on [uint32_t], with the arithmetic
    of the machine integers written out. *)

From Stdlib Require Import ZArith String List Lia DecimalString DecimalN.
From stdpp Require Import base option list gmap strings fin_maps.

Local Open Scope string_scope.

(** ** Addresses *)

Abbreviation ptr := positive.

(** Handles on objects of other libraries ([llvm::BasicBlock *],
    [ExprNode *], [llvm::Value *]): only their identity matters here. *)
Abbreviation BasicBlockRef := positive.
Abbreviation ExprRef := positive.
Abbreviation ValueRef := positive.

(** ** Fatal errors *)

Inductive Result (A : Type) : Type :=
| Ok (a : A)
| Abort (diagnostic : string).
Arguments Ok {A} a.
Arguments Abort {A} diagnostic.

Global Instance Result_ret : MRet Result := fun A a => Ok a.
Global Instance Result_bind : MBind Result := fun A B f m =>
  match m with
  | Ok a => f a
  | Abort d => Abort d
  end.

Definition revng_assert (b : bool) : Result unit :=
  if b then Ok tt else Abort "assertion failed".

Definition isOk {A} (r : Result A) : bool :=
  match r with Ok _ => true | Abort _ => false end.

(** ** [ASTNode::NodeKind] and [ASTNode::DispatcherKind] *)

Inductive NodeKind :=
| NK_Code
| NK_Break
| NK_Continue
| NK_If
| NK_Scs
| NK_List
| NK_Switch
| NK_SwitchBreak
| NK_Set.

(** The value of each enumerator.  [NodeKind] is an unscoped enumeration
    without a fixed underlying type: an object of that type can hold values
    that are not the value of any enumerator, which is what the [default:]
    labels of the dispatching switches are for. *)
Definition NodeKind_value (K : NodeKind) : Z :=
  match K with
  | NK_Code => 0
  | NK_Break => 1
  | NK_Continue => 2
  | NK_If => 3
  | NK_Scs => 4
  | NK_List => 5
  | NK_Switch => 6
  | NK_SwitchBreak => 7
  | NK_Set => 8
  end%Z.

Definition NodeKind_of_value (z : Z) : option NodeKind :=
  match z with
  | 0 => Some NK_Code
  | 1 => Some NK_Break
  | 2 => Some NK_Continue
  | 3 => Some NK_If
  | 4 => Some NK_Scs
  | 5 => Some NK_List
  | 6 => Some NK_Switch
  | 7 => Some NK_SwitchBreak
  | 8 => Some NK_Set
  | _ => None
  end%Z.

Global Instance NodeKind_eq_dec : EqDecision NodeKind.
Proof. solve_decision. Defined.

Inductive DispatcherKind :=
| DK_NotADispatcher
| DK_Entry
| DK_Exit.

Global Instance DispatcherKind_eq_dec : EqDecision DispatcherKind.
Proof. solve_decision. Defined.

(** ** The CFG vertex an AST node is built from *)

Module BasicBlockNode.

(** Modelled from the spec: [BasicBlockNodeBB]
    (revng-c/RestructureCFG/BasicBlockNodeBB.h) is not among the sources.
    Section 3.1 of the specification lists the attributes of a CFG vertex:
    its kind, its name, the weaved flag and the state variable value; a
    [Code] vertex refers to its original block. *)
Inductive Type_ :=
| Code
| Empty
| EntryDispatcher
| ExitDispatcher
| EntrySet
| ExitSet
| Collapsed
| Tile.

Record t := mk {
  NodeType : Type_;
  OriginalNode : option BasicBlockRef;
  NameStr : string;
  Weaved : bool;
  StateVariableValue : N
}.

Definition isCode (n : t) : bool :=
  match NodeType n with Code => true | _ => false end.
Definition getOriginalNode (n : t) : option BasicBlockRef := OriginalNode n.
Definition getNameStr (n : t) : string := NameStr n.
Definition isWeaved (n : t) : bool := Weaved n.
Definition getStateVariableValue (n : t) : N := StateVariableValue n.
Definition getDispatcherType (n : t) : Type_ := NodeType n.

End BasicBlockNode.

(** ** The fields each derived class adds to [ASTNode] *)

Module CodeNode.
Record t := mk { ImplicitReturn : bool }.
Definition containsImplicitReturn (this : t) : bool := ImplicitReturn this.
Definition setImplicitReturn (this : t) : t := mk true.
End CodeNode.

Module BreakNode.
Record t := mk { BreakFromWithinSwitch : bool }.
Definition breaksFromWithinSwitch (this : t) : bool := BreakFromWithinSwitch this.
Definition setBreakFromWithinSwitch (B : bool) (this : t) : t := mk B.
End BreakNode.

Module ContinueNode.
Record t := mk { ComputationIf : option ptr; IsImplicit : bool }.
Definition hasComputation (this : t) : bool :=
  match ComputationIf this with Some _ => true | None => false end.
Definition isImplicit (this : t) : bool := IsImplicit this.
Definition setImplicit (this : t) : t := mk (ComputationIf this) true.
End ContinueNode.

Module IfNode.
Record t := mk {
  Then : option ptr;
  Else : option ptr;
  ConditionExpression : option ExprRef;
  IsWeaved : bool
}.
Definition getThen (this : t) : option ptr := Then this.
Definition getElse (this : t) : option ptr := Else this.
Definition setThen (Node : option ptr) (this : t) : t :=
  mk Node (Else this) (ConditionExpression this) (IsWeaved this).
Definition setElse (Node : option ptr) (this : t) : t :=
  mk (Then this) Node (ConditionExpression this) (IsWeaved this).
Definition hasThen (this : t) : bool :=
  match Then this with Some _ => true | None => false end.
Definition hasElse (this : t) : bool :=
  match Else this with Some _ => true | None => false end.
Definition isWeaved (this : t) : bool := IsWeaved this.
End IfNode.

Module ScsNode.

Inductive Type_ :=
| WhileTrue
| While
| DoWhile.

Global Instance Type_eq_dec : EqDecision Type_.
Proof. solve_decision. Defined.

Record t := mk {
  Body : option ptr;
  LoopType : Type_;
  RelatedCondition : option ptr
}.

(** The two constructors leave [LoopType] and [RelatedCondition] to their
    default member initialisers. *)
Definition ctor (Body : option ptr) : t := mk Body WhileTrue None.

Definition hasBody (this : t) : bool :=
  match Body this with Some _ => true | None => false end.
Definition getBody (this : t) : option ptr := Body this.
Definition setBody (Node : option ptr) (this : t) : t :=
  mk Node (LoopType this) (RelatedCondition this).

Definition isWhileTrue (this : t) : bool := bool_decide (LoopType this = WhileTrue).
Definition isWhile (this : t) : bool := bool_decide (LoopType this = While).
Definition isDoWhile (this : t) : bool := bool_decide (LoopType this = DoWhile).

Definition setWhile (Condition : option ptr) (this : t) : Result t :=
  _ ← revng_assert (bool_decide (LoopType this = WhileTrue));
  Ok (mk (Body this) While Condition).

Definition setDoWhile (Condition : option ptr) (this : t) : Result t :=
  _ ← revng_assert (bool_decide (LoopType this = WhileTrue));
  Ok (mk (Body this) DoWhile Condition).

Definition getRelatedCondition (this : t) : Result (option ptr) :=
  _ ← revng_assert (bool_decide (LoopType this = While)
                    || bool_decide (LoopType this = DoWhile));
  _ ← revng_assert (match RelatedCondition this with Some _ => true | None => false end);
  Ok (RelatedCondition this).

End ScsNode.

Module SequenceNode.
Record t := mk { NodeVec : list (option ptr) }.
Definition createEmpty : t := mk [].
Definition nodes (this : t) : list (option ptr) := NodeVec this.
Definition push_back (Node : option ptr) (this : t) : t := mk (NodeVec this ++ [Node]).
(** [NodeVec.erase(std::remove(begin, end, Node), end)] *)
Definition removeNode (Node : option ptr) (this : t) : t :=
  mk (filter (fun x => x ≠ Node) (NodeVec this)).
Definition length (this : t) : nat := List.length (NodeVec this).
End SequenceNode.

Module SwitchNode.

(** [llvm::SmallSet<uint64_t, 1>] *)
Abbreviation label_set_t := (gset N).
Abbreviation labeled_case_t := (gset N * option ptr)%type.
Abbreviation case_container := (list (gset N * option ptr)).

Record t := mk {
  Condition : option ValueRef;
  LabelCaseVec : case_container;
  IsWeaved : bool;
  NeedStateVariable : bool;
  NeedLoopBreakDispatcher : bool;
  DKind : DispatcherKind
}.

Definition set_LabelCaseVec (v : case_container) (this : t) : t :=
  mk (Condition this) v (IsWeaved this) (NeedStateVariable this)
     (NeedLoopBreakDispatcher this) (DKind this).

Definition cases (this : t) : case_container := LabelCaseVec this.
Definition cases_size (this : t) : nat := List.length (LabelCaseVec this).

(** [LabelSet.empty()] *)
Definition empty_labels (L : label_set_t) : bool := bool_decide (L = ∅).

Definition removeCaseN (N : nat) (this : t) : Result t :=
  _ ← revng_assert (bool_decide (N < List.length (LabelCaseVec this))%nat);
  Ok (set_LabelCaseVec (take N (LabelCaseVec this) ++ drop (S N) (LabelCaseVec this)) this).

(** The range-for of [getDefault], with the local [Default] threaded
    through the iterations. *)
Fixpoint getDefault_loop (v : case_container) (Default : option ptr)
  : Result (option ptr) :=
  match v with
  | [] => Ok Default
  | (LabelSet, Successor) :: rest =>
      if empty_labels LabelSet then
        _ ← revng_assert (match Default with None => true | Some _ => false end);
        getDefault_loop rest Successor
      else getDefault_loop rest Default
  end.

Definition getDefault (this : t) : Result (option ptr) :=
  getDefault_loop (LabelCaseVec this) None.

(** The loop of [removeDefault] over [llvm::enumerate(LabelCaseVec)]:
    [Index] is the position of the head of [v] in the whole vector. *)
Fixpoint removeDefault_loop (v : case_container) (Index : nat) (this : t)
  : Result t :=
  match v with
  | [] => Ok this
  | (LabelSet, Successor) :: rest =>
      if empty_labels LabelSet then removeCaseN Index this
      else removeDefault_loop rest (S Index) this
  end.

Definition removeDefault (this : t) : Result t :=
  removeDefault_loop (LabelCaseVec this) 0 this.

Definition hasDefault (this : t) : Result bool :=
  d ← getDefault this;
  Ok (match d with Some _ => true | None => false end).

Definition isWeaved (this : t) : bool := IsWeaved this.

End SwitchNode.

Module SwitchBreakNode.
Record t := mk { ParentSwitch : option ptr }.
Definition setParentSwitch (Switch : option ptr) (this : t) : t := mk Switch.
Definition getParentSwitch (this : t) : Result (option ptr) :=
  _ ← revng_assert (match ParentSwitch this with Some _ => true | None => false end);
  Ok (ParentSwitch this).
End SwitchBreakNode.

Module SetNode.
Record t := mk { StateVariableValue : N; DKind : DispatcherKind }.
Definition getStateVariableValue (this : t) : N := StateVariableValue this.
Definition getDispatcherKind (this : t) : Result DispatcherKind :=
  _ ← revng_assert (bool_decide (DKind this ≠ DK_NotADispatcher));
  Ok (DKind this).
End SetNode.

(** ** [ASTNode]: the base class fields and the dynamic type *)

Inductive Derived :=
| AsCode (o : CodeNode.t)
| AsBreak (o : BreakNode.t)
| AsContinue (o : ContinueNode.t)
| AsIf (o : IfNode.t)
| AsScs (o : ScsNode.t)
| AsSequence (o : SequenceNode.t)
| AsSwitch (o : SwitchNode.t)
| AsSwitchBreak (o : SwitchBreakNode.t)
| AsSet (o : SetNode.t).

Record ASTNode := mkASTNode {
  Kind : Z;
  BB : option BasicBlockRef;
  Name : string;
  Successor : option ptr;
  ID : N;
  derived : Derived
}.

Definition getKind (this : ASTNode) : Z := Kind this.
Definition getID (this : ASTNode) : N := ID this.
Definition setID (NewID : N) (this : ASTNode) : ASTNode :=
  mkASTNode (Kind this) (BB this) (Name this) (Successor this) NewID (derived this).
Definition getBB (this : ASTNode) : option BasicBlockRef := BB this.
Definition getOriginalBB (this : ASTNode) : option BasicBlockRef := BB this.
Definition getSuccessor (this : ASTNode) : option ptr := Successor this.

Definition set_Successor (S : option ptr) (this : ASTNode) : ASTNode :=
  mkASTNode (Kind this) (BB this) (Name this) S (ID this) (derived this).
Definition set_derived (d : Derived) (this : ASTNode) : ASTNode :=
  mkASTNode (Kind this) (BB this) (Name this) (Successor this) (ID this) d.

(** [consumeSuccessor]: the value returned and the object afterwards. *)
Definition consumeSuccessor (this : ASTNode) : option ptr * ASTNode :=
  let SuccessorTmp := Successor this in
  (SuccessorTmp, set_Successor None this).

Definition isDummy (this : ASTNode) : bool :=
  (Kind this =? NodeKind_value NK_Code)%Z
  && match BB this with None => true | Some _ => false end.

(** The class an object was constructed as. *)
Definition classOf (d : Derived) : NodeKind :=
  match d with
  | AsCode _ => NK_Code
  | AsBreak _ => NK_Break
  | AsContinue _ => NK_Continue
  | AsIf _ => NK_If
  | AsScs _ => NK_Scs
  | AsSequence _ => NK_List
  | AsSwitch _ => NK_Switch
  | AsSwitchBreak _ => NK_SwitchBreak
  | AsSet _ => NK_Set
  end.

(** Every constructor of the header passes its own enumerator to the
    [ASTNode] constructor, and [Kind] is [const]: the objects the program
    builds satisfy [WellTyped]. *)
Definition WellTyped (n : ASTNode) : Prop :=
  Kind n = NodeKind_value (classOf (derived n)).

Global Instance WellTyped_dec n : Decision (WellTyped n).
Proof. unfold WellTyped. apply _. Defined.

(** [ASTNode(NodeKind K, BasicBlockNodeBB *CFGNode, ASTNode *Successor)] *)
Definition ASTNode_ctor (K : NodeKind) (CFGNode : BasicBlockNode.t)
    (Successor : option ptr) (d : Derived) : ASTNode :=
  mkASTNode (NodeKind_value K)
    (if BasicBlockNode.isCode CFGNode
     then BasicBlockNode.getOriginalNode CFGNode else None)
    (BasicBlockNode.getNameStr CFGNode)
    Successor 0%N d.

(** [ASTNode(NodeKind K, const std::string &Name)] *)
Definition ASTNode_ctor_named (K : NodeKind) (Name : string) (d : Derived) : ASTNode :=
  mkASTNode (NodeKind_value K) None Name None 0%N d.

(** [SetNode::SetNode(BasicBlockNodeBB *CFGNode, ASTNode *Successor)] *)
Definition SetNode_ctor (CFGNode : BasicBlockNode.t) (Successor : option ptr)
  : Result ASTNode :=
  let StateVariableValue := BasicBlockNode.getStateVariableValue CFGNode in
  let CFGNodeType := BasicBlockNode.getDispatcherType CFGNode in
  DKind ← match CFGNodeType with
          | BasicBlockNode.EntrySet => Ok DK_Entry
          | BasicBlockNode.ExitSet => Ok DK_Exit
          | _ => Abort "Unexpected DispatcherKind"
          end;
  Ok (ASTNode_ctor NK_Set CFGNode Successor
        (AsSet (SetNode.mk StateVariableValue DKind))).

Definition CodeNode_ctor (CFGNode : BasicBlockNode.t) (Successor : option ptr) : ASTNode :=
  ASTNode_ctor NK_Code CFGNode Successor (AsCode (CodeNode.mk false)).

Definition ScsNode_ctor (CFGNode : BasicBlockNode.t) (Body Successor : option ptr) : ASTNode :=
  ASTNode_ctor NK_Scs CFGNode Successor (AsScs (ScsNode.ctor Body)).

Definition SequenceNode_createEmpty (Name : string) : ASTNode :=
  ASTNode_ctor_named NK_List Name (AsSequence SequenceNode.createEmpty).

Definition SwitchBreakNode_ctor (SN : option ptr) : ASTNode :=
  ASTNode_ctor_named NK_SwitchBreak "switch break" (AsSwitchBreak (SwitchBreakNode.mk SN)).

(** [llvm::cast<T>(this)]: the object has to be a [T]. *)
Definition bad_cast {A} : Result A :=
  Abort "cast<Ty>() argument of incompatible type!".

Definition cast (K : NodeKind) (n : ASTNode) : Result unit :=
  if bool_decide (classOf (derived n) = K) then Ok tt else bad_cast.

Definition cast_IfNode (n : ASTNode) : Result IfNode.t :=
  match derived n with AsIf o => Ok o | _ => bad_cast end.
Definition cast_ScsNode (n : ASTNode) : Result ScsNode.t :=
  match derived n with AsScs o => Ok o | _ => bad_cast end.
Definition cast_SequenceNode (n : ASTNode) : Result SequenceNode.t :=
  match derived n with AsSequence o => Ok o | _ => bad_cast end.
Definition cast_SwitchNode (n : ASTNode) : Result SwitchNode.t :=
  match derived n with AsSwitch o => Ok o | _ => bad_cast end.
Definition cast_SwitchBreakNode (n : ASTNode) : Result SwitchBreakNode.t :=
  match derived n with AsSwitchBreak o => Ok o | _ => bad_cast end.
Definition cast_ContinueNode (n : ASTNode) : Result ContinueNode.t :=
  match derived n with AsContinue o => Ok o | _ => bad_cast end.

(** ** Substitution maps and [updateASTNodesPointers] *)

(** [std::map<ASTNode *, ASTNode *>] *)
Abbreviation ASTNodeMap := (gmap ptr (option ptr)).

(** [SubstitutionMap.at(P)] throws [std::out_of_range] on a missing key;
    nothing catches it. *)
Definition map_at (SubstitutionMap : ASTNodeMap) (P : ptr) : Result (option ptr) :=
  match SubstitutionMap !! P with
  | Some Q => Ok Q
  | None => Abort "std::out_of_range"
  end.

(** [if (P) P = SubstitutionMap.at(P);] *)
Definition redirect (SubstitutionMap : ASTNodeMap) (P : option ptr)
  : Result (option ptr) :=
  match P with
  | Some p => map_at SubstitutionMap p
  | None => Ok None
  end.

Fixpoint redirect_all (SubstitutionMap : ASTNodeMap) (l : list (option ptr))
  : Result (list (option ptr)) :=
  match l with
  | [] => Ok []
  | P :: rest =>
      Q ← redirect SubstitutionMap P;
      rest' ← redirect_all SubstitutionMap rest;
      Ok (Q :: rest')
  end.

(** Modelled from the spec: the bodies of [IfNode::updateASTNodesPointers],
    [ScsNode::updateASTNodesPointers], [SequenceNode::updateASTNodesPointers],
    [SwitchNode::updateASTNodesPointers] and
    [SwitchBreakNode::updateASTNodesPointers] are declared in the header and
    defined in a file that is not among the sources.  Section 4.4 of the
    specification: the references [If.then/else], [Scs.body],
    [Sequence.children], [Switch.cases[i].child] and
    [SwitchBreak.parent_switch] are redirected using the map; an unresolved
    lookup is fatal (section 7).  A null reference is left alone, as the
    base class does for [Successor]; [RelatedCondition] and
    [ConditionExpression] are not in that list and are left alone too. *)
Definition IfNode_updateASTNodesPointers (SubstitutionMap : ASTNodeMap)
    (this : IfNode.t) : Result IfNode.t :=
  Then' ← redirect SubstitutionMap (IfNode.Then this);
  Else' ← redirect SubstitutionMap (IfNode.Else this);
  Ok (IfNode.mk Then' Else' (IfNode.ConditionExpression this) (IfNode.IsWeaved this)).

Definition ScsNode_updateASTNodesPointers (SubstitutionMap : ASTNodeMap)
    (this : ScsNode.t) : Result ScsNode.t :=
  Body' ← redirect SubstitutionMap (ScsNode.Body this);
  Ok (ScsNode.setBody Body' this).

Definition SequenceNode_updateASTNodesPointers (SubstitutionMap : ASTNodeMap)
    (this : SequenceNode.t) : Result SequenceNode.t :=
  NodeVec' ← redirect_all SubstitutionMap (SequenceNode.NodeVec this);
  Ok (SequenceNode.mk NodeVec').

Definition SwitchNode_updateASTNodesPointers (SubstitutionMap : ASTNodeMap)
    (this : SwitchNode.t) : Result SwitchNode.t :=
  Children' ← redirect_all SubstitutionMap (snd <$> SwitchNode.LabelCaseVec this);
  Ok (SwitchNode.set_LabelCaseVec
        (zip (fst <$> SwitchNode.LabelCaseVec this) Children') this).

Definition SwitchBreakNode_updateASTNodesPointers (SubstitutionMap : ASTNodeMap)
    (this : SwitchBreakNode.t) : Result SwitchBreakNode.t :=
  ParentSwitch' ← redirect SubstitutionMap (SwitchBreakNode.ParentSwitch this);
  Ok (SwitchBreakNode.mk ParentSwitch').

(** [ASTNode::updateASTNodesPointers]: the object after the call. *)
Definition updateASTNodesPointers (SubstitutionMap : ASTNodeMap) (this : ASTNode)
  : Result ASTNode :=
  Successor' ← redirect SubstitutionMap (Successor this);
  let this := set_Successor Successor' this in
  match NodeKind_of_value (getKind this) with
  | Some NK_If =>
      If ← cast_IfNode this;
      If' ← IfNode_updateASTNodesPointers SubstitutionMap If;
      Ok (set_derived (AsIf If') this)
  | Some NK_Switch =>
      Switch ← cast_SwitchNode this;
      Switch' ← SwitchNode_updateASTNodesPointers SubstitutionMap Switch;
      Ok (set_derived (AsSwitch Switch') this)
  | Some NK_Scs =>
      Scs ← cast_ScsNode this;
      Scs' ← ScsNode_updateASTNodesPointers SubstitutionMap Scs;
      Ok (set_derived (AsScs Scs') this)
  | Some NK_Continue =>
      Continue ← cast_ContinueNode this;
      (* If it has a computation we have to update it. *)
      _ ← revng_assert (negb (ContinueNode.hasComputation Continue));
      Ok this
  | Some NK_SwitchBreak =>
      SwitchBreak ← cast_SwitchBreakNode this;
      SwitchBreak' ← SwitchBreakNode_updateASTNodesPointers SubstitutionMap SwitchBreak;
      Ok (set_derived (AsSwitchBreak SwitchBreak') this)
  | Some NK_Code | Some NK_Break | Some NK_Set =>
      (* They only have a successor *)
      Ok this
  | Some NK_List =>
      Seq ← cast_SequenceNode this;
      Seq' ← SequenceNode_updateASTNodesPointers SubstitutionMap Seq;
      Ok (set_derived (AsSequence Seq') this)
  | None => Abort "AST node type not expected"
  end.

(** The AST-node references an object holds: the hybrid successor and the
    references of its class. *)
Definition class_references (d : Derived) : list (option ptr) :=
  match d with
  | AsIf o => [IfNode.Then o; IfNode.Else o]
  | AsScs o => [ScsNode.Body o]
  | AsSequence o => SequenceNode.NodeVec o
  | AsSwitch o => snd <$> SwitchNode.LabelCaseVec o
  | AsSwitchBreak o => [SwitchBreakNode.ParentSwitch o]
  | AsCode _ | AsBreak _ | AsContinue _ | AsSet _ => []
  end.

Definition references (n : ASTNode) : list (option ptr) :=
  Successor n :: class_references (derived n).

(** ** The store *)

Abbreviation Heap := (gmap ptr ASTNode).

(** [new T(...)]: an address no live object has. *)
Definition new (o : ASTNode) (h : Heap) : ptr * Heap :=
  let p := fresh (dom h) in (p, <[p := o]> h).

(** ** [ASTNode::Clone]

    Each class defines [Clone] as [new T( *this )] with the defaulted copy
    constructor: every field of the base class and of the class is copied. *)
Definition Clone_as (K : NodeKind) (this : ASTNode) (h : Heap)
  : Result (option ptr * Heap) :=
  _ ← cast K this;
  let '(p, h') := new this h in
  Ok (Some p, h').

Definition Clone (this : ptr) (h : Heap) : Result (option ptr * Heap) :=
  match h !! this with
  | None => Abort "dangling pointer"
  | Some n =>
      match NodeKind_of_value (getKind n) with
      | Some K => Clone_as K n h
      | None => Ok (None, h)
      end
  end.

(** ** Calls that follow pointers

    A call that walks the store recurses on a budget; [None] means the
    budget was too small, [Some r] is the outcome of the call. *)

Definition nonnull {A} (o : option A) : bool :=
  match o with Some _ => true | None => false end.

Definition and_then {A B} (r : Result A) (k : A → option (Result B))
  : option (Result B) :=
  match r with
  | Ok a => k a
  | Abort d => Some (Abort d)
  end.

Definition deref (h : Heap) (p : ptr) : Result ASTNode :=
  match h !! p with
  | Some n => Ok n
  | None => Abort "dangling pointer"
  end.

(** [llvm::dyn_cast_or_null<T>(Node)], [T] being the class of kind [K]. *)
Definition dyn_cast_or_null (K : NodeKind) (h : Heap) (Node : option ptr)
  : Result (option ASTNode) :=
  match Node with
  | None => Ok None
  | Some q =>
      m ← deref h q;
      Ok (if (getKind m =? NodeKind_value K)%Z then Some m else None)
  end.

(** ** [ASTNode::isEqual] *)

(** [BreakNode::nodeIsEqual], [ContinueNode::nodeIsEqual] and
    [SwitchBreakNode::nodeIsEqual], as the header defines them. *)
Definition BreakNode_nodeIsEqual (h : Heap) (Node : option ptr) : Result bool :=
  m ← dyn_cast_or_null NK_Break h Node; Ok (nonnull m).

Definition ContinueNode_nodeIsEqual (h : Heap) (Node : option ptr) : Result bool :=
  m ← dyn_cast_or_null NK_Continue h Node; Ok (nonnull m).

Definition SwitchBreakNode_nodeIsEqual (h : Heap) (Node : option ptr) : Result bool :=
  m ← dyn_cast_or_null NK_SwitchBreak h Node; Ok (nonnull m).

(** The attribute fields structural equality looks at. *)
Record Attributes := mkAttributes {
  label_sets : list (gset N);
  dispatcher_kind : option DispatcherKind;
  loop_type : option ScsNode.Type_;
  weaved_flag : option bool;
  state_value : option N
}.

Global Instance Attributes_eq_dec : EqDecision Attributes.
Proof. solve_decision. Defined.

Definition attributes (d : Derived) : Attributes :=
  match d with
  | AsIf o => mkAttributes [] None None (Some (IfNode.IsWeaved o)) None
  | AsScs o => mkAttributes [] None (Some (ScsNode.LoopType o)) None None
  | AsSwitch o =>
      mkAttributes (fst <$> SwitchNode.LabelCaseVec o) (Some (SwitchNode.DKind o))
        None (Some (SwitchNode.IsWeaved o)) None
  | AsSet o =>
      mkAttributes [] (Some (SetNode.DKind o)) None None
        (Some (SetNode.StateVariableValue o))
  | AsCode _ | AsBreak _ | AsContinue _ | AsSequence _ | AsSwitchBreak _ =>
      mkAttributes [] None None None None
  end.

(** The children of a node in the tree. *)
Definition tree_children (d : Derived) : list (option ptr) :=
  match d with
  | AsIf o => [IfNode.Then o; IfNode.Else o]
  | AsScs o => [ScsNode.Body o]
  | AsSequence o => SequenceNode.NodeVec o
  | AsSwitch o => snd <$> SwitchNode.LabelCaseVec o
  | AsCode _ | AsBreak _ | AsContinue _ | AsSwitchBreak _ | AsSet _ => []
  end.

Section nodeIsEqual.

Variable h : Heap.
(** The recursive call [Child->isEqual(OtherChild)]. *)
Variable isEqual : ptr → option ptr → option (Result bool).

Definition childIsEqual (A B : option ptr) : option (Result bool) :=
  match A, B with
  | None, None => Some (Ok true)
  | Some a, Some _ => isEqual a B
  | _, _ => Some (Ok false)
  end.

Fixpoint childrenAreEqual (l1 l2 : list (option ptr)) : option (Result bool) :=
  match l1, l2 with
  | [], [] => Some (Ok true)
  | A :: l1, B :: l2 =>
      match childIsEqual A B with
      | Some (Ok true) => childrenAreEqual l1 l2
      | r => r
      end
  | _, _ => Some (Ok false)
  end.

(** Modelled from the spec: the bodies of [CodeNode::nodeIsEqual],
    [IfNode::nodeIsEqual], [ScsNode::nodeIsEqual],
    [SequenceNode::nodeIsEqual], [SwitchNode::nodeIsEqual] and
    [SetNode::nodeIsEqual] are declared in the header and defined in a file
    that is not among the sources.  Section 4.5 of the specification:
    structural equality compares the kind, the attribute fields (label
    sets, dispatcher kind, loop type, weaved flag, state value), and
    recurses into children; IDs and names are ignored.  The kind is compared
    as the header does for the other classes, with [dyn_cast_or_null]. *)
Definition nodeIsEqual (K : NodeKind) (this : ASTNode) (Node : option ptr)
  : option (Result bool) :=
  and_then (cast K this) (fun _ =>
  and_then (dyn_cast_or_null K h Node) (fun Other =>
  match Other with
  | None => Some (Ok false)
  | Some Other =>
      and_then (cast K Other) (fun _ =>
      if bool_decide (attributes (derived this) = attributes (derived Other))
      then
        if bool_decide (List.length (tree_children (derived this))
                        = List.length (tree_children (derived Other)))
        then childrenAreEqual (tree_children (derived this))
                              (tree_children (derived Other))
        else Some (Ok false)
      else Some (Ok false))
  end)).

End nodeIsEqual.

Fixpoint isEqual (fuel : nat) (h : Heap) (this : ptr) (Node : option ptr)
  : option (Result bool) :=
  match fuel with
  | O => None
  | S fuel =>
      and_then (deref h this) (fun n =>
      match NodeKind_of_value (getKind n) with
      | Some NK_Code => nodeIsEqual h (isEqual fuel h) NK_Code n Node
      | Some NK_Break => Some (BreakNode_nodeIsEqual h Node)
      | Some NK_Continue => Some (ContinueNode_nodeIsEqual h Node)
      | Some NK_If => nodeIsEqual h (isEqual fuel h) NK_If n Node
      | Some NK_Scs => nodeIsEqual h (isEqual fuel h) NK_Scs n Node
      | Some NK_List => nodeIsEqual h (isEqual fuel h) NK_List n Node
      | Some NK_Switch => nodeIsEqual h (isEqual fuel h) NK_Switch n Node
      | Some NK_SwitchBreak => Some (SwitchBreakNode_nodeIsEqual h Node)
      | Some NK_Set => nodeIsEqual h (isEqual fuel h) NK_Set n Node
      | None => Some (Abort "revng_abort")
      end)
  end.

(** ** [SequenceNode::addNode] *)

Fixpoint addNode_rec (fuel : nat) (this Node : ptr) (h : Heap)
  : option (Result Heap) :=
  match fuel with
  | O => None
  | S fuel =>
      and_then (deref h this) (fun s =>
      and_then (cast_SequenceNode s) (fun Seq =>
      (* NodeVec.push_back(Node) *)
      let h := <[this := set_derived (AsSequence (SequenceNode.push_back (Some Node) Seq)) s]> h in
      and_then (deref h Node) (fun n =>
      if nonnull (getSuccessor n) then
        let '(Next, n') := consumeSuccessor n in
        let h := <[Node := n']> h in
        match Next with
        | Some Next => addNode_rec fuel this Next h
        | None => Some (Abort "null pointer dereference")
        end
      else Some (Ok h))))
  end.

(** Every recursive call follows the clearing of one more [Successor]
    field, so the number of live objects bounds the depth of the recursion
    (lemma [addNode_total]). *)
Definition addNode (this Node : ptr) (h : Heap) : option (Result Heap) :=
  addNode_rec (S (size h)) this Node h.

(** The chain of hybrid successor links that starts at a node and ends at a
    node without successor. *)
Inductive successor_chain (h : Heap) : ptr → list ptr → Prop :=
| chain_last p n :
    h !! p = Some n → Successor n = None → successor_chain h p [p]
| chain_next p n q l :
    h !! p = Some n → Successor n = Some q → successor_chain h q l →
    successor_chain h p (p :: l).

(** ** Properties used in the statements *)

(** A tree of depth at most [d] hangs below [p]: every node of it is live
    and has the class its kind says. *)
Fixpoint finite_tree (d : nat) (h : Heap) (p : ptr) : bool :=
  match d with
  | O => false
  | S d =>
      match h !! p with
      | None => false
      | Some n =>
          bool_decide (WellTyped n)
          && forallb (fun c => match c with
                               | None => true
                               | Some c => finite_tree d h c
                               end) (tree_children (derived n))
      end
  end.

(** A node can be reached from another one through the references nodes
    hold. *)
Inductive reachable (h : Heap) : ptr → ptr → Prop :=
| reachable_here p : reachable h p p
| reachable_step p n q r :
    h !! p = Some n → Some q ∈ references n → reachable h q r →
    reachable h p r.

(** What a substitution map makes of a reference. *)
Definition substituted (SubstitutionMap : ASTNodeMap) (P : option ptr) : option ptr :=
  match P with
  | Some p => default None (SubstitutionMap !! p)
  | None => None
  end.

(** The [default] case of a switch is the one with no label. *)
Definition is_default (c : gset N * option ptr) : bool :=
  SwitchNode.empty_labels (fst c).

Definition at_most_one_default (this : SwitchNode.t) : Prop :=
  (List.length (List.filter is_default (SwitchNode.LabelCaseVec this)) ≤ 1)%nat.

(** A loop that is not [WhileTrue] has its condition. *)
Definition holds_related_condition (this : ScsNode.t) : Prop :=
  ScsNode.LoopType this ≠ ScsNode.WhileTrue →
  ScsNode.RelatedCondition this ≠ None.

(** The loops the interface of [ScsNode] builds when it is given conditions
    that are not null: a constructor, then [setBody], [setWhile] and
    [setDoWhile]. *)
Inductive ScsNode_built : ScsNode.t → Prop :=
| built_ctor Body : ScsNode_built (ScsNode.ctor Body)
| built_setBody this Node :
    ScsNode_built this → ScsNode_built (ScsNode.setBody Node this)
| built_setWhile this (c : ptr) this' :
    ScsNode_built this → ScsNode.setWhile (Some c) this = Ok this' →
    ScsNode_built this'
| built_setDoWhile this (c : ptr) this' :
    ScsNode_built this → ScsNode.setDoWhile (Some c) this = Ok this' →
    ScsNode_built this'.

Local Close Scope string_scope.

(** One step of [isEqual] on a node that has the class its kind says: the
    three classes whose [nodeIsEqual] is in the header only look at the
    kind of the other node. *)
Definition isEqual_step (fuel : nat) (h : Heap) (n : ASTNode) (Node : option ptr)
  : option (Result bool) :=
  match classOf (derived n) with
  | NK_Break => Some (BreakNode_nodeIsEqual h Node)
  | NK_Continue => Some (ContinueNode_nodeIsEqual h Node)
  | NK_SwitchBreak => Some (SwitchBreakNode_nodeIsEqual h Node)
  | K => nodeIsEqual h (isEqual fuel h) K n Node
  end.

(** A node without its ID and its name. *)
Definition forget_ID_Name (n : ASTNode) : ASTNode :=
  mkASTNode (Kind n) (BB n) ""%string (Successor n) 0 (derived n).

(** What [addNode] makes of the object at [p], [l] being the successor
    chain it walks: the hybrid successor of the nodes of the chain is
    cleared and the chain is appended to the sequence. *)
Definition after_addNode (this : ptr) (l : list ptr) (p : ptr) (n : ASTNode)
  : ASTNode :=
  let n := if bool_decide (p ∈ l) then set_Successor None n else n in
  if bool_decide (p = this) then
    match derived n with
    | AsSequence Seq =>
        set_derived
          (AsSequence (SequenceNode.mk (SequenceNode.NodeVec Seq ++ (Some <$> l)))) n
    | _ => n
    end
  else n.

(** The number of live nodes that have a hybrid successor. *)
Definition pending (h : Heap) : nat :=
  size (filter (λ kv : ptr * ASTNode, Successor kv.2 ≠ None) h).

(** Modelled from the spec: the driver of the sequencing pass, which calls
    [addNode], is not among the sources.  Section 4.3 of the specification:
    for every node with a hybrid successor, the node is pushed into a fresh
    sequence and its successors are appended in turn.  As far as the hybrid
    successors go, such a pass creates empty sequences, calls [addNode] on
    the head of a successor chain, and writes fields other than [Successor]
    (to hang the sequences in the tree: [setThen], [setElse], [setBody],
    the cases of a switch).  The list collects the nodes appended so far. *)
Inductive sequencing (h : Heap) : list ptr → Heap → Prop :=
| sequencing_start : sequencing h [] h
| sequencing_createEmpty A h1 Name :
    sequencing h A h1 →
    sequencing h A (new (SequenceNode_createEmpty Name) h1).2
| sequencing_addNode A h1 this Node l h2 :
    sequencing h A h1 →
    successor_chain h1 Node l →
    addNode this Node h1 = Some (Ok h2) →
    sequencing h (A ++ l) h2
| sequencing_write A h1 p n n' :
    sequencing h A h1 →
    h1 !! p = Some n → Successor n' = Successor n →
    sequencing h A (<[p := n']> h1).

(** ** Structural equality, as the specification words it

    Section 4.5: structural equality compares the kind, the attribute
    fields (label sets, dispatcher kind, loop type, weaved flag, state
    value), and recurses into children; IDs and names are ignored.
    [same_structure] is that comparison, written out class by class on the
    fields of the classes; [None] means that the trees are deeper than
    [d], or hold a dangling pointer or a node that is not of the class its
    kind says. *)
Section same_structure.

Variable same : ptr → ptr → option bool.

Definition same_child (A B : option ptr) : option bool :=
  match A, B with
  | None, None => Some true
  | Some a, Some b => same a b
  | _, _ => Some false
  end.

Fixpoint same_children (l1 l2 : list (option ptr)) : option bool :=
  match l1, l2 with
  | [], [] => Some true
  | A :: l1, B :: l2 =>
      r ← same_child A B;
      rs ← same_children l1 l2;
      Some (r && rs)
  | _, _ => Some false
  end.

End same_structure.

Fixpoint same_structure (d : nat) (h : Heap) (a b : ptr) : option bool :=
  match d with
  | O => None
  | S d =>
      match h !! a, h !! b with
      | Some na, Some nb =>
          if bool_decide (WellTyped na ∧ WellTyped nb) then
            match derived na, derived nb with
            | AsCode _, AsCode _ | AsBreak _, AsBreak _
            | AsContinue _, AsContinue _
            | AsSwitchBreak _, AsSwitchBreak _ => Some true
            | AsIf x, AsIf y =>
                if bool_decide (IfNode.IsWeaved x = IfNode.IsWeaved y) then
                  r1 ← same_child (same_structure d h) (IfNode.Then x) (IfNode.Then y);
                  r2 ← same_child (same_structure d h) (IfNode.Else x) (IfNode.Else y);
                  Some (r1 && r2)
                else Some false
            | AsScs x, AsScs y =>
                if bool_decide (ScsNode.LoopType x = ScsNode.LoopType y) then
                  same_child (same_structure d h) (ScsNode.Body x) (ScsNode.Body y)
                else Some false
            | AsSequence x, AsSequence y =>
                same_children (same_structure d h)
                  (SequenceNode.NodeVec x) (SequenceNode.NodeVec y)
            | AsSwitch x, AsSwitch y =>
                if bool_decide
                     (fst <$> SwitchNode.LabelCaseVec x
                      = fst <$> SwitchNode.LabelCaseVec y
                      ∧ SwitchNode.DKind x = SwitchNode.DKind y
                      ∧ SwitchNode.IsWeaved x = SwitchNode.IsWeaved y)
                then
                  same_children (same_structure d h)
                    (snd <$> SwitchNode.LabelCaseVec x)
                    (snd <$> SwitchNode.LabelCaseVec y)
                else Some false
            | AsSet x, AsSet y =>
                Some (bool_decide
                        (SetNode.StateVariableValue x = SetNode.StateVariableValue y
                         ∧ SetNode.DKind x = SetNode.DKind y))
            | _, _ => Some false
            end
          else None
      | _, _ => None
      end
  end.

(** ** [ASTNode::getName] *)

(** [std::to_string(unsigned)]: the decimal digits of the number. *)
Definition to_string (n : N) : string :=
  NilEmpty.string_of_uint (N.to_uint n).

(** [ASTNode::getName] *)
Definition getName (this : ASTNode) : string :=
  ("ID:" ++ to_string (getID this) ++ " Name:" ++ Name this)%string.

(** ** Sequences of calls on a loop *)

(** The calls of the interface of [ScsNode] that write to a loop. *)
Inductive ScsNode_call :=
| call_setBody (Node : option ptr)
| call_setWhile (Condition : option ptr)
| call_setDoWhile (Condition : option ptr).

Definition ScsNode_do (c : ScsNode_call) (this : ScsNode.t) : Result ScsNode.t :=
  match c with
  | call_setBody Node => Ok (ScsNode.setBody Node this)
  | call_setWhile Condition => ScsNode.setWhile Condition this
  | call_setDoWhile Condition => ScsNode.setDoWhile Condition this
  end.

Fixpoint ScsNode_do_all (cs : list ScsNode_call) (this : ScsNode.t)
  : Result ScsNode.t :=
  match cs with
  | [] => Ok this
  | c :: cs => this' ← ScsNode_do c this; ScsNode_do_all cs this'
  end.

(** The calls that turn a [WhileTrue] loop into another loop. *)
Definition is_promotion (c : ScsNode_call) : bool :=
  match c with
  | call_setBody _ => false
  | call_setWhile _ | call_setDoWhile _ => true
  end.

(** ** The walk of [SequenceNode::addNode] *)

(** The nodes [addNode] appends: it follows the hybrid successor links and
    stops at a node without successor, or at a node it has been at before,
    whose successor it has cleared then.  [V] lists the nodes it has been
    at. *)
Inductive successor_walk (h : Heap) : list ptr → ptr → list ptr → Prop :=
| walk_stop V p n :
    h !! p = Some n → Successor n = None ∨ p ∈ V →
    successor_walk h V p [p]
| walk_next V p n q l :
    h !! p = Some n → p ∉ V → Successor n = Some q →
    successor_walk h (p :: V) q l →
    successor_walk h V p (p :: l).

(** What one call of [addNode], without the recursive call, makes of the
    object at [p]: [Node] is pushed into the sequence and its successor is
    cleared. *)
Definition addNode_step (this Node : ptr) (p : ptr) (n : ASTNode) : ASTNode :=
  let n := if bool_decide (p = this) then
             match derived n with
             | AsSequence Seq =>
                 set_derived
                   (AsSequence (SequenceNode.push_back (Some Node) Seq)) n
             | _ => n
             end
           else n in
  if bool_decide (p = Node) then set_Successor None n else n.

(** * lib/TypeShrinking/BitLiveness.cpp: the transfer functions of the bit
      liveness analysis *)

Module TypeShrinking.

(** [const uint32_t Top = std::numeric_limits<uint32_t>::max();] *)
Definition Top : N := 4294967295.

(** Conversion to [uint32_t], and the arithmetic of [uint32_t] and of
    [uint64_t] the file uses. *)
Definition to_uint32 (n : N) : N := n mod 2 ^ 32.
Definition uint32_add (a b : N) : N := (a + b) mod 2 ^ 32.
Definition uint64_sub (a b : N) : N := (a + 2 ^ 64 - b) mod 2 ^ 64.

(** What the file reads of LLVM's values: [llvm::Type], [llvm::APInt],
    the operands of an instruction and the instruction itself. *)
Inductive Type_ :=
| IntegerTy (BitWidth : N)
| OtherTy.

Definition isIntegerTy (T : Type_) : bool :=
  match T with IntegerTy _ => true | OtherTy => false end.

(** [Type::getIntegerBitWidth] is [cast<IntegerType>(this)->getBitWidth()]. *)
Definition getIntegerBitWidth (T : Type_) : Result N :=
  match T with IntegerTy BitWidth => Ok BitWidth | OtherTy => bad_cast end.

Module APInt.
(** [BitWidth] bits: the bits of [U] beyond them are not part of the
    number. *)
Record t := mk { BitWidth : N; U : N }.
Definition getBitWidth (V : t) : N := BitWidth V.
Definition value (V : t) : N := U V mod 2 ^ BitWidth V.
Definition countLeadingZeros (V : t) : N := BitWidth V - N.size (value V).
Definition getActiveBits (V : t) : N := BitWidth V - countLeadingZeros V.
(** [if (isSingleWord()) return U.VAL;
     assert(getActiveBits() <= 64 && "Too many bits for uint64_t");] *)
Definition getZExtValue (V : t) : Result N :=
  if (BitWidth V <=? 64)%N then Ok (value V)
  else if (getActiveBits V <=? 64)%N then Ok (value V)
       else Abort "Too many bits for uint64_t".
End APInt.

Module Value.
(** [ConstantInt] is what [llvm::dyn_cast<llvm::ConstantInt>] returns:
    the number of a constant integer, nothing for another value. *)
Record t := mk { getType : Type_; ConstantInt : option APInt.t }.
End Value.

Module Instruction.
Inductive Opcode :=
| And | Xor | Or | Add | Sub | Mul | Shl | LShr | AShr | Trunc | ZExt
| OtherOpcode.

Record t := mk { getOpcode : Opcode; getType : Type_; operands : list Value.t }.

Definition getOperand (i : nat) (Ins : t) : Result Value.t :=
  match operands Ins !! i with
  | Some Operand => Ok Operand
  | None => Abort "getOperand() out of range!"
  end.
End Instruction.

Global Instance Opcode_eq_dec : EqDecision Instruction.Opcode.
Proof. solve_decision. Defined.

Fixpoint getMaxOperandSize_loop (ops : list Value.t) (Max : N) : N :=
  match ops with
  | [] => Max
  | Operand :: ops =>
      match Value.getType Operand with
      | IntegerTy BitWidth => getMaxOperandSize_loop ops (N.max Max BitWidth)
      | OtherTy => Top
      end
  end.

Definition getMaxOperandSize (Ins : Instruction.t) : N :=
  getMaxOperandSize_loop (Instruction.operands Ins) 0.

Definition transferMask (Element MaskIndex : N) : N := N.min Element MaskIndex.

Fixpoint transferAnd_loop (ops : list Value.t) (Element Result_ : N) : N :=
  match ops with
  | [] => Result_
  | Operand :: ops =>
      match Value.ConstantInt Operand with
      | Some OperandValue =>
          let MostSignificantBit :=
            (APInt.getBitWidth OperandValue
             - APInt.countLeadingZeros OperandValue)%N in
          transferAnd_loop ops Element
            (N.min Result_ (transferMask Element MostSignificantBit))
      | None => transferAnd_loop ops Element Result_
      end
  end.

Definition transferAnd (Ins : Instruction.t) (Element : N) : Result N :=
  _ ← revng_assert (bool_decide (Instruction.getOpcode Ins = Instruction.And));
  Ok (transferAnd_loop (Instruction.operands Ins) Element Element).

Definition transferShiftLeft (Ins : Instruction.t) (Element : N) : Result N :=
  let OperandSize := getMaxOperandSize Ins in
  Operand ← Instruction.getOperand 1 Ins;
  match Value.ConstantInt Operand with
  | Some ConstOp =>
      OpVal ← APInt.getZExtValue ConstOp;
      if (Element <? OpVal)%N then Ok 0%N
      else Ok (to_uint32 (uint64_sub Element OpVal))
  | None => Ok OperandSize
  end.

Definition transferLogicalShiftRight (Ins : Instruction.t) (Element : N)
  : Result N :=
  let OperandSize := getMaxOperandSize Ins in
  Operand ← Instruction.getOperand 1 Ins;
  match Value.ConstantInt Operand with
  | Some ConstOp =>
      OpVal ← APInt.getZExtValue ConstOp;
      _ ← revng_assert (OpVal <? Top)%N;
      if (uint64_sub Top OpVal <? Element)%N then Ok Top
      else Ok (N.min OperandSize (uint32_add Element (to_uint32 OpVal)))
  | None => Ok OperandSize
  end.

Definition transferArithmeticalShiftRight (Ins : Instruction.t) (Element : N)
  : Result N :=
  let OperandSize := getMaxOperandSize Ins in
  Operand ← Instruction.getOperand 1 Ins;
  match Value.ConstantInt Operand with
  | Some ConstOp =>
      OpVal ← APInt.getZExtValue ConstOp;
      _ ← revng_assert (OpVal <? Top)%N;
      if (uint64_sub Top OpVal <? Element)%N then Ok Top
      else Ok (N.min OperandSize (uint32_add Element (to_uint32 OpVal)))
  | None => Ok OperandSize
  end.

Definition transferTrunc (Ins : Instruction.t) (Element : N) : Result N :=
  BitWidth ← getIntegerBitWidth (Instruction.getType Ins);
  Ok (N.min Element BitWidth).

Definition transferZExt (Ins : Instruction.t) (Element : N) : N :=
  N.min Element (getMaxOperandSize Ins).

(** [BitLivenessAnalysis::applyTransferFunction]; of the node [L] it reads
    [L->Instruction] only. *)
Definition applyTransferFunction (Ins : Instruction.t) (E : N) : Result N :=
  match Instruction.getOpcode Ins with
  | Instruction.And => transferAnd Ins E
  | Instruction.Xor | Instruction.Or | Instruction.Add | Instruction.Sub
  | Instruction.Mul =>
      Ok (N.min E (getMaxOperandSize Ins))
  | Instruction.Shl => transferShiftLeft Ins E
  | Instruction.LShr => transferLogicalShiftRight Ins E
  | Instruction.AShr => transferArithmeticalShiftRight Ins E
  | Instruction.Trunc => transferTrunc Ins E
  | Instruction.ZExt => Ok (transferZExt Ins E)
  | Instruction.OtherOpcode =>
      (* by default all the bits of the operands can be alive *)
      Ok (getMaxOperandSize Ins)
  end.

End TypeShrinking.

(** ** Example objects *)

Definition example_scs : ScsNode.t := ScsNode.ctor (Some 2%positive).

Definition example_do_while : ScsNode.t :=
  ScsNode.mk None ScsNode.DoWhile (Some 3%positive).

Definition example_code_vertex : BasicBlockNode.t :=
  BasicBlockNode.mk BasicBlockNode.Code (Some 5%positive) "bb"%string false 0.

(** An object whose kind is the value of no enumerator. *)
Definition example_unknown_kind : ASTNode :=
  mkASTNode 9 None "unknown"%string None 0 (AsCode (CodeNode.mk false)).

Definition example_switch_null_default : SwitchNode.t :=
  SwitchNode.mk None [(∅, None)] false false false DK_NotADispatcher.

Definition example_switch : SwitchNode.t :=
  SwitchNode.mk (Some 1%positive)
    [({[ 3%N ]}, Some 10%positive); (∅, Some 11%positive); ({[ 4%N; 5%N ]}, Some 12%positive)]
    false false false DK_NotADispatcher.

Definition example_switch_no_default : SwitchNode.t :=
  SwitchNode.mk (Some 1%positive)
    [({[ 3%N ]}, Some 10%positive); ({[ 4%N ]}, Some 12%positive)]
    false false false DK_NotADispatcher.

Definition example_code_with_successor : ASTNode :=
  mkASTNode 0 (Some 5%positive) "bb"%string (Some 1%positive) 4 (AsCode (CodeNode.mk false)).

Definition example_chained_map : ASTNodeMap :=
  <[1%positive := Some 2%positive]> (<[2%positive := Some 3%positive]> ∅).

Definition example_continue_with_computation : ASTNode :=
  mkASTNode 2 None "continue"%string None 6
    (AsContinue (ContinueNode.mk (Some 8%positive) false)).

Definition example_if : ASTNode :=
  mkASTNode 3 None "if"%string (Some 4%positive) 7
    (AsIf (IfNode.mk (Some 2%positive) None (Some 1%positive) false)).

Definition example_clone_map : ASTNodeMap :=
  <[2%positive := Some 12%positive]> (<[4%positive := Some 14%positive]> ∅).

Definition example_if_then : ASTNode :=
  mkASTNode 3 None "if"%string None 7
    (AsIf (IfNode.mk (Some 2%positive) None (Some 1%positive) false)).

Definition example_heap : Heap :=
  list_to_map
    [ (1%positive, example_if_then);
      (2%positive, mkASTNode 0 (Some 5%positive) "bb"%string None 3
                     (AsCode (CodeNode.mk false)));
      (3%positive, mkASTNode 3 None "the same if"%string None 8
                     (AsIf (IfNode.mk (Some 2%positive) None (Some 1%positive) false)));
      (4%positive, mkASTNode 3 None "if"%string None 7
                     (AsIf (IfNode.mk (Some 2%positive) None (Some 1%positive) true)));
      (5%positive, mkASTNode 3 None "if"%string None 7
                     (AsIf (IfNode.mk (Some 6%positive) None (Some 1%positive) false)));
      (6%positive, mkASTNode 1 None "break"%string None 9
                     (AsBreak (BreakNode.mk false))) ].

(** [example_heap] with other IDs and names. *)
Definition example_heap_renamed : Heap :=
  (λ n, mkASTNode (Kind n) (BB n) "renamed"%string (Successor n) (ID n + 100)
          (derived n)) <$> example_heap.

Definition example_chain_heap : Heap :=
  list_to_map
    [ (1%positive, SequenceNode_createEmpty "sequence"%string);
      (2%positive, CodeNode_ctor example_code_vertex (Some 3%positive));
      (3%positive, CodeNode_ctor example_code_vertex (Some 4%positive));
      (4%positive, CodeNode_ctor example_code_vertex None);
      (5%positive, CodeNode_ctor example_code_vertex (Some 4%positive)) ].

Definition example_sequence : SequenceNode.t :=
  SequenceNode.mk [Some 2%positive; Some 3%positive; Some 2%positive; None].

Definition example_switch_two_defaults : SwitchNode.t :=
  SwitchNode.mk None
    [(∅, Some 10%positive); ({[ 1%N ]}, Some 11%positive); (∅, Some 12%positive)]
    false false false DK_NotADispatcher.

Definition example_switch_null_then_default : SwitchNode.t :=
  SwitchNode.mk None
    [(∅, None); ({[ 1%N ]}, Some 11%positive); (∅, Some 12%positive)]
    false false false DK_NotADispatcher.

Definition example_kind_only_heap : Heap :=
  list_to_map
    [ (1%positive, mkASTNode 2 None "continue"%string None 1
                     (AsContinue (ContinueNode.mk None false)));
      (2%positive, mkASTNode 2 None "implicit continue"%string (Some 1%positive) 2
                     (AsContinue (ContinueNode.mk (Some 5%positive) true)));
      (3%positive, mkASTNode 1 None "break"%string None 3
                     (AsBreak (BreakNode.mk true)));
      (4%positive, example_unknown_kind) ].

Definition example_exit_set_vertex : BasicBlockNode.t :=
  BasicBlockNode.mk BasicBlockNode.ExitSet None "set"%string false 3.

Definition example_cycle_heap : Heap :=
  list_to_map
    [ (1%positive, SequenceNode_createEmpty "sequence"%string);
      (2%positive, CodeNode_ctor example_code_vertex (Some 3%positive));
      (3%positive, CodeNode_ctor example_code_vertex (Some 2%positive)) ].

Definition example_i32 : TypeShrinking.Value.t :=
  TypeShrinking.Value.mk (TypeShrinking.IntegerTy 32) None.

(** The constant [0xff] of type [i32]. *)
Definition example_mask : TypeShrinking.Value.t :=
  TypeShrinking.Value.mk (TypeShrinking.IntegerTy 32)
    (Some (TypeShrinking.APInt.mk 32 255)).

(** The constant [8] of type [i32]. *)
Definition example_eight : TypeShrinking.Value.t :=
  TypeShrinking.Value.mk (TypeShrinking.IntegerTy 32)
    (Some (TypeShrinking.APInt.mk 32 8)).

Definition example_and : TypeShrinking.Instruction.t :=
  TypeShrinking.Instruction.mk TypeShrinking.Instruction.And
    (TypeShrinking.IntegerTy 32) [example_i32; example_mask].

Definition example_shl : TypeShrinking.Instruction.t :=
  TypeShrinking.Instruction.mk TypeShrinking.Instruction.Shl
    (TypeShrinking.IntegerTy 32) [example_i32; example_eight].

Definition example_lshr : TypeShrinking.Instruction.t :=
  TypeShrinking.Instruction.mk TypeShrinking.Instruction.LShr
    (TypeShrinking.IntegerTy 32) [example_i32; example_eight].

(** A load: one operand, a pointer. *)
Definition example_load : TypeShrinking.Instruction.t :=
  TypeShrinking.Instruction.mk TypeShrinking.Instruction.OtherOpcode
    (TypeShrinking.IntegerTy 32)
    [TypeShrinking.Value.mk TypeShrinking.OtherTy None].

(** Two trees of the same shape at different addresses, with different IDs
    and names, and a third one whose [Else] branch is of another kind. *)
Definition example_twin_heap : Heap :=
  list_to_map
    [ (1%positive, mkASTNode 3 None "if"%string None 1
                     (AsIf (IfNode.mk (Some 2%positive) (Some 3%positive)
                              (Some 1%positive) false)));
      (2%positive, mkASTNode 0 (Some 5%positive) "then"%string None 2
                     (AsCode (CodeNode.mk false)));
      (3%positive, mkASTNode 1 None "else"%string None 3
                     (AsBreak (BreakNode.mk false)));
      (11%positive, mkASTNode 3 None "twin if"%string None 11
                      (AsIf (IfNode.mk (Some 12%positive) (Some 13%positive)
                               (Some 1%positive) false)));
      (12%positive, mkASTNode 0 (Some 6%positive) "twin then"%string None 12
                      (AsCode (CodeNode.mk true)));
      (13%positive, mkASTNode 1 None "twin else"%string None 13
                      (AsBreak (BreakNode.mk true)));
      (21%positive, mkASTNode 3 None "if"%string None 1
                      (AsIf (IfNode.mk (Some 2%positive) (Some 12%positive)
                               (Some 1%positive) false))) ].

(** * Properties *)

(** * The hybrid successor link *)

(** C10: [consumeSuccessor] returns what [getSuccessor] returned before the
    call, afterwards [getSuccessor] returns [nullptr], and the kind, the ID,
    the name, the origin basic block and the fields of the class are those
    of before the call. *)
Theorem consumeSuccessor_frame (n : ASTNode) :
  fst (consumeSuccessor n) = getSuccessor n
  ∧ getSuccessor (snd (consumeSuccessor n)) = None
  ∧ getKind (snd (consumeSuccessor n)) = getKind n
  ∧ getID (snd (consumeSuccessor n)) = getID n
  ∧ Name (snd (consumeSuccessor n)) = Name n
  ∧ getBB (snd (consumeSuccessor n)) = getBB n
  ∧ derived (snd (consumeSuccessor n)) = derived n.
Proof. by destruct n. Qed.

(** * Loops and their related condition *)

Lemma setWhile_needs_WhileTrue this c :
  ScsNode.LoopType this ≠ ScsNode.WhileTrue →
  ScsNode.setWhile c this = Abort "assertion failed"%string
  ∧ ScsNode.setDoWhile c this = Abort "assertion failed"%string.
Proof.
  intros Hne. unfold ScsNode.setWhile, ScsNode.setDoWhile.
  by rewrite bool_decide_eq_false_2.
Qed.

Lemma getRelatedCondition_fails this :
  ScsNode.LoopType this = ScsNode.WhileTrue ∨ ScsNode.RelatedCondition this = None →
  ScsNode.getRelatedCondition this = Abort "assertion failed"%string.
Proof.
  unfold ScsNode.getRelatedCondition. intros [H | H]; rewrite H.
  - done.
  - by destruct (ScsNode.LoopType this).
Qed.

Lemma getRelatedCondition_returns this :
  ScsNode.LoopType this ≠ ScsNode.WhileTrue →
  ScsNode.RelatedCondition this ≠ None →
  ScsNode.getRelatedCondition this = Ok (ScsNode.RelatedCondition this).
Proof.
  unfold ScsNode.getRelatedCondition. intros Ht Hc.
  destruct (ScsNode.LoopType this); [done | |];
    by destruct (ScsNode.RelatedCondition this).
Qed.

Lemma ScsNode_built_holds_condition this :
  ScsNode_built this → holds_related_condition this.
Proof.
  induction 1 as [Body | this Node _ IH | this c this' _ _ Hset | this c this' _ _ Hset];
    unfold holds_related_condition in *.
  - done.
  - done.
  - unfold ScsNode.setWhile in Hset.
    destruct (bool_decide (ScsNode.LoopType this = ScsNode.WhileTrue)); [|done].
    simpl in Hset. by injection Hset as <-.
  - unfold ScsNode.setDoWhile in Hset.
    destruct (bool_decide (ScsNode.LoopType this = ScsNode.WhileTrue)); [|done].
    simpl in Hset. by injection Hset as <-.
Qed.

(** C7, amended: [setWhile] and [setDoWhile] fail their assertion on a loop
    that is not [WhileTrue]; on a [WhileTrue] loop they return whatever the
    condition they are given, [nullptr] included, and leave a [While],
    respectively [DoWhile], loop with the same body that holds that
    condition.  When the condition is not [nullptr], the loop holds a
    related condition and [getRelatedCondition] returns it; when it is
    [nullptr], [getRelatedCondition] fails its assertion.
    [getRelatedCondition] fails an assertion on a [WhileTrue] loop and on a
    loop whose related condition is [nullptr], and returns the condition of
    every other loop.  So a loop built through the interface with
    conditions that are not null holds a related condition as soon as it is
    not [WhileTrue]. *)
Theorem ScsNode_related_condition
    (this : ScsNode.t) (Condition : option ptr) :
  (ScsNode.LoopType this ≠ ScsNode.WhileTrue →
   ScsNode.setWhile Condition this = Abort "assertion failed"%string
   ∧ ScsNode.setDoWhile Condition this = Abort "assertion failed"%string)
  ∧ (ScsNode.LoopType this = ScsNode.WhileTrue →
     ∃ w d,
       ScsNode.setWhile Condition this = Ok w
       ∧ ScsNode.setDoWhile Condition this = Ok d
       ∧ ScsNode.LoopType w = ScsNode.While
       ∧ ScsNode.LoopType d = ScsNode.DoWhile
       ∧ ScsNode.isWhile w = true ∧ ScsNode.isDoWhile d = true
       ∧ ScsNode.getBody w = ScsNode.getBody this
       ∧ ScsNode.getBody d = ScsNode.getBody this
       ∧ ScsNode.RelatedCondition w = Condition
       ∧ ScsNode.RelatedCondition d = Condition
       ∧ (∀ c, Condition = Some c →
            holds_related_condition w ∧ holds_related_condition d
            ∧ ScsNode.getRelatedCondition w = Ok (Some c)
            ∧ ScsNode.getRelatedCondition d = Ok (Some c))
       ∧ (Condition = None →
            ¬ holds_related_condition w ∧ ¬ holds_related_condition d
            ∧ ScsNode.getRelatedCondition w = Abort "assertion failed"%string
            ∧ ScsNode.getRelatedCondition d = Abort "assertion failed"%string))
  ∧ (ScsNode.LoopType this = ScsNode.WhileTrue
     ∨ ScsNode.RelatedCondition this = None →
     ScsNode.getRelatedCondition this = Abort "assertion failed"%string)
  ∧ (ScsNode.LoopType this ≠ ScsNode.WhileTrue →
     holds_related_condition this →
     ScsNode.getRelatedCondition this = Ok (ScsNode.RelatedCondition this)
     ∧ ScsNode.RelatedCondition this ≠ None)
  ∧ (ScsNode_built this → holds_related_condition this).
Proof.
  split; [apply setWhile_needs_WhileTrue |].
  split.
  { intros Ht. unfold ScsNode.setWhile, ScsNode.setDoWhile. rewrite Ht.
    simpl. do 2 eexists. do 10 (split; [reflexivity|]). split.
    - intros c ->. unfold holds_related_condition. by repeat split.
    - intros ->. unfold holds_related_condition. simpl.
      repeat split; try done; intros H; by apply H. }
  split; [apply getRelatedCondition_fails |].
  split; [|apply ScsNode_built_holds_condition].
  intros Ht Hc. split; [|by apply Hc].
  apply getRelatedCondition_returns; [done | by apply Hc].
Qed.

Lemma ScsNode_related_condition_witness :
  (∃ w d,
     ScsNode.setWhile (Some 7%positive) example_scs = Ok w
     ∧ ScsNode.setDoWhile (Some 7%positive) example_scs = Ok d
     ∧ ScsNode.isWhile w = true ∧ ScsNode.isDoWhile d = true
     ∧ ScsNode.getBody w = ScsNode.getBody example_scs
     ∧ ScsNode.getBody d = ScsNode.getBody example_scs
     ∧ ScsNode.getRelatedCondition w = Ok (Some 7%positive)
     ∧ ScsNode.getRelatedCondition d = Ok (Some 7%positive))
  ∧ (∃ w, ScsNode.setWhile None example_scs = Ok w
          ∧ ScsNode.isWhile w = true
          ∧ ScsNode.getRelatedCondition w = Abort "assertion failed"%string)
  ∧ ScsNode.getRelatedCondition example_scs = Abort "assertion failed"%string
  ∧ ScsNode.setWhile (Some 7%positive) example_do_while
    = Abort "assertion failed"%string
  ∧ ScsNode.getRelatedCondition example_do_while = Ok (Some 3%positive)
  ∧ holds_related_condition example_do_while.
Proof.
  pose proof (ScsNode_related_condition example_scs (Some 7%positive))
    as (_ & Hset & Hfail & _).
  pose proof (ScsNode_related_condition example_scs None)
    as (_ & Hnull & _).
  pose proof (ScsNode_related_condition example_do_while (Some 7%positive))
    as (Hrefuse & _ & _ & Hget & Hbuilt).
  assert (Hdw : ScsNode_built example_do_while).
  { apply (built_setDoWhile (ScsNode.ctor None) 3); [constructor | reflexivity]. }
  split.
  { destruct (Hset eq_refl)
      as (w & d & Hw & Hd & _ & _ & Hiw & Hid & Hbw & Hbd & _ & _ & Hsome & _).
    destruct (Hsome 7%positive eq_refl) as (_ & _ & Hgw & Hgd).
    exists w, d. by repeat split. }
  split.
  { destruct (Hnull eq_refl)
      as (w & d & Hw & _ & _ & _ & Hiw & _ & _ & _ & _ & _ & _ & Hnone).
    destruct (Hnone eq_refl) as (_ & _ & Hgw & _).
    exists w. by repeat split. }
  split; [apply Hfail; left; reflexivity|].
  split; [apply Hrefuse; discriminate|].
  split; [apply Hget; [discriminate | by apply Hbuilt]|].
  by apply Hbuilt.
Defined.

(** C7 as stated fails when the condition is [nullptr], which the setters
    accept: [setWhile(nullptr)] on a [WhileTrue] loop returns, the loop it
    leaves is a [While] loop without related condition, and
    [getRelatedCondition] fails its assertion on it. *)
Lemma setWhile_null_condition :
  ScsNode.isWhileTrue example_scs = true
  ∧ ScsNode.setWhile None example_scs
    = Ok (ScsNode.mk (Some 2%positive) ScsNode.While None)
  ∧ ScsNode.isWhile (ScsNode.mk (Some 2%positive) ScsNode.While None) = true
  ∧ ScsNode.RelatedCondition (ScsNode.mk (Some 2%positive) ScsNode.While None)
    = None
  ∧ ScsNode.getRelatedCondition
      (ScsNode.mk (Some 2%positive) ScsNode.While None)
    = Abort "assertion failed"%string.
Proof. by repeat split. Qed.

(** * Unexpected kinds *)

(** C8: constructing a [SetNode] from a CFG vertex whose dispatcher type is
    neither [EntrySet] nor [ExitSet] aborts, and [updateASTNodesPointers] on
    an object whose kind is none of the enumerators aborts; an aborted call
    yields no object at all. *)
Theorem unexpected_kind_aborts
    (CFGNode : BasicBlockNode.t) (PostDom : option ptr)
    (SubstitutionMap : ASTNodeMap) (this : ASTNode) :
  (BasicBlockNode.getDispatcherType CFGNode ≠ BasicBlockNode.EntrySet →
   BasicBlockNode.getDispatcherType CFGNode ≠ BasicBlockNode.ExitSet →
   SetNode_ctor CFGNode PostDom = Abort "Unexpected DispatcherKind"%string)
  ∧ (NodeKind_of_value (getKind this) = None →
     isOk (updateASTNodesPointers SubstitutionMap this) = false
     ∧ ∀ Successor',
         redirect SubstitutionMap (getSuccessor this) = Ok Successor' →
         updateASTNodesPointers SubstitutionMap this
         = Abort "AST node type not expected"%string).
Proof.
  split.
  - intros He Hx. unfold SetNode_ctor.
    by destruct (BasicBlockNode.getDispatcherType CFGNode).
  - intros Hk. unfold updateASTNodesPointers.
    destruct (redirect SubstitutionMap (Successor this)) as [S'|e] eqn:Hr.
    + simpl. unfold getKind in *. simpl. rewrite Hk. split; [done|].
      intros ? _. done.
    + simpl. split; [done|]. unfold getSuccessor. rewrite Hr. intros; discriminate.
Qed.

Lemma unexpected_kind_aborts_witness :
  SetNode_ctor example_code_vertex None = Abort "Unexpected DispatcherKind"%string
  ∧ updateASTNodesPointers ∅ example_unknown_kind
    = Abort "AST node type not expected"%string.
Proof.
  split.
  - apply (unexpected_kind_aborts example_code_vertex None ∅ example_unknown_kind);
      simpl; discriminate.
  - eapply (unexpected_kind_aborts example_code_vertex None ∅ example_unknown_kind);
      reflexivity.
Defined.

(** * The default case of a switch *)

Section SwitchDefault.

Import SwitchNode.

Lemma filter_default_nil (v : list (gset N * option ptr)) :
  List.filter is_default v = [] ↔ ∀ c, c ∈ v → fst c ≠ ∅.
Proof.
  induction v as [|c v IH]; simpl.
  - split; [|done]. intros _ c Hc. by apply elem_of_nil in Hc.
  - unfold is_default at 1, empty_labels. case_bool_decide as Hc.
    + split; [done|]. intros H. exfalso. apply (H c); [left | done].
    + rewrite IH. split.
      * intros H c' [->|Hin]%elem_of_cons; [done | by apply H].
      * intros H c' Hin. apply H. by right.
Qed.

Lemma getDefault_loop_none v D :
  List.filter is_default v = [] → getDefault_loop v D = Ok D.
Proof.
  induction v as [|[L S] v IH]; simpl; [done|].
  unfold is_default; simpl. destruct (empty_labels L); [done | apply IH].
Qed.

Lemma removeDefault_loop_none v Index this :
  List.filter is_default v = [] → removeDefault_loop v Index this = Ok this.
Proof.
  revert Index. induction v as [|[L S] v IH]; simpl; intros Index; [done|].
  unfold is_default; simpl. destruct (empty_labels L); [done | apply IH].
Qed.

Lemma getDefault_loop_middle v1 child v2 :
  List.filter is_default v1 = [] → List.filter is_default v2 = [] →
  getDefault_loop (v1 ++ (∅, child) :: v2) None = Ok child.
Proof.
  intros H1 H2. induction v1 as [|[L S] v1 IH]; simpl.
  - by apply getDefault_loop_none.
  - simpl in H1. unfold is_default in H1; simpl in H1.
    destruct (empty_labels L); [done | by apply IH].
Qed.

Lemma removeDefault_loop_middle v1 child v2 Index this :
  List.filter is_default v1 = [] →
  removeDefault_loop (v1 ++ (∅, child) :: v2) Index this
  = removeCaseN (Index + List.length v1) this.
Proof.
  revert Index. induction v1 as [|[L S] v1 IH]; simpl; intros Index H1.
  - by rewrite Nat.add_0_r.
  - unfold is_default in H1; simpl in H1.
    destruct (empty_labels L); [done|].
    rewrite IH by done. f_equal. lia.
Qed.

(** Around the default case of a switch that has at most one, no case is a
    default case. *)
Lemma at_most_one_default_split this i child :
  at_most_one_default this →
  LabelCaseVec this !! i = Some (∅, child) →
  LabelCaseVec this
  = take i (LabelCaseVec this) ++ (∅, child) :: drop (S i) (LabelCaseVec this)
  ∧ List.filter is_default (take i (LabelCaseVec this)) = []
  ∧ List.filter is_default (drop (S i) (LabelCaseVec this)) = []
  ∧ List.length (take i (LabelCaseVec this)) = i.
Proof.
  unfold at_most_one_default. intros Hone Hi.
  pose proof (take_drop_middle _ _ _ Hi) as Hsplit.
  assert (Hlen : List.length
            (List.filter is_default
               (take i (LabelCaseVec this) ++ (∅, child) :: drop (S i) (LabelCaseVec this)))
          ≤ 1) by (by rewrite Hsplit).
  assert (Hd : is_default (∅, child) = true)
    by (unfold is_default, empty_labels; by apply bool_decide_eq_true_2).
  rewrite List.filter_app, List.length_app in Hlen.
  cbn [List.filter] in Hlen. rewrite Hd in Hlen. cbn [List.length] in Hlen.
  split; [done|].
  split; [|split].
  - destruct (List.filter is_default (take i (LabelCaseVec this)));
      [done | simpl in Hlen; lia].
  - destruct (List.filter is_default (drop (S i) (LabelCaseVec this)));
      [done | simpl in Hlen; lia].
  - apply length_take_le. apply lookup_lt_Some in Hi. lia.
Qed.

End SwitchDefault.

(** The assertion of [getDefault] is where the invariant is checked: on a
    switch whose default cases have a child, [getDefault] only returns when
    there is at most one of them. *)
Lemma getDefault_loop_checks v : ∀ D d,
  (∀ c, c ∈ v → is_default c = true → snd c ≠ None) →
  SwitchNode.getDefault_loop v D = Ok d →
  List.length (List.filter is_default v)
  ≤ match D with Some _ => 0 | None => 1 end.
Proof.
  induction v as [|[L S] v IH]; intros D d Hchild Hrun; simpl in *.
  - destruct D; lia.
  - unfold is_default at 1. simpl.
    destruct (SwitchNode.empty_labels L) eqn:HL.
    + destruct D; [done|]. simpl in Hrun.
      assert (HS : S ≠ None).
      { apply (Hchild (L, S)); [left | by unfold is_default]. }
      destruct S as [S|]; [|done].
      specialize (IH (Some S) d). simpl in *.
      rewrite Nat.le_0_r in IH. rewrite IH; [lia | | done].
      intros c Hc. apply Hchild. by right.
    + apply (IH D d); [|done]. intros c Hc. apply Hchild. by right.
Qed.

Lemma getDefault_checks_invariant this d :
  (∀ c, c ∈ SwitchNode.LabelCaseVec this → is_default c = true → snd c ≠ None) →
  SwitchNode.getDefault this = Ok d → at_most_one_default this.
Proof. intros Hchild Hrun. exact (getDefault_loop_checks _ None d Hchild Hrun). Qed.

(** C4, amended: in a switch with at most one case without labels,
    [getDefault] returns the child of that case when there is one and
    [nullptr] otherwise, and its assertion does not fire; [removeDefault]
    removes that case and nothing else; [hasDefault] returns true when
    there is such a case and its child is not [nullptr], and false when
    there is no such case. *)
Theorem SwitchNode_default (this : SwitchNode.t) :
  at_most_one_default this →
  (∀ i child,
     SwitchNode.LabelCaseVec this !! i = Some (∅, child) →
     SwitchNode.getDefault this = Ok child
     ∧ (child ≠ None → SwitchNode.hasDefault this = Ok true)
     ∧ SwitchNode.removeDefault this
       = Ok (SwitchNode.set_LabelCaseVec (delete i (SwitchNode.LabelCaseVec this)) this))
  ∧ ((∀ c, c ∈ SwitchNode.LabelCaseVec this → fst c ≠ ∅) →
     SwitchNode.getDefault this = Ok None
     ∧ SwitchNode.hasDefault this = Ok false
     ∧ SwitchNode.removeDefault this = Ok this).
Proof.
  intros Hone. split.
  - intros i child Hi.
    destruct (at_most_one_default_split this i child Hone Hi)
      as (Hsplit & H1 & H2 & Hlen).
    assert (Hget : SwitchNode.getDefault this = Ok child).
    { unfold SwitchNode.getDefault. rewrite Hsplit.
      by apply getDefault_loop_middle. }
    split; [done|]. split.
    + intros Hchild. unfold SwitchNode.hasDefault. rewrite Hget.
      by destruct child.
    + unfold SwitchNode.removeDefault. rewrite Hsplit at 1.
      rewrite removeDefault_loop_middle by done. simpl. rewrite Hlen.
      unfold SwitchNode.removeCaseN.
      rewrite bool_decide_eq_true_2 by (by eapply lookup_lt_Some).
      simpl. by rewrite delete_take_drop.
  - intros Hnone. apply filter_default_nil in Hnone.
    assert (Hget : SwitchNode.getDefault this = Ok None)
      by (by apply getDefault_loop_none).
    split; [done|]. split.
    + unfold SwitchNode.hasDefault. by rewrite Hget.
    + by apply removeDefault_loop_none.
Qed.

Lemma SwitchNode_default_witness :
  (SwitchNode.getDefault example_switch = Ok (Some 11%positive)
   ∧ SwitchNode.hasDefault example_switch = Ok true
   ∧ SwitchNode.removeDefault example_switch
     = Ok (SwitchNode.set_LabelCaseVec
             [({[ 3%N ]}, Some 10%positive); ({[ 4%N; 5%N ]}, Some 12%positive)]
             example_switch))
  ∧ (SwitchNode.getDefault example_switch_no_default = Ok None
     ∧ SwitchNode.hasDefault example_switch_no_default = Ok false
     ∧ SwitchNode.removeDefault example_switch_no_default
       = Ok example_switch_no_default).
Proof.
  split.
  - destruct (SwitchNode_default example_switch) as [Hdefault _];
      [vm_compute; lia |].
    destruct (Hdefault 1%nat (Some 11%positive) eq_refl) as (Hget & Hhas & Hrem).
    split; [exact Hget|]. split; [by apply Hhas | exact Hrem].
  - destruct (SwitchNode_default example_switch_no_default) as [_ Hnone];
      [vm_compute; lia |].
    apply Hnone. intros c Hc.
    apply elem_of_cons in Hc as [-> | Hc]; [done|].
    apply elem_of_cons in Hc as [-> | Hc]; [done|].
    by apply elem_of_nil in Hc.
Defined.

(** C4 as stated fails: not every switch has at most one case without
    labels.  The constructor takes the vector of cases as it is given and
    [cases()] hands it out for writing, so that a switch with two such
    cases is an object of the class; [removeDefault] returns on it, leaving
    the second default case, and [getDefault] returns on a switch with two
    such cases when the child of the first is [nullptr]. *)
Lemma SwitchNode_two_defaults :
  ¬ at_most_one_default example_switch_two_defaults
  ∧ SwitchNode.removeDefault example_switch_two_defaults
    = Ok (SwitchNode.set_LabelCaseVec
            [({[ 1%N ]}, Some 11%positive); (∅, Some 12%positive)]
            example_switch_two_defaults)
  ∧ ¬ at_most_one_default example_switch_null_then_default
  ∧ SwitchNode.getDefault example_switch_null_then_default
    = Ok (Some 12%positive).
Proof.
  split; [vm_compute; lia|]. split; [reflexivity|].
  split; [vm_compute; lia | reflexivity].
Qed.

(** [hasDefault] is [nullptr != getDefault()]: it takes a default case
    whose child is [nullptr] for no default case, while [getDefault] and
    [removeDefault] go by the label set.  On a switch whose only case is
    such a case, [hasDefault] returns false and [removeDefault] removes the
    case. *)
Lemma hasDefault_null_child :
  at_most_one_default example_switch_null_default
  ∧ (∃ c, c ∈ SwitchNode.LabelCaseVec example_switch_null_default ∧ fst c = ∅)
  ∧ SwitchNode.getDefault example_switch_null_default = Ok None
  ∧ SwitchNode.hasDefault example_switch_null_default = Ok false.
Proof.
  split; [vm_compute; lia|]. split; [|done].
  exists (∅, None). split; [left | done].
Qed.

(** * Substitution maps *)

Lemma redirect_in_domain (M : ASTNodeMap) (P : option ptr) :
  (∀ p, P = Some p → is_Some (M !! p)) →
  redirect M P = Ok (substituted M P).
Proof.
  destruct P as [p|]; simpl; [|done].
  intros H. destruct (H p eq_refl) as [Q HQ].
  unfold map_at. by rewrite HQ.
Qed.

Lemma redirect_all_in_domain (M : ASTNodeMap) (l : list (option ptr)) :
  (∀ p, Some p ∈ l → is_Some (M !! p)) →
  redirect_all M l = Ok (substituted M <$> l).
Proof.
  induction l as [|P l IH]; simpl; intros H; [done|].
  rewrite redirect_in_domain.
  2:{ intros p ->. apply H. left. }
  simpl. rewrite IH; [done|].
  intros p Hp. apply H. by right.
Qed.

Lemma zip_fst_snd_fmap {A B} (f : B → B) (l : list (A * B)) :
  snd <$> zip (fst <$> l) (f <$> (snd <$> l)) = f <$> (snd <$> l)
  ∧ fst <$> zip (fst <$> l) (f <$> (snd <$> l)) = fst <$> l.
Proof.
  induction l as [|[a b] l [IH1 IH2]]; [done|].
  split; csimpl; by f_equal.
Qed.

(** C3, amended: when the domain of the map contains every AST-node
    reference the node holds (its hybrid successor, [Then] and [Else], [Body],
    the children of a sequence, the children of the cases,
    [ParentSwitch]), and the node is not a [ContinueNode] holding a
    computation, [updateASTNodesPointers] returns, and afterwards each
    reference is what the map makes of the reference it replaces, the other
    fields being left alone; a null reference stays null.  When no value
    of the map is one of its keys, no reference of the node is a key of the
    map afterwards. *)
Theorem updateASTNodesPointers_redirects (M : ASTNodeMap) (this : ASTNode) :
  WellTyped this →
  (∀ p, Some p ∈ references this → is_Some (M !! p)) →
  (∀ o, derived this = AsContinue o → ContinueNode.hasComputation o = false) →
  ∃ this',
    updateASTNodesPointers M this = Ok this'
    ∧ references this' = substituted M <$> references this
    ∧ getKind this' = getKind this
    ∧ getID this' = getID this
    ∧ Name this' = Name this
    ∧ getBB this' = getBB this
    ∧ attributes (derived this') = attributes (derived this)
    ∧ ((∀ p q, M !! p = Some (Some q) → M !! q = None) →
       ∀ q, Some q ∈ references this' → M !! q = None).
Proof.
  intros Hwt Hdom Hcont.
  enough (∃ this',
    updateASTNodesPointers M this = Ok this'
    ∧ references this' = substituted M <$> references this
    ∧ getKind this' = getKind this
    ∧ getID this' = getID this
    ∧ Name this' = Name this
    ∧ getBB this' = getBB this
    ∧ attributes (derived this') = attributes (derived this))
    as (this' & Hrun & Hrefs & Hrest).
  { exists this'. repeat (split; [tauto|]).
    rewrite Hrefs. intros Hdisj q Hq.
    apply list_elem_of_fmap in Hq as ([p|] & Hq & Hin); [|done].
    simpl in Hq. destruct (M !! p) as [[q'|]|] eqn:Hp; simpl in Hq; try done.
    injection Hq as ->. by eapply Hdisj. }
  destruct this as [K bb nm S id d]. unfold WellTyped in Hwt. simpl in Hwt.
  subst K. unfold updateASTNodesPointers. cbn [Successor].
  rewrite redirect_in_domain by (intros p ->; apply Hdom; left).
  assert (Hcls : ∀ p, Some p ∈ class_references d → is_Some (M !! p))
    by (intros p Hp; apply Hdom; by right).
  unfold references. cbn [Successor derived].
  destruct d as [o|o|o|o|o|o|o|o|o].
  - by eexists.
  - by eexists.
  - simpl. rewrite (Hcont o eq_refl). by eexists.
  - simpl. unfold IfNode_updateASTNodesPointers.
    rewrite !redirect_in_domain
      by (intros p Hp; apply Hcls; rewrite <- Hp; simpl; set_solver).
    by eexists.
  - simpl. unfold ScsNode_updateASTNodesPointers.
    rewrite !redirect_in_domain
      by (intros p Hp; apply Hcls; rewrite <- Hp; simpl; set_solver).
    by eexists.
  - simpl. unfold SequenceNode_updateASTNodesPointers.
    rewrite redirect_all_in_domain by done.
    by eexists.
  - simpl. unfold SwitchNode_updateASTNodesPointers.
    rewrite redirect_all_in_domain by done.
    destruct (zip_fst_snd_fmap (substituted M) (SwitchNode.LabelCaseVec o))
      as [Hsnd Hfst].
    eexists; split; [reflexivity|]. cbn.
    change (list_fmap _ _ ?f ?l) with (f <$> l).
    rewrite Hsnd, Hfst. done.
  - simpl. unfold SwitchBreakNode_updateASTNodesPointers.
    rewrite !redirect_in_domain
      by (intros p Hp; apply Hcls; rewrite <- Hp; simpl; set_solver).
    by eexists.
  - by eexists.
Qed.

Lemma updateASTNodesPointers_redirects_witness :
  ∃ this',
    updateASTNodesPointers example_clone_map example_if = Ok this'
    ∧ references this' = substituted example_clone_map <$> references example_if
    ∧ getKind this' = getKind example_if
    ∧ getID this' = getID example_if
    ∧ Name this' = Name example_if
    ∧ getBB this' = getBB example_if
    ∧ attributes (derived this') = attributes (derived example_if)
    ∧ ((∀ p q, example_clone_map !! p = Some (Some q) → example_clone_map !! q = None) →
       ∀ q, Some q ∈ references this' → example_clone_map !! q = None).
Proof.
  apply (updateASTNodesPointers_redirects example_clone_map example_if).
  - reflexivity.
  - intros p Hp. unfold references in Hp. simpl in Hp.
    repeat (apply elem_of_cons in Hp as [Hp | Hp];
            [simplify_eq; vm_compute; eauto | ]).
    by apply elem_of_nil in Hp.
  - discriminate.
Defined.

(** C3 as stated fails in two ways.  With the map [1 ↦ 2, 2 ↦ 3], whose
    domain contains the only reference of the node, the successor [1]
    becomes [2], which is a key of the map.  And on a [ContinueNode] that
    holds a computation the call fails its assertion, whatever the map. *)
Lemma updateASTNodesPointers_key_remains :
  ((∀ p, Some p ∈ references example_code_with_successor →
         is_Some (example_chained_map !! p))
   ∧ ∃ this',
       updateASTNodesPointers example_chained_map example_code_with_successor
       = Ok this'
       ∧ Some 2%positive ∈ references this'
       ∧ example_chained_map !! 2%positive = Some (Some 3%positive))
  ∧ ((∀ p, Some p ∈ references example_continue_with_computation →
           is_Some ((∅ : ASTNodeMap) !! p))
     ∧ updateASTNodesPointers ∅ example_continue_with_computation
       = Abort "assertion failed"%string).
Proof.
  split; split.
  - intros p Hp. unfold references in Hp; simpl in Hp.
    apply elem_of_cons in Hp as [Hp | Hp]; [simplify_eq; vm_compute; eauto|].
    by apply elem_of_nil in Hp.
  - eexists. split; [vm_compute; reflexivity|]. split; [left | reflexivity].
  - intros p Hp. unfold references in Hp; simpl in Hp.
    apply elem_of_cons in Hp as [Hp | Hp]; [done|].
    by apply elem_of_nil in Hp.
  - reflexivity.
Qed.

(** * Structural equality *)

Lemma NodeKind_of_value_value K : NodeKind_of_value (NodeKind_value K) = Some K.
Proof. by destruct K. Qed.

Lemma NodeKind_value_inj K1 K2 : NodeKind_value K1 = NodeKind_value K2 → K1 = K2.
Proof. by destruct K1, K2. Qed.

Lemma cast_WellTyped n : WellTyped n → cast (classOf (derived n)) n = Ok tt.
Proof. intros _. unfold cast. by rewrite bool_decide_eq_true_2. Qed.

Lemma dyn_cast_or_null_same h K b nb :
  h !! b = Some nb → Kind nb = NodeKind_value K →
  dyn_cast_or_null K h (Some b) = Ok (Some nb).
Proof.
  intros Hb Hk. unfold dyn_cast_or_null, deref, getKind. rewrite Hb. simpl.
  by rewrite Hk, Z.eqb_refl.
Qed.

Lemma dyn_cast_or_null_other h K b nb :
  h !! b = Some nb → Kind nb ≠ NodeKind_value K →
  dyn_cast_or_null K h (Some b) = Ok None.
Proof.
  intros Hb Hk. unfold dyn_cast_or_null, deref, getKind. rewrite Hb. simpl.
  by apply Z.eqb_neq in Hk as ->.
Qed.

Lemma isEqual_unfold fuel h a n Node :
  h !! a = Some n → WellTyped n →
  isEqual (S fuel) h a Node = isEqual_step fuel h n Node.
Proof.
  intros Ha Hwt. simpl. unfold deref. rewrite Ha. simpl.
  unfold getKind. rewrite Hwt, NodeKind_of_value_value. unfold isEqual_step.
  by destruct (classOf (derived n)).
Qed.

Lemma childrenAreEqual_same rec (l : list (option ptr)) :
  (∀ c, Some c ∈ l → rec c (Some c) = Some (Ok true)) →
  childrenAreEqual rec l l = Some (Ok true).
Proof.
  induction l as [|[c|] l IH]; simpl; intros H; [done| |].
  - rewrite H by left. apply IH. intros c' Hc'. apply H. by right.
  - apply IH. intros c' Hc'. apply H. by right.
Qed.

Lemma finite_tree_children d h p n c :
  finite_tree (S d) h p = true → h !! p = Some n →
  Some c ∈ tree_children (derived n) → finite_tree d h c = true.
Proof.
  simpl. intros Ht Hp Hc. rewrite Hp in Ht.
  apply andb_prop in Ht as [_ Ht].
  rewrite forallb_forall in Ht. apply list_elem_of_In in Hc.
  exact (Ht _ Hc).
Qed.

Lemma finite_tree_WellTyped d h p n :
  finite_tree d h p = true → h !! p = Some n → WellTyped n.
Proof.
  destruct d; simpl; [done|]. intros Ht Hp. rewrite Hp in Ht.
  apply andb_prop in Ht as [Ht _]. by apply bool_decide_eq_true_1 in Ht.
Qed.

Lemma finite_tree_live d h p : finite_tree d h p = true → is_Some (h !! p).
Proof. destruct d; simpl; [done|]. by destruct (h !! p). Qed.

(** Two nodes with the same kind and the same fields of their class are
    equal, whatever their IDs and names. *)
Lemma isEqual_same_fields d : ∀ fuel h a b na nb,
  d ≤ fuel → finite_tree d h a = true →
  h !! a = Some na → h !! b = Some nb →
  Kind nb = Kind na → derived nb = derived na →
  isEqual fuel h a (Some b) = Some (Ok true).
Proof.
  induction d as [|d IH]; intros fuel h a b na nb Hfuel Ht Ha Hb Hk Hd; [done|].
  destruct fuel as [|fuel]; [lia|].
  pose proof (finite_tree_WellTyped _ _ _ _ Ht Ha) as Hwt.
  rewrite (isEqual_unfold _ _ _ _ _ Ha Hwt).
  assert (Hkb : Kind nb = NodeKind_value (classOf (derived na)))
    by (by rewrite Hk).
  assert (Hchildren :
    childrenAreEqual (isEqual fuel h) (tree_children (derived na))
      (tree_children (derived na)) = Some (Ok true)).
  { apply childrenAreEqual_same. intros c Hc.
    pose proof (finite_tree_children _ _ _ _ _ Ht Ha Hc) as Htc.
    destruct (finite_tree_live _ _ _ Htc) as [nc Hnc].
    apply (IH fuel h c c nc nc); [lia | done..]. }
  assert (Hmodelled :
    nodeIsEqual h (isEqual fuel h) (classOf (derived na)) na (Some b)
    = Some (Ok true)).
  { unfold nodeIsEqual. rewrite (cast_WellTyped _ Hwt). cbn [and_then].
    rewrite (dyn_cast_or_null_same _ _ _ _ Hb Hkb). cbn [and_then].
    unfold cast. rewrite Hd, bool_decide_eq_true_2 by done. cbn [and_then].
    rewrite !bool_decide_eq_true_2 by done. done. }
  unfold isEqual_step.
  unfold BreakNode_nodeIsEqual, ContinueNode_nodeIsEqual,
    SwitchBreakNode_nodeIsEqual.
  destruct (classOf (derived na)) eqn:HK; try exact Hmodelled;
    by rewrite (dyn_cast_or_null_same _ _ _ _ Hb Hkb).
Qed.

(** Nodes of different kinds are not equal. *)
Lemma isEqual_other_kind fuel h a b na nb :
  h !! a = Some na → h !! b = Some nb → WellTyped na →
  Kind na ≠ Kind nb →
  isEqual (S fuel) h a (Some b) = Some (Ok false).
Proof.
  intros Ha Hb Hwt Hk.
  rewrite (isEqual_unfold _ _ _ _ _ Ha Hwt).
  assert (Hkb : Kind nb ≠ NodeKind_value (classOf (derived na)))
    by (by rewrite <- Hwt).
  assert (Hmodelled :
    nodeIsEqual h (isEqual fuel h) (classOf (derived na)) na (Some b)
    = Some (Ok false)).
  { unfold nodeIsEqual. rewrite (cast_WellTyped _ Hwt). cbn [and_then].
    by rewrite (dyn_cast_or_null_other _ _ _ _ Hb Hkb). }
  unfold isEqual_step.
  unfold BreakNode_nodeIsEqual, ContinueNode_nodeIsEqual,
    SwitchBreakNode_nodeIsEqual.
  destruct (classOf (derived na)) eqn:HK; try exact Hmodelled;
    by rewrite (dyn_cast_or_null_other _ _ _ _ Hb Hkb).
Qed.

(** Nodes of the same kind with different attribute fields are not equal. *)
Lemma isEqual_other_attributes fuel h a b na nb :
  h !! a = Some na → h !! b = Some nb → WellTyped na → WellTyped nb →
  Kind na = Kind nb →
  attributes (derived na) ≠ attributes (derived nb) →
  isEqual (S fuel) h a (Some b) = Some (Ok false).
Proof.
  intros Ha Hb Hwa Hwb Hk Hattr.
  rewrite (isEqual_unfold _ _ _ _ _ Ha Hwa).
  assert (HK : classOf (derived nb) = classOf (derived na)).
  { apply NodeKind_value_inj. by rewrite <- Hwa, <- Hwb. }
  assert (Hkb : Kind nb = NodeKind_value (classOf (derived na)))
    by (by rewrite <- Hk).
  assert (Hmodelled :
    nodeIsEqual h (isEqual fuel h) (classOf (derived na)) na (Some b)
    = Some (Ok false)).
  { unfold nodeIsEqual. rewrite (cast_WellTyped _ Hwa). cbn [and_then].
    rewrite (dyn_cast_or_null_same _ _ _ _ Hb Hkb). cbn [and_then].
    rewrite <- HK, (cast_WellTyped _ Hwb). cbn [and_then].
    by rewrite bool_decide_eq_false_2. }
  unfold isEqual_step.
  destruct (derived na) eqn:Hda; try exact Hmodelled;
    destruct (derived nb); by simpl in *.
Qed.

Lemma childrenAreEqual_differ rec (l1 l2 : list (option ptr)) :
  List.length l1 = List.length l2 →
  (∀ i A B, l1 !! i = Some A → l2 !! i = Some B →
            ∃ r, childIsEqual rec A B = Some (Ok r)) →
  (∃ i A B, l1 !! i = Some A ∧ l2 !! i = Some B
            ∧ childIsEqual rec A B = Some (Ok false)) →
  childrenAreEqual rec l1 l2 = Some (Ok false).
Proof.
  revert l2. induction l1 as [|A l1 IH]; intros [|B l2] Hlen Hret Hex;
    simpl in Hlen; try done.
  - by destruct Hex as (i & ? & ? & ? & _).
  - simpl. destruct (Hret 0%nat A B eq_refl eq_refl) as [[] Hr]; rewrite Hr.
    + apply IH; [lia | |].
      * intros i A' B' HA HB. by apply (Hret (S i)).
      * destruct Hex as ([|i] & A' & B' & HA & HB & Hf); simpl in *.
        -- by simplify_eq.
        -- by exists i, A', B'.
    + done.
Qed.

(** Nodes of the same kind and attributes are not equal when they do not
    have the same number of children, or when the comparison of the
    children, which all return, says of a child of the one that it is not
    equal to the child of the other at the same place. *)
Lemma isEqual_other_children fuel h a b na nb :
  h !! a = Some na → h !! b = Some nb → WellTyped na → WellTyped nb →
  Kind na = Kind nb →
  attributes (derived na) = attributes (derived nb) →
  List.length (tree_children (derived na))
    ≠ List.length (tree_children (derived nb))
  ∨ ((∀ i A B, tree_children (derived na) !! i = Some A →
               tree_children (derived nb) !! i = Some B →
               ∃ r, childIsEqual (isEqual fuel h) A B = Some (Ok r))
     ∧ ∃ i A B, tree_children (derived na) !! i = Some A
                ∧ tree_children (derived nb) !! i = Some B
                ∧ childIsEqual (isEqual fuel h) A B = Some (Ok false)) →
  isEqual (S fuel) h a (Some b) = Some (Ok false).
Proof.
  intros Ha Hb Hwa Hwb Hk Hattr Hch.
  rewrite (isEqual_unfold _ _ _ _ _ Ha Hwa).
  assert (HK : classOf (derived nb) = classOf (derived na)).
  { apply NodeKind_value_inj. by rewrite <- Hwa, <- Hwb. }
  assert (Hkb : Kind nb = NodeKind_value (classOf (derived na)))
    by (by rewrite <- Hk).
  assert (Hmodelled :
    nodeIsEqual h (isEqual fuel h) (classOf (derived na)) na (Some b)
    = Some (Ok false)).
  { unfold nodeIsEqual. rewrite (cast_WellTyped _ Hwa). cbn [and_then].
    rewrite (dyn_cast_or_null_same _ _ _ _ Hb Hkb). cbn [and_then].
    rewrite <- HK, (cast_WellTyped _ Hwb). cbn [and_then].
    rewrite bool_decide_eq_true_2 by done.
    destruct Hch as [Hlen | [Hret Hex]].
    - by rewrite bool_decide_eq_false_2.
    - case_bool_decide as Hlen; [|done].
      by apply childrenAreEqual_differ. }
  unfold isEqual_step.
  destruct (derived na) eqn:Hda; try exact Hmodelled;
    destruct (derived nb); simpl in *; try done;
    destruct Hch as [? | [_ (i & ? & ? & ? & _)]]; done.
Qed.

(** The three classes whose [nodeIsEqual] is in the header compare nothing
    but the kind: [BreakFromWithinSwitch], [ComputationIf], [IsImplicit]
    and [ParentSwitch] are not looked at. *)
Lemma isEqual_kind_only fuel (h : Heap) a b na nb K :
  K = NK_Break ∨ K = NK_Continue ∨ K = NK_SwitchBreak →
  h !! a = Some na → h !! b = Some nb →
  Kind na = NodeKind_value K → Kind nb = NodeKind_value K →
  isEqual (S fuel) h a (Some b) = Some (Ok true).
Proof.
  intros HK Ha Hb Hka Hkb. simpl. unfold deref. rewrite Ha. cbn [and_then].
  unfold getKind. rewrite Hka, NodeKind_of_value_value.
  unfold BreakNode_nodeIsEqual, ContinueNode_nodeIsEqual,
    SwitchBreakNode_nodeIsEqual.
  destruct HK as [-> | [-> | ->]];
    by rewrite (dyn_cast_or_null_same _ _ _ _ Hb Hkb).
Qed.

Lemma forget_ID_Name_lookup (h h' : Heap) p :
  forget_ID_Name <$> h = forget_ID_Name <$> h' →
  match h !! p, h' !! p with
  | Some n, Some n' => Kind n = Kind n' ∧ derived n = derived n'
  | None, None => True
  | _, _ => False
  end.
Proof.
  intros H.
  assert (Hp : forget_ID_Name <$> (h !! p) = forget_ID_Name <$> (h' !! p))
    by (by rewrite <- !lookup_fmap, H).
  destruct (h !! p) as [n|], (h' !! p) as [n'|]; try done.
  unfold forget_ID_Name in Hp. by inversion Hp.
Qed.

Lemma childIsEqual_ext rec rec' A B :
  (∀ a b, rec a b = rec' a b) → childIsEqual rec A B = childIsEqual rec' A B.
Proof. intros H. destruct A, B; simpl; by rewrite ?H. Qed.

Lemma childrenAreEqual_ext rec rec' (l1 l2 : list (option ptr)) :
  (∀ a b, rec a b = rec' a b) →
  childrenAreEqual rec l1 l2 = childrenAreEqual rec' l1 l2.
Proof.
  intros H. revert l2. induction l1 as [|A l1 IH]; intros [|B l2]; simpl; try done.
  rewrite (childIsEqual_ext rec rec' A B H).
  destruct (childIsEqual rec' A B) as [[[]|]|]; by rewrite ?IH.
Qed.

Lemma dyn_cast_or_null_forget K (h h' : Heap) Node :
  forget_ID_Name <$> h = forget_ID_Name <$> h' →
  match dyn_cast_or_null K h Node, dyn_cast_or_null K h' Node with
  | Ok (Some m), Ok (Some m') => derived m = derived m'
  | Ok None, Ok None => True
  | Abort d, Abort d' => d = d'
  | _, _ => False
  end.
Proof.
  intros H. destruct Node as [q|]; simpl; [|done].
  pose proof (forget_ID_Name_lookup h h' q H) as Hq. unfold deref.
  destruct (h !! q) as [m|], (h' !! q) as [m'|]; simpl; try done.
  destruct Hq as [Hk Hd]. unfold getKind. rewrite Hk.
  by destruct (Kind m' =? NodeKind_value K)%Z.
Qed.

Lemma nodeIsEqual_forget (h h' : Heap) rec rec' K n n' Node :
  forget_ID_Name <$> h = forget_ID_Name <$> h' →
  (∀ a b, rec a b = rec' a b) →
  derived n = derived n' →
  nodeIsEqual h rec K n Node = nodeIsEqual h' rec' K n' Node.
Proof.
  intros H Hrec Hn. unfold nodeIsEqual, cast. rewrite Hn.
  case_bool_decide; cbn [and_then]; [|done].
  pose proof (dyn_cast_or_null_forget K h h' Node H) as Hcast.
  destruct (dyn_cast_or_null K h Node) as [[m|]|],
           (dyn_cast_or_null K h' Node) as [[m'|]|];
    cbn [and_then]; try done; [|by subst].
  rewrite Hcast.
  case_bool_decide; cbn [and_then]; [|done].
  by rewrite (childrenAreEqual_ext rec rec' _ _ Hrec).
Qed.

Lemma kind_only_forget K (h h' : Heap) Node :
  forget_ID_Name <$> h = forget_ID_Name <$> h' →
  (m ← dyn_cast_or_null K h Node; Ok (nonnull m))
  = (m ← dyn_cast_or_null K h' Node; Ok (nonnull m)).
Proof.
  intros H. pose proof (dyn_cast_or_null_forget K h h' Node H) as Hcast.
  destruct (dyn_cast_or_null K h Node) as [[m|]|],
           (dyn_cast_or_null K h' Node) as [[m'|]|]; simpl; try done.
  by subst.
Qed.

(** The outcome of [isEqual] does not depend on the IDs and names of the
    nodes of the store. *)
Lemma isEqual_forget fuel : ∀ (h h' : Heap) a Node,
  forget_ID_Name <$> h = forget_ID_Name <$> h' →
  isEqual fuel h a Node = isEqual fuel h' a Node.
Proof.
  induction fuel as [|fuel IH]; intros h h' a Node H; [done|].
  simpl. pose proof (forget_ID_Name_lookup h h' a H) as Ha. unfold deref.
  destruct (h !! a) as [n|], (h' !! a) as [n'|]; try done.
  destruct Ha as [Hk Hd]. cbn [and_then]. unfold getKind. rewrite Hk.
  assert (Hrec : ∀ a b, isEqual fuel h a b = isEqual fuel h' a b)
    by (intros; by apply IH).
  unfold BreakNode_nodeIsEqual, ContinueNode_nodeIsEqual,
    SwitchBreakNode_nodeIsEqual.
  destruct (NodeKind_of_value (Kind n')) as [[]|];
    first [ by apply nodeIsEqual_forget
          | by rewrite (kind_only_forget _ h h' Node H)
          | done ].
Qed.

Lemma same_children_childrenAreEqual same rec (l1 : list (option ptr)) :
  (∀ a b r, same a b = Some r → rec a (Some b) = Some (Ok r)) →
  ∀ l2 r, same_children same l1 l2 = Some r →
  (if bool_decide (List.length l1 = List.length l2)
   then childrenAreEqual rec l1 l2 else Some (Ok false)) = Some (Ok r).
Proof.
  intros Hrec. induction l1 as [|A l1 IH]; intros [|B l2] r; simpl.
  - by intros [= <-].
  - by intros [= <-].
  - by intros [= <-].
  - destruct (same_child same A B) as [r1|] eqn:H1; simpl; [|done].
    destruct (same_children same l1 l2) as [rs|] eqn:Hs; simpl; [|done].
    intros [= <-]. specialize (IH l2 rs Hs).
    assert (Hc : childIsEqual rec A B = Some (Ok r1)).
    { destruct A as [a|], B as [b|]; simpl in *; try by simplify_eq.
      by apply Hrec. }
    rewrite Hc.
    case_bool_decide as Hlen; case_bool_decide as Hlen'; simplify_eq; try lia.
    + destruct r1; [done | done].
    + destruct r1; simpl; [by simplify_eq | done].
Qed.

Lemma same_child_childrenAreEqual same rec A B r :
  (∀ a b r, same a b = Some r → rec a (Some b) = Some (Ok r)) →
  same_child same A B = Some r →
  childrenAreEqual rec [A] [B] = Some (Ok r).
Proof.
  intros Hrec H1.
  pose proof (same_children_childrenAreEqual same rec [A] Hrec [B] r) as H.
  simpl in H. rewrite H1 in H. simpl in H. rewrite andb_true_r in H.
  by apply H.
Qed.

(** [isEqual] computes what [same_structure] says. *)
Lemma same_structure_isEqual d (h : Heap) : ∀ a b r,
  same_structure d h a b = Some r → isEqual d h a (Some b) = Some (Ok r).
Proof.
  induction d as [|d IH]; intros a b r; [done|].
  cbn [same_structure].
  destruct (h !! a) as [na|] eqn:Ha; [|done].
  destruct (h !! b) as [nb|] eqn:Hb; [|done].
  case_bool_decide as Hwt; [|done]. destruct Hwt as [Hwa Hwb].
  destruct (decide (Kind na = Kind nb)) as [Hk | Hk].
  2:{ intros Hr.
      rewrite (isEqual_other_kind d h a b na nb Ha Hb Hwa Hk). do 2 f_equal.
      unfold WellTyped in Hwa, Hwb.
      destruct (derived na), (derived nb); simpl in *; try by simplify_eq.
      all: exfalso; apply Hk; congruence. }
  assert (HK : classOf (derived nb) = classOf (derived na)).
  { apply NodeKind_value_inj. by rewrite <- Hwa, <- Hwb. }
  assert (Hkb : Kind nb = NodeKind_value (classOf (derived na)))
    by (by rewrite <- Hk).
  pose proof (cast_WellTyped _ Hwa) as Hca.
  pose proof (cast_WellTyped _ Hwb) as Hcb.
  pose proof (dyn_cast_or_null_same h _ b nb Hb Hkb) as Hdyn.
  rewrite (isEqual_unfold _ _ _ _ _ Ha Hwa). unfold isEqual_step.
  destruct (derived na) as [x|x|x|x|x|x|x|x|x] eqn:Hda,
           (derived nb) as [y|y|y|y|y|y|y|y|y] eqn:Hdb;
    try discriminate HK; cbn [classOf] in *;
    unfold BreakNode_nodeIsEqual, ContinueNode_nodeIsEqual,
      SwitchBreakNode_nodeIsEqual, nodeIsEqual;
    rewrite ?Hca, ?Hdyn; cbn [and_then mbind Result_bind];
    rewrite ?Hcb; cbn [and_then];
    rewrite ?Hda, ?Hdb; cbn [attributes tree_children].
  - by intros [= <-].
  - by intros [= <-].
  - by intros [= <-].
  - (* If *)
    case_bool_decide as Hw.
    + rewrite bool_decide_eq_true_2 by (by rewrite Hw).
      rewrite bool_decide_eq_true_2 by done.
      intros Hr.
      pose proof (same_children_childrenAreEqual (same_structure d h)
                    (isEqual d h) [IfNode.Then x; IfNode.Else x] IH
                    [IfNode.Then y; IfNode.Else y] r) as H.
      rewrite bool_decide_eq_true_2 in H by done. apply H.
      simpl. destruct (same_child _ (IfNode.Then x) _) as [r1|]; [|done].
      simpl in *. destruct (same_child _ (IfNode.Else x) _) as [r2|]; [|done].
      simpl in *. by rewrite andb_true_r.
    + rewrite bool_decide_eq_false_2; [by intros [= <-]|].
      intros Heq. apply Hw. by injection Heq.
  - (* Scs *)
    case_bool_decide as Hl.
    + rewrite bool_decide_eq_true_2 by (by rewrite Hl).
      rewrite bool_decide_eq_true_2 by done.
      intros Hr. by apply (same_child_childrenAreEqual (same_structure d h)).
    + rewrite bool_decide_eq_false_2; [by intros [= <-]|].
      intros Heq. apply Hl. by injection Heq.
  - (* Sequence *)
    rewrite bool_decide_eq_true_2 by done. intros Hr.
    by apply (same_children_childrenAreEqual (same_structure d h)).
  - (* Switch *)
    case_bool_decide as Hattr.
    + destruct Hattr as (Hl & Hd & Hw).
      rewrite bool_decide_eq_true_2 by (by rewrite Hl, Hd, Hw).
      intros Hr.
      by apply (same_children_childrenAreEqual (same_structure d h)).
    + rewrite bool_decide_eq_false_2; [by intros [= <-]|].
      intros Heq. apply Hattr. by injection Heq.
  - by intros [= <-].
  - (* Set *)
    intros [= <-].
    destruct (decide (SetNode.StateVariableValue x = SetNode.StateVariableValue y
                      ∧ SetNode.DKind x = SetNode.DKind y)) as [[Hv Hd] | Hattr].
    + rewrite (bool_decide_eq_true_2 (_ ∧ _)) by done.
      rewrite bool_decide_eq_true_2 by (by rewrite Hv, Hd).
      by rewrite bool_decide_eq_true_2 by done.
    + rewrite (bool_decide_eq_false_2 (_ ∧ _)) by done.
      rewrite bool_decide_eq_false_2; [done|].
      intros Heq. apply Hattr. by injection Heq.
Qed.

Lemma same_children_defined d (h : Heap) (l1 : list (option ptr)) :
  (∀ a b, finite_tree d h a = true → finite_tree d h b = true →
          is_Some (same_structure d h a b)) →
  ∀ l2,
  (∀ c, Some c ∈ l1 → finite_tree d h c = true) →
  (∀ c, Some c ∈ l2 → finite_tree d h c = true) →
  is_Some (same_children (same_structure d h) l1 l2).
Proof.
  intros IH. induction l1 as [|A l1 IHl]; intros [|B l2] H1 H2; simpl; eauto.
  assert (HAB : is_Some (same_child (same_structure d h) A B)).
  { destruct A as [a|], B as [b|]; simpl; eauto.
    apply IH; [apply H1 | apply H2]; left. }
  destruct HAB as [r1 ->]. simpl.
  destruct (IHl l2) as [rs ->]; [intros c Hc; apply H1; by right
                                | intros c Hc; apply H2; by right |].
  simpl. eauto.
Qed.

(** On trees of depth at most [d], whose nodes are of the class their kind
    says, [same_structure] has an answer. *)
Lemma same_structure_defined d (h : Heap) : ∀ a b,
  finite_tree d h a = true → finite_tree d h b = true →
  is_Some (same_structure d h a b).
Proof.
  induction d as [|d IH]; intros a b Hta Htb; [done|].
  destruct (finite_tree_live _ _ _ Hta) as [na Ha].
  destruct (finite_tree_live _ _ _ Htb) as [nb Hb].
  pose proof (finite_tree_WellTyped _ _ _ _ Hta Ha) as Hwa.
  pose proof (finite_tree_WellTyped _ _ _ _ Htb Hb) as Hwb.
  assert (Hca : ∀ c, Some c ∈ tree_children (derived na) → finite_tree d h c = true)
    by (intros c Hc; exact (finite_tree_children d h a na c Hta Ha Hc)).
  assert (Hcb : ∀ c, Some c ∈ tree_children (derived nb) → finite_tree d h c = true)
    by (intros c Hc; exact (finite_tree_children d h b nb c Htb Hb Hc)).
  cbn [same_structure]. rewrite Ha, Hb.
  rewrite bool_decide_eq_true_2 by done.
  destruct (derived na) as [x|x|x|x|x|x|x|x|x],
           (derived nb) as [y|y|y|y|y|y|y|y|y]; eauto;
    cbn [tree_children] in Hca, Hcb.
  - case_bool_decide; [|eauto].
    pose proof (same_children_defined d h [IfNode.Then x; IfNode.Else x] IH
                  [IfNode.Then y; IfNode.Else y] Hca Hcb) as [r Hr].
    simpl in Hr.
    destruct (same_child _ (IfNode.Then x) _) as [r1|]; [|done]. simpl in *.
    destruct (same_child _ (IfNode.Else x) _) as [r2|]; [|done]. simpl in *.
    eauto.
  - case_bool_decide; [|eauto].
    pose proof (same_children_defined d h [ScsNode.Body x] IH
                  [ScsNode.Body y] Hca Hcb) as [r Hr].
    simpl in Hr.
    destruct (same_child _ (ScsNode.Body x) _) as [r1|]; [|done]. eauto.
  - by apply same_children_defined.
  - case_bool_decide; [|eauto]. by apply same_children_defined.
Qed.

(** C5: [isEqual] compares the kinds, then the attribute fields (label
    sets, dispatcher kind, loop type, weaved flag, state value), then the
    children, recursively, and looks neither at IDs nor at names.  Two
    nodes of different kinds are not equal.  Two nodes of the same kind are
    not equal when they differ in an attribute field: the weaved flag of an
    [IfNode]; the loop type of an [ScsNode]; the label sets, the dispatcher
    kind or the weaved flag of a [SwitchNode]; the state value or the
    dispatcher kind of a [SetNode].  On the children [isEqual] answers what
    [same_structure] answers, which compares the children of the two nodes
    place by place, down to the leaves, wherever the nodes are stored, and
    has an answer on every pair of finite trees.  Two nodes that differ at
    most in ID and name are equal, and changing IDs and names anywhere in
    the store changes nothing to the outcome of [isEqual]. *)
Theorem isEqual_structural (fuel : nat) (h : Heap) (a b : ptr) (na nb : ASTNode) :
  h !! a = Some na → h !! b = Some nb → WellTyped na → WellTyped nb →
  (Kind na ≠ Kind nb → isEqual (S fuel) h a (Some b) = Some (Ok false))
  ∧ (∀ x y, derived na = AsIf x → derived nb = AsIf y →
       IfNode.IsWeaved x ≠ IfNode.IsWeaved y →
       isEqual (S fuel) h a (Some b) = Some (Ok false))
  ∧ (∀ x y, derived na = AsScs x → derived nb = AsScs y →
       ScsNode.LoopType x ≠ ScsNode.LoopType y →
       isEqual (S fuel) h a (Some b) = Some (Ok false))
  ∧ (∀ x y, derived na = AsSwitch x → derived nb = AsSwitch y →
       fst <$> SwitchNode.LabelCaseVec x ≠ fst <$> SwitchNode.LabelCaseVec y
       ∨ SwitchNode.DKind x ≠ SwitchNode.DKind y
       ∨ SwitchNode.IsWeaved x ≠ SwitchNode.IsWeaved y →
       isEqual (S fuel) h a (Some b) = Some (Ok false))
  ∧ (∀ x y, derived na = AsSet x → derived nb = AsSet y →
       SetNode.StateVariableValue x ≠ SetNode.StateVariableValue y
       ∨ SetNode.DKind x ≠ SetNode.DKind y →
       isEqual (S fuel) h a (Some b) = Some (Ok false))
  ∧ (∀ r, same_structure (S fuel) h a b = Some r →
          isEqual (S fuel) h a (Some b) = Some (Ok r))
  ∧ (finite_tree (S fuel) h a = true → finite_tree (S fuel) h b = true →
     ∃ r, same_structure (S fuel) h a b = Some r)
  ∧ (forget_ID_Name na = forget_ID_Name nb →
     finite_tree (S fuel) h a = true →
     isEqual (S fuel) h a (Some b) = Some (Ok true))
  ∧ (∀ (h' : Heap) Node,
       forget_ID_Name <$> h = forget_ID_Name <$> h' →
       isEqual (S fuel) h a Node = isEqual (S fuel) h' a Node).
Proof.
  intros Ha Hb Hwa Hwb.
  assert (Hattr : ∀ r, same_structure (S fuel) h a b = Some r →
                       isEqual (S fuel) h a (Some b) = Some (Ok r))
    by (intros r; apply same_structure_isEqual).
  assert (Hstep : same_structure (S fuel) h a b
    = match derived na, derived nb with
      | AsCode _, AsCode _ | AsBreak _, AsBreak _
      | AsContinue _, AsContinue _
      | AsSwitchBreak _, AsSwitchBreak _ => Some true
      | AsIf x, AsIf y =>
          if bool_decide (IfNode.IsWeaved x = IfNode.IsWeaved y) then
            r1 ← same_child (same_structure fuel h) (IfNode.Then x) (IfNode.Then y);
            r2 ← same_child (same_structure fuel h) (IfNode.Else x) (IfNode.Else y);
            Some (r1 && r2)
          else Some false
      | AsScs x, AsScs y =>
          if bool_decide (ScsNode.LoopType x = ScsNode.LoopType y) then
            same_child (same_structure fuel h) (ScsNode.Body x) (ScsNode.Body y)
          else Some false
      | AsSequence x, AsSequence y =>
          same_children (same_structure fuel h)
            (SequenceNode.NodeVec x) (SequenceNode.NodeVec y)
      | AsSwitch x, AsSwitch y =>
          if bool_decide
               (fst <$> SwitchNode.LabelCaseVec x
                = fst <$> SwitchNode.LabelCaseVec y
                ∧ SwitchNode.DKind x = SwitchNode.DKind y
                ∧ SwitchNode.IsWeaved x = SwitchNode.IsWeaved y)
          then
            same_children (same_structure fuel h)
              (snd <$> SwitchNode.LabelCaseVec x)
              (snd <$> SwitchNode.LabelCaseVec y)
          else Some false
      | AsSet x, AsSet y =>
          Some (bool_decide
                  (SetNode.StateVariableValue x = SetNode.StateVariableValue y
                   ∧ SetNode.DKind x = SetNode.DKind y))
      | _, _ => Some false
      end).
  { cbn [same_structure]. rewrite Ha, Hb.
    by rewrite bool_decide_eq_true_2 by done. }
  split; [exact (isEqual_other_kind fuel h a b na nb Ha Hb Hwa)|].
  split.
  { intros x y Hx Hy Hne. apply Hattr. rewrite Hstep, Hx, Hy.
    by rewrite bool_decide_eq_false_2. }
  split.
  { intros x y Hx Hy Hne. apply Hattr. rewrite Hstep, Hx, Hy.
    by rewrite bool_decide_eq_false_2. }
  split.
  { intros x y Hx Hy Hne. apply Hattr. rewrite Hstep, Hx, Hy.
    rewrite bool_decide_eq_false_2; [done|]. intros (? & ? & ?).
    destruct Hne as [? | [? | ?]]; done. }
  split.
  { intros x y Hx Hy Hne. apply Hattr. rewrite Hstep, Hx, Hy.
    rewrite bool_decide_eq_false_2; [done|]. intros (? & ?).
    destruct Hne as [? | ?]; done. }
  split; [exact Hattr|].
  split; [apply same_structure_defined|].
  split; [|intros h' Node; apply isEqual_forget].
  intros Hsame Htree. unfold forget_ID_Name in Hsame.
  apply (isEqual_same_fields (S fuel) (S fuel) h a b na nb);
    try done; try lia; inversion Hsame; congruence.
Qed.

Lemma isEqual_structural_witness :
  isEqual 2 example_heap 1 (Some 2%positive) = Some (Ok false)
  ∧ isEqual 2 example_heap 1 (Some 4%positive) = Some (Ok false)
  ∧ isEqual 2 example_twin_heap 1 (Some 11%positive) = Some (Ok true)
  ∧ isEqual 2 example_twin_heap 1 (Some 21%positive) = Some (Ok false)
  ∧ (∃ r, same_structure 2 example_twin_heap 1 11 = Some r)
  ∧ isEqual 2 example_heap 1 (Some 3%positive) = Some (Ok true)
  ∧ isEqual 2 example_heap 1 (Some 3%positive)
    = isEqual 2 example_heap_renamed 1 (Some 3%positive).
Proof.
  split; [|split; [|split; [|split; [|split; [|split]]]]].
  - edestruct (isEqual_structural 1 example_heap 1 2) as [Hkind _];
      [reflexivity.. |].
    apply Hkind. vm_compute. discriminate.
  - edestruct (isEqual_structural 1 example_heap 1 4) as (_ & Hweaved & _);
      [reflexivity.. |].
    eapply Hweaved; [reflexivity | reflexivity | simpl; discriminate].
  - edestruct (isEqual_structural 1 example_twin_heap 1 11)
      as (_ & _ & _ & _ & _ & Hsame & _); [reflexivity.. |].
    apply Hsame. reflexivity.
  - edestruct (isEqual_structural 1 example_twin_heap 1 21)
      as (_ & _ & _ & _ & _ & Hsame & _); [reflexivity.. |].
    apply Hsame. reflexivity.
  - edestruct (isEqual_structural 1 example_twin_heap 1 11)
      as (_ & _ & _ & _ & _ & _ & Hdef & _); [reflexivity.. |].
    apply Hdef; reflexivity.
  - edestruct (isEqual_structural 1 example_heap 1 3)
      as (_ & _ & _ & _ & _ & _ & _ & Hsame & _); [reflexivity.. |].
    apply Hsame; reflexivity.
  - edestruct (isEqual_structural 1 example_heap 1 3)
      as (_ & _ & _ & _ & _ & _ & _ & _ & Hnames); [reflexivity.. |].
    apply Hnames. vm_compute. reflexivity.
Defined.

(** * Cloning *)

Lemma fresh_not_live (h : Heap) : h !! fresh (dom h) = None.
Proof. apply not_elem_of_dom. apply is_fresh. Qed.

(** [Clone] allocates one object and copies the fields of the node. *)
Lemma Clone_copies (h : Heap) this n :
  h !! this = Some n → WellTyped n →
  Clone this h = Ok (Some (fresh (dom h)), <[fresh (dom h) := n]> h).
Proof.
  intros Hthis Hwt. unfold Clone. rewrite Hthis.
  unfold getKind. rewrite Hwt, NodeKind_of_value_value.
  unfold Clone_as. by rewrite (cast_WellTyped _ Hwt).
Qed.

(** On an object whose kind is the value of no enumerator, [Clone] falls
    out of its switch and returns [nullptr]; it does not abort. *)
Lemma Clone_unknown_kind (h : Heap) this n :
  h !! this = Some n → NodeKind_of_value (getKind n) = None →
  Clone this h = Ok (None, h).
Proof. intros Hthis Hk. unfold Clone. by rewrite Hthis, Hk. Qed.

Lemma finite_tree_insert_fresh d : ∀ (h : Heap) q n p,
  h !! q = None → finite_tree d h p = true →
  finite_tree d (<[q := n]> h) p = true.
Proof.
  induction d as [|d IH]; intros h q n p Hq; simpl; [done|].
  destruct (h !! p) as [m|] eqn:Hp; [|done].
  rewrite lookup_insert_ne by congruence. rewrite Hp.
  intros [Hwt Hch]%andb_prop. rewrite Hwt. simpl.
  rewrite forallb_forall in Hch. apply forallb_forall.
  intros [c|] Hc; [|done]. apply IH; [done|]. by apply (Hch (Some c)).
Qed.

Lemma finite_tree_copy d (h : Heap) q p n :
  h !! q = None → h !! p = Some n → finite_tree d h p = true →
  finite_tree d (<[q := n]> h) q = true.
Proof.
  intros Hq Hp. destruct d as [|d]; simpl; [done|].
  rewrite Hp, lookup_insert_eq.
  intros [Hwt Hch]%andb_prop. rewrite Hwt. simpl.
  rewrite forallb_forall in Hch. apply forallb_forall.
  intros [c|] Hc; [|done].
  apply finite_tree_insert_fresh; [done|]. by apply (Hch (Some c)).
Qed.

Lemma reachable_reference (h : Heap) p n x :
  h !! p = Some n → Some x ∈ references n → reachable h p x.
Proof. intros Hp Hx. eapply reachable_step; [done.. | constructor]. Qed.

(** C1, amended: when the tree below [n] is finite, [Clone] returns a node
    that [isEqual] says is equal to [n]; that node is a new one, which no
    pointer of the store before the call designates, [n] included; it
    holds the very references [n] holds, so that every node [n] refers to
    is reached from the clone as well. *)
Theorem Clone_isEqual (d : nat) (h : Heap) (this : ptr) (n : ASTNode) :
  h !! this = Some n → finite_tree d h this = true →
  ∃ q h' c,
    Clone this h = Ok (Some q, h')
    ∧ isEqual d h' q (Some this) = Some (Ok true)
    ∧ h !! q = None
    ∧ q ≠ this
    ∧ (∀ p, p ≠ q → h' !! p = h !! p)
    ∧ h' !! q = Some c
    ∧ references c = references n
    ∧ (∀ x, Some x ∈ references n → reachable h' q x ∧ reachable h' this x).
Proof.
  intros Hthis Htree.
  pose proof (finite_tree_WellTyped _ _ _ _ Htree Hthis) as Hwt.
  pose proof (fresh_not_live h) as Hq.
  set (q := fresh (dom h)) in *.
  assert (Hne : q ≠ this) by congruence.
  exists q, (<[q := n]> h), n.
  split; [by apply Clone_copies|].
  split.
  { apply (isEqual_same_fields d d _ q this n n); try done.
    - by eapply finite_tree_copy.
    - apply lookup_insert_eq.
    - by rewrite lookup_insert_ne. }
  split; [done|]. split; [done|].
  split; [by intros p Hp; rewrite lookup_insert_ne|].
  split; [apply lookup_insert_eq|]. split; [done|].
  intros x Hx. split.
  - eapply reachable_reference; [apply lookup_insert_eq | done].
  - eapply reachable_reference; [by rewrite lookup_insert_ne | done].
Qed.

Lemma Clone_isEqual_witness :
  ∃ q h' c,
    Clone 1 example_heap = Ok (Some q, h')
    ∧ isEqual 2 h' q (Some 1%positive) = Some (Ok true)
    ∧ example_heap !! q = None
    ∧ q ≠ 1%positive
    ∧ (∀ p, p ≠ q → h' !! p = example_heap !! p)
    ∧ h' !! q = Some c
    ∧ references c = [None; Some 2%positive; None]
    ∧ (∀ x, Some x ∈ [None; Some 2%positive; None] →
            reachable h' q x ∧ reachable h' 1%positive x).
Proof.
  apply (Clone_isEqual 2 example_heap 1 example_if_then); reflexivity.
Defined.

(** C1 as stated fails on an [IfNode] with a [Then] branch: the branch of
    the clone is the branch of the node, one and the same object. *)
Lemma Clone_shares_children :
  ∃ q h',
    Clone 1 example_heap = Ok (Some q, h')
    ∧ reachable h' q 2%positive
    ∧ reachable h' 1%positive 2%positive.
Proof.
  eexists _, _. split; [vm_compute; reflexivity|]. split.
  - eapply reachable_reference; [vm_compute; reflexivity|].
    right. left.
  - eapply reachable_reference; [vm_compute; reflexivity|].
    right. left.
Qed.

(** C6, amended: [Clone] is a copy of the node alone.  It allocates one
    object, at an address that designated no live object, and gives it the
    kind, the ID, the name, the origin basic block, the successor and the
    fields of the class of [n], child references included: the children are
    those of [n], not copies of them.  The store is otherwise left as it
    was, and the call returns the address of the copy and nothing else. *)
Theorem Clone_copies_fields (h : Heap) (this : ptr) (n : ASTNode) :
  h !! this = Some n → WellTyped n →
  ∃ q h' c,
    Clone this h = Ok (Some q, h')
    ∧ h !! q = None
    ∧ h' !! q = Some c
    ∧ getKind c = getKind n
    ∧ getID c = getID n
    ∧ Name c = Name n
    ∧ getBB c = getBB n
    ∧ getSuccessor c = getSuccessor n
    ∧ derived c = derived n
    ∧ (∀ p, p ≠ q → h' !! p = h !! p)
    ∧ size h' = S (size h).
Proof.
  intros Hthis Hwt. pose proof (fresh_not_live h) as Hq.
  exists (fresh (dom h)), (<[fresh (dom h) := n]> h), n.
  split; [by apply Clone_copies|]. split; [done|].
  split; [apply lookup_insert_eq|]. do 6 (split; [done|]).
  split; [by intros p Hp; rewrite lookup_insert_ne|].
  by apply map_size_insert_None.
Qed.

Lemma Clone_copies_fields_witness :
  ∃ q h' c,
    Clone 1 example_heap = Ok (Some q, h')
    ∧ example_heap !! q = None
    ∧ h' !! q = Some c
    ∧ getKind c = 3%Z
    ∧ getID c = 7%N
    ∧ Name c = "if"%string
    ∧ getBB c = None
    ∧ getSuccessor c = None
    ∧ derived c = AsIf (IfNode.mk (Some 2%positive) None (Some 1%positive) false)
    ∧ (∀ p, p ≠ q → h' !! p = example_heap !! p)
    ∧ size h' = S (size example_heap).
Proof.
  apply (Clone_copies_fields example_heap 1 example_if_then); reflexivity.
Defined.

(** C6 as stated fails on an [IfNode] with a [Then] branch: the copy has
    the ID of the node, its [Then] branch is the [Then] branch of the node
    and not a copy of it, and one object has been allocated, not two. *)
Lemma Clone_keeps_ID_and_children :
  ∃ n q h' c,
    example_heap !! 1%positive = Some n
    ∧ Clone 1 example_heap = Ok (Some q, h')
    ∧ h' !! q = Some c
    ∧ getID c = getID n
    ∧ derived n = AsIf (IfNode.mk (Some 2%positive) None (Some 1%positive) false)
    ∧ derived c = AsIf (IfNode.mk (Some 2%positive) None (Some 1%positive) false)
    ∧ size h' = S (size example_heap).
Proof.
  eexists _, _, _, _. split; [reflexivity|].
  split; [vm_compute; reflexivity|].
  split; [vm_compute; reflexivity|].
  repeat split; reflexivity.
Qed.

(** * Sequencing *)

Lemma successor_chain_head (h : Heap) p l :
  successor_chain h p l → ∃ l', l = p :: l'.
Proof. intros []; eauto. Qed.

Lemma successor_chain_deterministic (h : Heap) p l1 :
  successor_chain h p l1 → ∀ l2, successor_chain h p l2 → l1 = l2.
Proof.
  induction 1 as [p n Hp Hs | p n q l Hp Hs Hq IH]; intros l2 H2;
    inversion H2; simplify_eq; [done|].
  f_equal. by apply IH.
Qed.

Lemma successor_chain_live (h : Heap) p l :
  successor_chain h p l → ∀ x, x ∈ l → is_Some (h !! x).
Proof.
  induction 1 as [p n Hp Hs | p n q l Hp Hs Hq IH]; intros x Hx.
  - apply list_elem_of_singleton in Hx as ->. eauto.
  - apply elem_of_cons in Hx as [-> | Hx]; eauto.
Qed.

Lemma successor_chain_from (h : Heap) p l :
  successor_chain h p l → ∀ x, x ∈ l →
  ∃ l', successor_chain h x l' ∧ List.length l' ≤ List.length l.
Proof.
  induction 1 as [p n Hp Hs | p n q l Hp Hs Hq IH]; intros x Hx.
  - apply list_elem_of_singleton in Hx as ->.
    exists [p]. split; [by eapply chain_last | done].
  - apply elem_of_cons in Hx as [-> | Hx].
    + exists (p :: l). split; [by eapply chain_next | done].
    + destruct (IH x Hx) as (l' & Hl' & Hlen). exists l'. split; [done|].
      simpl. lia.
Qed.

Lemma successor_chain_NoDup (h : Heap) p l :
  successor_chain h p l → NoDup l.
Proof.
  induction 1 as [p n Hp Hs | p n q l Hp Hs Hq IH].
  - apply NoDup_singleton.
  - apply NoDup_cons. split; [|done]. intros Hin.
    destruct (successor_chain_from _ _ _ Hq p Hin) as (l' & Hl' & Hlen).
    assert (Hfull : successor_chain h p (p :: l)) by (by eapply chain_next).
    pose proof (successor_chain_deterministic _ _ _ Hl' _ Hfull) as ->.
    simpl in Hlen. lia.
Qed.

Lemma successor_chain_length (h : Heap) p l :
  successor_chain h p l → List.length l ≤ size h.
Proof.
  intros Hc.
  rewrite <- (size_list_to_set (C:=gset positive) l)
    by (by eapply successor_chain_NoDup).
  rewrite <- (size_dom (D:=gset positive) h).
  apply subseteq_size. intros x Hx%elem_of_list_to_set.
  apply elem_of_dom. by eapply successor_chain_live.
Qed.

(** The chain only depends on the successors of its nodes. *)
Lemma successor_chain_ext (h h' : Heap) p l :
  successor_chain h p l →
  (∀ x, x ∈ l → Successor <$> (h' !! x) = Successor <$> (h !! x)) →
  successor_chain h' p l.
Proof.
  induction 1 as [p n Hp Hs | p n q l Hp Hs Hq IH]; intros Hext.
  - pose proof (Hext p ltac:(left)) as Hx. rewrite Hp in Hx.
    destruct (h' !! p) as [n'|] eqn:Hp'; [|done].
    injection Hx as Hx. eapply chain_last; [done | congruence].
  - pose proof (Hext p ltac:(left)) as Hx. rewrite Hp in Hx.
    destruct (h' !! p) as [n'|] eqn:Hp'; [|done].
    injection Hx as Hx. apply (chain_next h' p n' q l Hp'); [congruence|].
    apply IH. intros x Hin. apply Hext. by right.
Qed.

Lemma set_Successor_same n : Successor n = None → set_Successor None n = n.
Proof. destruct n. simpl. by intros ->. Qed.

Lemma addNode_rec_chain l : ∀ (h : Heap) Node fuel this s Seq,
  successor_chain h Node l →
  h !! this = Some s → derived s = AsSequence Seq →
  List.length l ≤ fuel →
  ∃ h' : Heap,
    addNode_rec fuel this Node h = Some (Ok h')
    ∧ ∀ p, h' !! p = after_addNode this l p <$> (h !! p).
Proof.
  induction l as [|p0 l IH]; intros h Node fuel this s Seq Hchain Hthis Hseq Hfuel.
  { by apply successor_chain_head in Hchain as [? ?]. }
  pose proof (successor_chain_NoDup _ _ _ Hchain) as Hnodup.
  apply NoDup_cons in Hnodup as [Hnotin _].
  destruct fuel as [|fuel]; [simpl in Hfuel; lia|].
  simpl in Hfuel.
  cbn [addNode_rec]. unfold deref at 1. rewrite Hthis. cbn [and_then].
  unfold cast_SequenceNode. rewrite Hseq. cbn [and_then].
  set (s1 := set_derived (AsSequence (SequenceNode.push_back (Some Node) Seq)) s).
  set (h1 := <[this := s1]> h).
  inversion Hchain as [p n Hp Hs | p n q l' Hp Hs Hq]; subst.
  - (* the chain ends here *)
    assert (Hn1 : ∃ n1, h1 !! p0 = Some n1 ∧ Successor n1 = None).
    { unfold h1. destruct (decide (this = p0)) as [-> | Hne].
      - rewrite lookup_insert_eq. exists s1. split; [done|].
        unfold s1. simpl. congruence.
      - rewrite lookup_insert_ne by done. eauto. }
    destruct Hn1 as (n1 & Hn1 & Hs1).
    unfold deref. rewrite Hn1. cbn [and_then]. unfold getSuccessor.
    rewrite Hs1. cbn [nonnull].
    exists h1. split; [done|]. intros x. unfold h1, after_addNode.
    destruct (decide (this = x)) as [<- | Hne].
    + rewrite lookup_insert_eq, Hthis. simpl.
      rewrite bool_decide_eq_true_2 by done.
      case_bool_decide as Hin.
      * apply list_elem_of_singleton in Hin as ->.
        rewrite set_Successor_same by congruence. by rewrite Hseq.
      * by rewrite Hseq.
    + rewrite lookup_insert_ne by done.
      rewrite (bool_decide_eq_false_2 (x = this)) by done.
      case_bool_decide as Hin; [|by destruct (h !! x)].
      apply list_elem_of_singleton in Hin as ->. rewrite Hp. simpl.
      by rewrite set_Successor_same.
  - (* the node has a successor: it is consumed, and appended in turn *)
    assert (Hn1 : ∃ n1, h1 !! p0 = Some n1 ∧ Successor n1 = Some q
                        ∧ n1 = if decide (this = p0) then s1 else n).
    { unfold h1. destruct (decide (this = p0)) as [-> | Hne].
      - rewrite lookup_insert_eq. exists s1. split; [done|].
        unfold s1. simpl. split; [congruence | done].
      - rewrite lookup_insert_ne by done. eauto. }
    destruct Hn1 as (n1 & Hn1 & Hs1 & Hn1def).
    unfold deref. rewrite Hn1. cbn [and_then]. unfold getSuccessor.
    rewrite Hs1. cbn [nonnull consumeSuccessor]. rewrite Hs1.
    set (h2 := <[p0 := set_Successor None n1]> h1).
    assert (Hchain2 : successor_chain h2 q l).
    { apply (successor_chain_ext h); [done|]. intros x Hx.
      assert (x ≠ p0) by (intros ->; done).
      unfold h2, h1. rewrite lookup_insert_ne by done.
      destruct (decide (this = x)) as [<- | Hne].
      - by rewrite lookup_insert_eq, Hthis.
      - by rewrite lookup_insert_ne. }
    assert (Hthis2 : ∃ s2, h2 !! this = Some s2
                ∧ derived s2 = AsSequence (SequenceNode.push_back (Some p0) Seq)
                ∧ s2 = if decide (this = p0) then set_Successor None s1 else s1).
    { unfold h2, h1. destruct (decide (this = p0)) as [-> | Hne].
      - rewrite lookup_insert_eq. eexists. split; [done|]. by subst n1.
      - rewrite lookup_insert_ne by done. rewrite lookup_insert_eq.
        eexists. by split. }
    destruct Hthis2 as (s2 & Hthis2 & Hseq2 & Hs2def).
    destruct (IH h2 q fuel this s2 _ Hchain2 Hthis2 Hseq2 ltac:(lia))
      as (h' & Hrun & Hh').
    exists h'. split; [done|]. intros x. rewrite Hh'.
    unfold after_addNode, h2, h1.
    destruct (decide (x = this)) as [Hx | Hne];
      destruct (decide (x = p0)) as [Hx0 | Hne0].
    + subst x. subst p0.
      rewrite lookup_insert_eq, Hthis. simpl.
      rewrite !(bool_decide_eq_true_2 (this = this)) by done.
      rewrite bool_decide_eq_false_2 by done.
      rewrite bool_decide_eq_true_2 by left.
      rewrite decide_True in Hn1def by done. subst n1. unfold s1. simpl.
      rewrite Hseq. unfold set_derived, set_Successor. simpl.
      by rewrite <- app_assoc.
    + subst x.
      rewrite lookup_insert_ne by done. rewrite lookup_insert_eq, Hthis. simpl.
      rewrite !(bool_decide_eq_true_2 (this = this)) by done.
      assert (Hmem : bool_decide (this ∈ p0 :: l) = bool_decide (this ∈ l)).
      { apply bool_decide_ext. rewrite elem_of_cons.
        split; [intros [? | ?]; [congruence | done] | by right]. }
      rewrite Hmem. unfold s1.
      destruct (bool_decide (this ∈ l)); simpl; rewrite Hseq;
        unfold set_derived, set_Successor; simpl; by rewrite <- app_assoc.
    + subst x.
      rewrite lookup_insert_eq.
      rewrite decide_False in Hn1def by done. subst n1. rewrite Hp. simpl.
      rewrite !(bool_decide_eq_false_2 (p0 = this)) by done.
      rewrite bool_decide_eq_false_2 by done.
      by rewrite bool_decide_eq_true_2 by left.
    + rewrite !lookup_insert_ne by done.
      rewrite !(bool_decide_eq_false_2 (x = this)) by done.
      assert (Hmem : bool_decide (x ∈ p0 :: l) = bool_decide (x ∈ l)).
      { apply bool_decide_ext. rewrite elem_of_cons.
        split; [intros [? | ?]; [congruence | done] | by right]. }
      by rewrite Hmem.
Qed.

Lemma pending_le_size (h : Heap) : pending h ≤ size h.
Proof. apply map_subseteq_size, map_filter_subseteq. Qed.

Lemma pending_insert_same (h : Heap) p n n' :
  h !! p = Some n → Successor n' = Successor n →
  pending (<[p := n']> h) = pending h.
Proof.
  intros Hp Hs. unfold pending. rewrite map_filter_insert. simpl.
  case_decide as Hn'.
  - apply map_size_insert_Some. exists n.
    apply map_lookup_filter_Some. split; [done|]. simpl. congruence.
  - rewrite map_filter_delete. apply map_size_delete_None.
    apply map_lookup_filter_None. right. intros n0 Hn0. simpl. congruence.
Qed.

Lemma pending_insert_clear (h : Heap) p n n' :
  h !! p = Some n → Successor n ≠ None → Successor n' = None →
  S (pending (<[p := n']> h)) = pending h.
Proof.
  intros Hp Hs Hs'. unfold pending. rewrite map_filter_insert. simpl.
  rewrite decide_False by (by intros []).
  rewrite map_filter_delete.
  assert (Hf : filter (λ kv : ptr * ASTNode, Successor kv.2 ≠ None) h !! p = Some n)
    by (by apply map_lookup_filter_Some).
  rewrite map_size_delete, Hf.
  pose proof (map_size_ne_0_lookup_2 _ _ (ex_intro _ n Hf)). lia.
Qed.

(** [addNode] returns whatever the store: every recursive call follows the
    clearing of one more successor. *)
Lemma addNode_rec_total fuel : ∀ (h : Heap) this Node,
  pending h < fuel → is_Some (addNode_rec fuel this Node h).
Proof.
  induction fuel as [|fuel IH]; intros h this Node Hfuel; [lia|].
  cbn [addNode_rec]. unfold deref at 1.
  destruct (h !! this) as [s|] eqn:Hthis; cbn [and_then]; [|eauto].
  destruct (cast_SequenceNode s) as [Seq|]; cbn [and_then]; [|eauto].
  set (s1 := set_derived (AsSequence (SequenceNode.push_back (Some Node) Seq)) s).
  assert (Hp1 : pending (<[this := s1]> h) = pending h)
    by (by apply pending_insert_same with s).
  set (h1 := <[this := s1]> h) in *.
  unfold deref. destruct (h1 !! Node) as [n|] eqn:HNode; cbn [and_then]; [|eauto].
  unfold getSuccessor. destruct (Successor n) as [q|] eqn:Hs; cbn [nonnull]; [|eauto].
  cbn [consumeSuccessor]. rewrite Hs. apply IH.
  pose proof (pending_insert_clear h1 Node n (set_Successor None n) HNode) as Hc.
  rewrite Hs in Hc. specialize (Hc ltac:(done) eq_refl). lia.
Qed.

Lemma addNode_total (h : Heap) this Node : is_Some (addNode this Node h).
Proof.
  apply addNode_rec_total. pose proof (pending_le_size h). lia.
Qed.

Lemma addNode_chain_lookup (h : Heap) this Node s Seq l :
  h !! this = Some s → derived s = AsSequence Seq →
  successor_chain h Node l →
  ∃ h' : Heap,
    addNode this Node h = Some (Ok h')
    ∧ ∀ p, h' !! p = after_addNode this l p <$> (h !! p).
Proof.
  intros Hthis Hseq Hchain.
  destruct (addNode_rec_chain l h Node (S (size h)) this s Seq Hchain Hthis Hseq)
    as (h' & Hrun & Hh').
  { pose proof (successor_chain_length _ _ _ Hchain). lia. }
  exists h'. by split.
Qed.

Lemma after_addNode_Successor this l p n :
  Successor (after_addNode this l p n)
  = if bool_decide (p ∈ l) then None else Successor n.
Proof.
  unfold after_addNode.
  destruct (bool_decide (p ∈ l)), (bool_decide (p = this)),
    n as [? ? ? ? ? []]; done.
Qed.

(** A call of [addNode] that returns has found a sequence at [this]. *)
Lemma addNode_finds_sequence (h h' : Heap) this Node :
  addNode this Node h = Some (Ok h') →
  ∃ s Seq, h !! this = Some s ∧ derived s = AsSequence Seq.
Proof.
  unfold addNode. cbn [addNode_rec]. unfold deref at 1.
  destruct (h !! this) as [s|]; cbn [and_then]; [|done].
  unfold cast_SequenceNode.
  destruct (derived s) as [| | | | |Seq| | |] eqn:Hd; cbn [and_then]; try done.
  eauto.
Qed.

(** During a pass, a node has a hybrid successor only if it had one before
    the pass and has not been appended. *)
Lemma sequencing_successors (h : Heap) A h' :
  sequencing h A h' →
  ∀ p n', h' !! p = Some n' → Successor n' ≠ None →
  (∃ n, h !! p = Some n ∧ Successor n ≠ None) ∧ p ∉ A.
Proof.
  induction 1 as [| A h1 Name _ IH | A h1 this Node l h2 _ IH Hchain Hrun
                  | A h1 q n n1 _ IH Hq Hs]; intros p n' Hp Hsucc.
  - split; [eauto | by apply not_elem_of_nil].
  - simpl in Hp. destruct (decide (p = fresh (dom h1))) as [-> | Hne].
    + rewrite lookup_insert_eq in Hp. by simplify_eq.
    + rewrite lookup_insert_ne in Hp by done. by apply IH with n'.
  - destruct (addNode_finds_sequence _ _ _ _ Hrun) as (s & Seq & Hthis & Hseq).
    destruct (addNode_chain_lookup _ _ _ _ _ _ Hthis Hseq Hchain)
      as (h2' & Hrun' & Hlook).
    rewrite Hrun in Hrun'. simplify_eq.
    rewrite Hlook in Hp. destruct (h1 !! p) as [n1|] eqn:Hp1; [|done].
    simpl in Hp. simplify_eq.
    rewrite after_addNode_Successor in Hsucc.
    case_bool_decide as Hin; [done|].
    destruct (IH p n1 Hp1 Hsucc) as [Hn HA]. split; [done|].
    rewrite elem_of_app. tauto.
  - destruct (decide (p = q)) as [-> | Hne].
    + rewrite lookup_insert_eq in Hp. simplify_eq.
      apply IH with n; [done | congruence].
    + rewrite lookup_insert_ne in Hp by done. by apply IH with n'.
Qed.

(** C2: when a chain of hybrid successor links starts at [Node] and ends at
    a node without successor, [addNode] returns, having appended to the
    sequence [Node] and then the nodes of the chain, in the order of the
    chain; every node it has appended has a null hybrid successor
    afterwards.  Nothing else changes: the call sets no successor, so the
    nodes with a successor after the call are those that had one before and
    have not been appended.  Hence, after a sequencing pass in which every
    node that had a hybrid successor has been appended, no node holds a
    hybrid successor. *)
Theorem addNode_appends_successor_chain (h : Heap) :
  (∀ (this Node : ptr) (s : ASTNode) (Seq : SequenceNode.t) (l : list ptr),
     h !! this = Some s → derived s = AsSequence Seq →
     successor_chain h Node l →
     ∃ h' : Heap,
       addNode this Node h = Some (Ok h')
       ∧ (∃ s', h' !! this = Some s'
                ∧ derived s'
                  = AsSequence
                      (SequenceNode.mk (SequenceNode.NodeVec Seq ++ (Some <$> l))))
       ∧ (∃ l', l = Node :: l')
       ∧ (∀ p, p ∈ l → ∃ n', h' !! p = Some n' ∧ getSuccessor n' = None)
       ∧ (∀ p n, h !! p = Some n →
            ∃ n', h' !! p = Some n'
                  ∧ getKind n' = getKind n ∧ getID n' = getID n
                  ∧ Name n' = Name n ∧ getBB n' = getBB n
                  ∧ (p ≠ this → derived n' = derived n)
                  ∧ getSuccessor n'
                    = if bool_decide (p ∈ l) then None else getSuccessor n)
       ∧ dom h' = dom h)
  ∧ (∀ (A : list ptr) (h' : Heap),
       sequencing h A h' →
       (∀ p n, h !! p = Some n → getSuccessor n ≠ None → p ∈ A) →
       ∀ p n', h' !! p = Some n' → getSuccessor n' = None).
Proof.
  split.
  - intros this Node s Seq l Hthis Hseq Hchain.
    destruct (addNode_chain_lookup h this Node s Seq l Hthis Hseq Hchain)
      as (h' & Hrun & Hh').
    assert (Hframe : ∀ p n, h !! p = Some n →
      ∃ n', h' !! p = Some n'
            ∧ getKind n' = getKind n ∧ getID n' = getID n
            ∧ Name n' = Name n ∧ getBB n' = getBB n
            ∧ (p ≠ this → derived n' = derived n)
            ∧ getSuccessor n'
              = if bool_decide (p ∈ l) then None else getSuccessor n).
    { intros p n Hp. rewrite Hh', Hp. simpl. eexists. split; [done|].
      unfold after_addNode.
      destruct (bool_decide (p ∈ l)), (bool_decide_reflect (p = this)),
        n as [? ? ? ? ? []]; simpl; repeat split; done. }
    exists h'. split; [done|]. split; [|split; [|split; [|split]]].
    + rewrite Hh', Hthis. simpl. eexists. split; [done|].
      unfold after_addNode.
      rewrite (bool_decide_eq_true_2 (this = this)) by done.
      destruct (bool_decide (this ∈ l)); simpl; by rewrite Hseq.
    + by eapply successor_chain_head.
    + intros p Hp.
      destruct (successor_chain_live _ _ _ Hchain p Hp) as [n Hn].
      destruct (Hframe p n Hn) as (n' & Hn' & _ & _ & _ & _ & _ & Hsucc).
      exists n'. split; [done|]. by rewrite Hsucc, bool_decide_eq_true_2.
    + done.
    + apply set_eq. intros p. rewrite !elem_of_dom, Hh'.
      by rewrite fmap_is_Some.
  - intros A h' Hpass Hall p n' Hp. unfold getSuccessor in *.
    destruct (Successor n') as [q|] eqn:Hq; [|done]. exfalso.
    destruct (sequencing_successors h A h' Hpass p n' Hp) as ((n & Hn & Hs) & HA);
      [by rewrite Hq|].
    apply HA. by apply Hall with n.
Qed.

Lemma addNode_appends_successor_chain_witness :
  (∃ h' : Heap,
     addNode 1 2 example_chain_heap = Some (Ok h')
     ∧ (∃ s', h' !! 1%positive = Some s'
              ∧ derived s'
                = AsSequence (SequenceNode.mk
                    [Some 2%positive; Some 3%positive; Some 4%positive]))
     ∧ (∃ l', [2%positive; 3%positive; 4%positive] = 2%positive :: l')
     ∧ (∀ p, p ∈ [2%positive; 3%positive; 4%positive] →
             ∃ n', h' !! p = Some n' ∧ getSuccessor n' = None)
     ∧ (∀ p n, example_chain_heap !! p = Some n →
          ∃ n', h' !! p = Some n'
                ∧ getKind n' = getKind n ∧ getID n' = getID n
                ∧ Name n' = Name n ∧ getBB n' = getBB n
                ∧ (p ≠ 1%positive → derived n' = derived n)
                ∧ getSuccessor n'
                  = if bool_decide (p ∈ [2%positive; 3%positive; 4%positive])
                    then None else getSuccessor n)
     ∧ dom h' = dom example_chain_heap)
  ∧ (∃ h' : Heap,
       sequencing example_chain_heap [2; 3; 4; 5; 4]%positive h'
       ∧ ∀ p n', h' !! p = Some n' → getSuccessor n' = None).
Proof.
  destruct (addNode_appends_successor_chain example_chain_heap)
    as [Hcall Hpass].
  split.
  - apply (Hcall 1%positive 2%positive
             (SequenceNode_createEmpty "sequence"%string)
             SequenceNode.createEmpty [2; 3; 4]%positive).
    + reflexivity.
    + reflexivity.
    + eapply chain_next; [reflexivity | reflexivity |].
      eapply chain_next; [reflexivity | reflexivity |].
      eapply chain_last; reflexivity.
  - assert (Hrun : ∃ h', sequencing example_chain_heap
                           [2; 3; 4; 5; 4]%positive h').
    { eexists.
      change [2; 3; 4; 5; 4]%positive
        with (([] ++ [2%positive; 3%positive; 4%positive])
              ++ [5%positive; 4%positive]).
      eapply (sequencing_addNode _ _ _ 1%positive 5%positive).
      - eapply (sequencing_addNode _ _ _ 1%positive 2%positive).
        + apply sequencing_start.
        + eapply chain_next; [reflexivity | reflexivity |].
          eapply chain_next; [reflexivity | reflexivity |].
          eapply chain_last; reflexivity.
        + vm_compute. reflexivity.
      - eapply chain_next; [vm_compute; reflexivity | reflexivity |].
        eapply chain_last; [vm_compute; reflexivity | reflexivity].
      - vm_compute. reflexivity. }
    destruct Hrun as [h' Hrun]. exists h'. split; [exact Hrun|].
    apply (Hpass _ h' Hrun).
    intros p n Hp Hs. unfold example_chain_heap in Hp.
    apply elem_of_list_to_map_2 in Hp.
    repeat (apply elem_of_cons in Hp as [Hp | Hp];
            [ simplify_eq; first [ by (exfalso; apply Hs)
                                 | apply list_elem_of_In; simpl; tauto ] | ]).
    by apply elem_of_nil in Hp.
Defined.

(** * Sequences and switches: removing nodes and cases *)

(** X1: [removeNode] takes every occurrence of the node out of the
    sequence and nothing else: the node is no longer a child, the other
    children stay, in the order they had, and the sequence shrinks by the
    number of occurrences; a node that is not a child is removed at no
    effect, and removing a node that [push_back] has just added to a
    sequence that did not have it gives the sequence back. *)
Theorem removeNode_removes_all (Node : option ptr) (this : SequenceNode.t) :
  (Node ∉ SequenceNode.NodeVec (SequenceNode.removeNode Node this))
  ∧ (∀ P, P ≠ Node →
       P ∈ SequenceNode.NodeVec (SequenceNode.removeNode Node this)
       ↔ P ∈ SequenceNode.NodeVec this)
  ∧ sublist (SequenceNode.NodeVec (SequenceNode.removeNode Node this))
            (SequenceNode.NodeVec this)
  ∧ (SequenceNode.length (SequenceNode.removeNode Node this)
     + List.length (filter (λ x, x = Node) (SequenceNode.NodeVec this))
     = SequenceNode.length this)%nat
  ∧ (Node ∉ SequenceNode.NodeVec this → SequenceNode.removeNode Node this = this)
  ∧ (Node ∉ SequenceNode.NodeVec this →
     SequenceNode.removeNode Node (SequenceNode.push_back Node this) = this).
Proof.
  destruct this as [v]. unfold SequenceNode.removeNode, SequenceNode.length,
    SequenceNode.push_back. simpl.
  split; [|split; [|split; [|split; [|split]]]].
  - intros Hin. apply list_elem_of_filter in Hin as [Hne _]. done.
  - intros P HP. rewrite list_elem_of_filter. tauto.
  - apply sublist_filter.
  - induction v as [|x v IH]; [done|].
    rewrite !filter_cons. repeat case_decide; simplify_eq; simpl in *; lia.
  - intros Hnot. f_equal. induction v as [|x v IH]; [done|].
    rewrite filter_cons. case_decide as Hx.
    + f_equal. apply IH. intros Hin. apply Hnot. by right.
    + exfalso. apply Hnot. subst x. left.
  - intros Hnot. f_equal. rewrite filter_app, filter_cons.
    rewrite decide_False by (by intros []). rewrite filter_nil, app_nil_r.
    induction v as [|x v IH]; [done|].
    rewrite filter_cons. case_decide as Hx.
    + f_equal. apply IH. intros Hin. apply Hnot. by right.
    + exfalso. apply Hnot. subst x. left.
Qed.

Lemma removeNode_removes_all_witness :
  SequenceNode.removeNode (Some 2%positive) example_sequence
  = SequenceNode.mk [Some 3%positive; None]
  ∧ SequenceNode.removeNode (Some 7%positive) example_sequence = example_sequence
  ∧ SequenceNode.removeNode (Some 7%positive)
      (SequenceNode.push_back (Some 7%positive) example_sequence)
    = example_sequence.
Proof.
  assert (Hnot : Some 7%positive ∉ SequenceNode.NodeVec example_sequence).
  { intros Hin. repeat (apply elem_of_cons in Hin as [Hin | Hin]; [done |]).
    by apply elem_of_nil in Hin. }
  pose proof (removeNode_removes_all (Some 7%positive) example_sequence)
    as (_ & _ & _ & _ & Hsame & Hround).
  split; [reflexivity|]. split; [by apply Hsame | by apply Hround].
Defined.

(** X2: [removeCaseN] fails its assertion when the index is not the index
    of a case; otherwise it removes that case alone: there is one case
    less, the cases before it stay where they are, the cases after it move
    down by one, and the other fields of the switch are left alone. *)
Theorem removeCaseN_bounds (N : nat) (this : SwitchNode.t) :
  (SwitchNode.cases_size this ≤ N →
   SwitchNode.removeCaseN N this = Abort "assertion failed"%string)
  ∧ (N < SwitchNode.cases_size this →
     ∃ this',
       SwitchNode.removeCaseN N this = Ok this'
       ∧ S (SwitchNode.cases_size this') = SwitchNode.cases_size this
       ∧ (∀ i, i < N → SwitchNode.cases this' !! i = SwitchNode.cases this !! i)
       ∧ (∀ i, N ≤ i →
            SwitchNode.cases this' !! i = SwitchNode.cases this !! (S i))
       ∧ SwitchNode.Condition this' = SwitchNode.Condition this
       ∧ SwitchNode.IsWeaved this' = SwitchNode.IsWeaved this
       ∧ SwitchNode.NeedStateVariable this' = SwitchNode.NeedStateVariable this
       ∧ SwitchNode.NeedLoopBreakDispatcher this'
         = SwitchNode.NeedLoopBreakDispatcher this
       ∧ SwitchNode.DKind this' = SwitchNode.DKind this).
Proof.
  unfold SwitchNode.removeCaseN, SwitchNode.cases_size, SwitchNode.cases.
  split.
  - intros Hge. rewrite bool_decide_eq_false_2 by lia. done.
  - intros Hlt. rewrite bool_decide_eq_true_2 by done. simpl.
    eexists. split; [reflexivity|]. simpl.
    split; [|split; [|split; [|done]]].
    + rewrite List.length_app, length_take, length_drop. lia.
    + intros i Hi. rewrite lookup_app_l by (rewrite length_take; lia).
      by rewrite lookup_take_lt.
    + intros i Hi. rewrite lookup_app_r by (rewrite length_take; lia).
      rewrite length_take, lookup_drop. f_equal. lia.
Qed.

Lemma removeCaseN_bounds_witness :
  SwitchNode.removeCaseN 3 example_switch = Abort "assertion failed"%string
  ∧ ∃ this',
      SwitchNode.removeCaseN 0 example_switch = Ok this'
      ∧ S (SwitchNode.cases_size this') = SwitchNode.cases_size example_switch
      ∧ SwitchNode.cases this' !! 0%nat = Some (∅, Some 11%positive).
Proof.
  pose proof (removeCaseN_bounds 3 example_switch) as [Hout _].
  pose proof (removeCaseN_bounds 0 example_switch) as [_ Hin].
  split; [apply Hout; vm_compute; lia|].
  destruct Hin as (this' & Hrun & Hsize & _ & Hafter & _); [vm_compute; lia|].
  exists this'. split; [done|]. split; [done|].
  rewrite (Hafter 0%nat) by lia. reflexivity.
Defined.

Lemma first_default_split (v : list (gset N * option ptr)) :
  List.filter is_default v ≠ [] →
  ∃ v1 child v2,
    v = v1 ++ (∅, child) :: v2 ∧ List.filter is_default v1 = [].
Proof.
  induction v as [|[L S] v IH]; simpl; [done|].
  unfold is_default at 1. simpl. unfold SwitchNode.empty_labels.
  case_bool_decide as HL.
  - intros _. subst L. by exists [], S, v.
  - intros Hne. destruct (IH Hne) as (v1 & child & v2 & -> & Hv1).
    exists ((L, S) :: v1), child, v2. split; [done|]. simpl.
    unfold is_default at 1. simpl. unfold SwitchNode.empty_labels.
    by rewrite bool_decide_eq_false_2.
Qed.

Lemma is_default_empty child : is_default (∅, child) = true.
Proof. unfold is_default, SwitchNode.empty_labels. by apply bool_decide_eq_true_2. Qed.

Lemma filter_default_lookup (v : list (gset N * option ptr)) i c :
  List.filter is_default v = [] → v !! i = Some c → fst c ≠ ∅.
Proof.
  intros Hv Hi. apply (proj1 (filter_default_nil v) Hv).
  by eapply list_elem_of_lookup_2.
Qed.

(** X3: [removeDefault] never fails: the assertion of [removeCaseN] it
    goes through cannot fire.  It leaves a switch without default case as
    it is, and otherwise removes the first case without labels and that
    case only, so that there is one default case less. *)
Theorem removeDefault_first_default (this : SwitchNode.t) :
  ∃ this',
    SwitchNode.removeDefault this = Ok this'
    ∧ ((∀ c, c ∈ SwitchNode.cases this → fst c ≠ ∅) → this' = this)
    ∧ (∀ i child,
         SwitchNode.cases this !! i = Some (∅, child) →
         (∀ j c, j < i → SwitchNode.cases this !! j = Some c → fst c ≠ ∅) →
         SwitchNode.cases this' = delete i (SwitchNode.cases this))
    ∧ List.length (List.filter is_default (SwitchNode.cases this'))
      = pred (List.length (List.filter is_default (SwitchNode.cases this)))
    ∧ SwitchNode.Condition this' = SwitchNode.Condition this
    ∧ SwitchNode.IsWeaved this' = SwitchNode.IsWeaved this
    ∧ SwitchNode.DKind this' = SwitchNode.DKind this.
Proof.
  unfold SwitchNode.cases.
  destruct (decide (List.filter is_default (SwitchNode.LabelCaseVec this) = []))
    as [Hnone | Hsome].
  - exists this. split; [by apply removeDefault_loop_none|].
    split; [done|]. split.
    + intros i child Hi _. exfalso.
      by apply (filter_default_lookup _ _ _ Hnone Hi).
    + by rewrite Hnone.
  - destruct (first_default_split _ Hsome) as (v1 & child & v2 & Hv & Hv1).
    assert (Hrun : SwitchNode.removeDefault this
                   = Ok (SwitchNode.set_LabelCaseVec (v1 ++ v2) this)).
    { unfold SwitchNode.removeDefault. rewrite Hv at 1.
      rewrite removeDefault_loop_middle by done. simpl.
      unfold SwitchNode.removeCaseN. rewrite Hv.
      rewrite bool_decide_eq_true_2
        by (rewrite List.length_app; simpl; lia).
      simpl. do 2 f_equal.
      rewrite take_app_length, drop_app_ge by lia.
      by replace (S (length v1) - length v1)%nat with 1%nat by lia. }
    eexists. split; [exact Hrun|]. simpl.
    split; [|split; [|split; [|done]]].
    + intros Hall. exfalso. apply (Hall (∅, child)); [|done].
      rewrite Hv. apply elem_of_app. right. left.
    + intros i child' Hi Hfirst. rewrite Hv in Hi, Hfirst |- *.
      assert (i = length v1) as ->.
      { destruct (Nat.lt_trichotomy i (length v1)) as [Hlt | [-> | Hgt]]; [| done |].
        - rewrite lookup_app_l in Hi by done.
          by destruct (filter_default_lookup _ _ _ Hv1 Hi).
        - exfalso. apply (Hfirst (length v1) (∅, child) Hgt); [|done].
          by rewrite list_lookup_middle. }
      by rewrite delete_middle.
    + rewrite Hv. rewrite !List.filter_app. simpl.
      rewrite is_default_empty, Hv1. done.
Qed.

Lemma removeDefault_first_default_witness :
  ∃ this',
    SwitchNode.removeDefault example_switch_two_defaults = Ok this'
    ∧ SwitchNode.cases this'
      = [({[ 1%N ]}, Some 11%positive); (∅, Some 12%positive)]
    ∧ SwitchNode.removeDefault example_switch_no_default
      = Ok example_switch_no_default.
Proof.
  destruct (removeDefault_first_default example_switch_two_defaults)
    as (this' & Hrun & _ & Hfirst & _).
  destruct (removeDefault_first_default example_switch_no_default)
    as (same & Hrun' & Hsame & _).
  exists this'. split; [done|]. split.
  - rewrite (Hfirst 0%nat (Some 10%positive)); [reflexivity | reflexivity |].
    intros j c Hj. lia.
  - rewrite Hrun'. f_equal. apply Hsame. intros c Hc.
    apply elem_of_cons in Hc as [-> | Hc]; [done|].
    apply elem_of_cons in Hc as [-> | Hc]; [done|].
    by apply elem_of_nil in Hc.
Defined.

(** X4: on a switch with at most one default case, [removeDefault] leaves
    a switch without default case: afterwards [getDefault] returns
    [nullptr], [hasDefault] returns false, and a second [removeDefault]
    changes nothing. *)
Theorem removeDefault_then_no_default (this this' : SwitchNode.t) :
  at_most_one_default this →
  SwitchNode.removeDefault this = Ok this' →
  (∀ c, c ∈ SwitchNode.cases this' → fst c ≠ ∅)
  ∧ SwitchNode.getDefault this' = Ok None
  ∧ SwitchNode.hasDefault this' = Ok false
  ∧ SwitchNode.removeDefault this' = Ok this'
  ∧ at_most_one_default this'.
Proof.
  intros Hone Hrun.
  assert (Hnone : List.filter is_default (SwitchNode.LabelCaseVec this') = []).
  { unfold at_most_one_default in Hone.
    destruct (decide (List.filter is_default (SwitchNode.LabelCaseVec this) = []))
      as [Hn | Hsome].
    - unfold SwitchNode.removeDefault in Hrun.
      rewrite removeDefault_loop_none in Hrun by done. by simplify_eq.
    - destruct (first_default_split _ Hsome) as (v1 & child & v2 & Hv & Hv1).
      unfold SwitchNode.removeDefault in Hrun. rewrite Hv in Hrun at 1.
      rewrite removeDefault_loop_middle in Hrun by done. simpl in Hrun.
      unfold SwitchNode.removeCaseN in Hrun. rewrite Hv in Hrun.
      rewrite bool_decide_eq_true_2 in Hrun
        by (rewrite List.length_app; simpl; lia).
      simpl in Hrun. simplify_eq. simpl.
      rewrite take_app_length, drop_app_ge by lia.
      replace (S (length v1) - length v1)%nat with 1%nat by lia. simpl.
      rewrite Hv, List.filter_app in Hone. simpl in Hone.
      rewrite is_default_empty, Hv1 in Hone. simpl in Hone.
      rewrite List.filter_app, Hv1. simpl. rewrite drop_0.
      destruct (List.filter is_default v2); [done | simpl in Hone; lia]. }
  assert (Hget : SwitchNode.getDefault this' = Ok None)
    by (by apply getDefault_loop_none).
  split; [by apply filter_default_nil|]. split; [done|].
  split; [unfold SwitchNode.hasDefault; by rewrite Hget|].
  split; [by apply removeDefault_loop_none|].
  unfold at_most_one_default. rewrite Hnone. simpl. lia.
Qed.

Lemma removeDefault_then_no_default_witness :
  SwitchNode.getDefault
    (SwitchNode.set_LabelCaseVec
       [({[ 3%N ]}, Some 10%positive); ({[ 4%N; 5%N ]}, Some 12%positive)]
       example_switch) = Ok None.
Proof.
  apply (removeDefault_then_no_default example_switch).
  - vm_compute. lia.
  - reflexivity.
Defined.

Lemma getDefault_loop_abort v : ∀ D m,
  SwitchNode.getDefault_loop v D = Abort m → m = "assertion failed"%string.
Proof.
  induction v as [|[L S] v IH]; intros D m; simpl; [done|].
  destruct (SwitchNode.empty_labels L); [|apply IH].
  destruct D; simpl; [by intros [= <-] | apply IH].
Qed.

Lemma getDefault_loop_returns v : ∀ D d,
  SwitchNode.getDefault_loop v D = Ok d →
  (∀ i c, v !! i = Some (∅, Some c) →
          d = Some c ∧ ∀ j c', i < j → v !! j = Some c' → fst c' ≠ ∅)
  ∧ (D ≠ None → d = D ∧ ∀ j c', v !! j = Some c' → fst c' ≠ ∅)
  ∧ (d = D ∨ ∃ i, v !! i = Some (∅, d)).
Proof.
  induction v as [|[L Child] v IH]; intros D d; simpl.
  - intros [= <-]. split; [done|]. split; [|by left]. by intros _.
  - unfold SwitchNode.empty_labels. case_bool_decide as HL.
    + subst L. destruct D as [D|]; simpl; [done|]. intros Hrun.
      destruct (IH _ _ Hrun) as (Hlast & Hkeep & Hfrom).
      split; [|split; [done|]].
      * intros [|i] c Hi; simpl in Hi.
        -- simplify_eq. destruct (Hkeep ltac:(done)) as [-> Hno].
           split; [done|]. intros [|j] c' Hj Hc'; [lia|]. by eapply Hno.
        -- destruct (Hlast i c Hi) as [-> Hno]. split; [done|].
           intros [|j] c' Hj Hc'; [lia|]. apply (Hno j); [lia | done].
      * right. destruct Hfrom as [-> | [i Hi]]; [by exists 0%nat | by exists (S i)].
    + intros Hrun. destruct (IH _ _ Hrun) as (Hlast & Hkeep & Hfrom).
      split; [|split].
      * intros [|i] c Hi; simpl in Hi; [by simplify_eq|].
        destruct (Hlast i c Hi) as [-> Hno]. split; [done|].
        intros [|j] c' Hj Hc'; [lia|]. apply (Hno j); [lia | done].
      * intros HD. destruct (Hkeep HD) as [-> Hno]. split; [done|].
        intros [|j] c' Hj; simpl in Hj; [by simplify_eq | by eapply Hno].
      * destruct Hfrom as [-> | [i Hi]]; [by left | right; by exists (S i)].
Qed.

(** X5: the assertion of [getDefault] fires exactly when a case without
    labels whose child is not null is followed by another case without
    labels.  When [getDefault] returns, a default case with a child is the
    last default case of the switch and its child is what is returned; what
    is returned is null or the child of a default case. *)
Theorem getDefault_assertion (this : SwitchNode.t) :
  (∀ i j c c', i < j →
     SwitchNode.cases this !! i = Some (∅, Some c) →
     SwitchNode.cases this !! j = Some (∅, c') →
     SwitchNode.getDefault this = Abort "assertion failed"%string)
  ∧ (∀ d, SwitchNode.getDefault this = Ok d →
       (∀ i c, SwitchNode.cases this !! i = Some (∅, Some c) →
          d = Some c
          ∧ ∀ j c', i < j → SwitchNode.cases this !! j = Some c' → fst c' ≠ ∅)
       ∧ (d = None ∨ ∃ i, SwitchNode.cases this !! i = Some (∅, d))).
Proof.
  unfold SwitchNode.getDefault, SwitchNode.cases. split.
  - intros i j c c' Hij Hi Hj.
    destruct (SwitchNode.getDefault_loop (SwitchNode.LabelCaseVec this) None)
      as [d|m] eqn:Hrun.
    + destruct (getDefault_loop_returns _ _ _ Hrun) as (Hlast & _).
      destruct (Hlast i c Hi) as [_ Hno]. by destruct (Hno j _ Hij Hj).
    + by rewrite (getDefault_loop_abort _ _ _ Hrun).
  - intros d Hrun.
    destruct (getDefault_loop_returns _ _ _ Hrun) as (Hlast & _ & Hfrom).
    split; [done|]. destruct Hfrom as [-> | ?]; [by left | by right].
Qed.

Lemma getDefault_assertion_witness :
  SwitchNode.getDefault example_switch_two_defaults
  = Abort "assertion failed"%string
  ∧ SwitchNode.getDefault example_switch_null_then_default
    = Ok (Some 12%positive).
Proof.
  split.
  - destruct (getDefault_assertion example_switch_two_defaults) as [Hfire _].
    apply (Hfire 0%nat 2%nat 10%positive (Some 12%positive)); [lia | done | done].
  - destruct (getDefault_assertion example_switch_null_then_default)
      as [_ Hret].
    destruct (SwitchNode.getDefault example_switch_null_then_default)
      as [d|m] eqn:Hrun; [|vm_compute in Hrun; discriminate].
    destruct (Hret d eq_refl) as [Hlast _].
    by destruct (Hlast 2%nat 12%positive eq_refl) as [-> _].
Defined.

(** * The dispatching calls on particular nodes *)

(** X6: [updateASTNodesPointers] looks the hybrid successor up before it
    looks at the kind: on a node of any kind whose successor is not null
    and is not a key of the map, the call fails with [std::out_of_range].
    A [CodeNode], [BreakNode] or [SetNode] has nothing else to redirect:
    the call returns exactly when the successor is null or a key of the
    map, and then only [Successor] has changed; with a null successor the
    map is not looked at. *)
Theorem updateASTNodesPointers_successor_lookup
    (SubstitutionMap : ASTNodeMap) (this : ASTNode) :
  (∀ p, getSuccessor this = Some p → SubstitutionMap !! p = None →
        updateASTNodesPointers SubstitutionMap this
        = Abort "std::out_of_range"%string)
  ∧ (getKind this = NodeKind_value NK_Code
     ∨ getKind this = NodeKind_value NK_Break
     ∨ getKind this = NodeKind_value NK_Set →
     (getSuccessor this = None →
      updateASTNodesPointers SubstitutionMap this = Ok this)
     ∧ (∀ p q, getSuccessor this = Some p → SubstitutionMap !! p = Some q →
          updateASTNodesPointers SubstitutionMap this
          = Ok (set_Successor q this))
     ∧ (∀ this', updateASTNodesPointers SubstitutionMap this = Ok this' →
          (∀ p, getSuccessor this = Some p → is_Some (SubstitutionMap !! p))
          ∧ getKind this' = getKind this ∧ getID this' = getID this
          ∧ Name this' = Name this ∧ getBB this' = getBB this
          ∧ derived this' = derived this)).
Proof.
  destruct this as [K bb nm S id d]. unfold getSuccessor, getKind. simpl.
  split.
  - intros p -> Hp. unfold updateASTNodesPointers. simpl.
    unfold map_at. by rewrite Hp.
  - intros HK.
    assert (Hrun : updateASTNodesPointers SubstitutionMap
                     (mkASTNode K bb nm S id d)
                   = S' ← redirect SubstitutionMap S;
                     Ok (mkASTNode K bb nm S' id d)).
    { unfold updateASTNodesPointers. simpl.
      destruct (redirect SubstitutionMap S) as [S'|m]; simpl; [|done].
      unfold getKind. simpl. by destruct HK as [-> | [-> | ->]]. }
    rewrite Hrun. split; [by intros ->|]. split.
    + intros p q -> Hp. simpl. unfold map_at. by rewrite Hp.
    + intros this'. destruct S as [p|]; simpl.
      * unfold map_at. destruct (SubstitutionMap !! p) as [q|] eqn:Hp; simpl;
          [|done].
        intros [= <-]. simpl. split; [|done]. intros ? [= <-]. eauto.
      * intros [= <-]. done.
Qed.

Lemma updateASTNodesPointers_successor_lookup_witness :
  updateASTNodesPointers ∅ example_if = Abort "std::out_of_range"%string
  ∧ updateASTNodesPointers example_chained_map example_code_with_successor
    = Ok (set_Successor (Some 2%positive) example_code_with_successor).
Proof.
  split.
  - destruct (updateASTNodesPointers_successor_lookup ∅ example_if)
      as [Hmiss _].
    apply (Hmiss 4%positive); reflexivity.
  - destruct (updateASTNodesPointers_successor_lookup example_chained_map
                example_code_with_successor) as [_ Hleaf].
    destruct Hleaf as (_ & Hkey & _); [left; reflexivity|].
    apply (Hkey 1%positive); reflexivity.
Defined.

(** X7: for a [BreakNode], a [ContinueNode] and a [SwitchBreakNode],
    [isEqual] looks at nothing but the kind of the other node: it answers
    false to [nullptr] and otherwise answers whether the other node has the
    same kind, whatever the fields, the successors, the IDs and the names
    of the two nodes; it does not recurse. *)
Theorem isEqual_compares_kind_only
    (fuel : nat) (h : Heap) (a : ptr) (na : ASTNode) :
  h !! a = Some na →
  getKind na = NodeKind_value NK_Break
  ∨ getKind na = NodeKind_value NK_Continue
  ∨ getKind na = NodeKind_value NK_SwitchBreak →
  isEqual (S fuel) h a None = Some (Ok false)
  ∧ (∀ b nb, h !! b = Some nb →
       isEqual (S fuel) h a (Some b)
       = Some (Ok (bool_decide (getKind nb = getKind na))))
  ∧ isEqual (S fuel) h a (Some a) = Some (Ok true).
Proof.
  intros Ha HK.
  assert (Hb : ∀ b nb, h !! b = Some nb →
       isEqual (S fuel) h a (Some b)
       = Some (Ok (bool_decide (getKind nb = getKind na)))).
  { intros b nb Hb. cbn [isEqual]. unfold deref. rewrite Ha. cbn [and_then].
    unfold BreakNode_nodeIsEqual, ContinueNode_nodeIsEqual,
      SwitchBreakNode_nodeIsEqual, dyn_cast_or_null, deref.
    rewrite Hb. simpl.
    destruct HK as [HK | [HK | HK]]; rewrite HK; simpl;
      case_bool_decide as Hd; simpl in Hd;
      match goal with
      | |- context [ (?x =? ?y)%Z ] =>
          destruct (Z.eqb_spec x y) as [He | Hne]
      end; simpl; done. }
  split; [|split; [done|]].
  - cbn [isEqual]. unfold deref. rewrite Ha. cbn [and_then].
    by destruct HK as [-> | [-> | ->]].
  - rewrite (Hb a na Ha). by rewrite bool_decide_eq_true_2.
Qed.

Lemma isEqual_compares_kind_only_witness :
  isEqual 1 example_kind_only_heap 1 None = Some (Ok false)
  ∧ isEqual 1 example_kind_only_heap 1 (Some 2%positive) = Some (Ok true)
  ∧ isEqual 1 example_kind_only_heap 1 (Some 3%positive) = Some (Ok false).
Proof.
  destruct (isEqual_compares_kind_only 0 example_kind_only_heap 1
              (mkASTNode 2 None "continue"%string None 1
                 (AsContinue (ContinueNode.mk None false))))
    as (Hnull & Hother & _); [reflexivity | right; left; reflexivity |].
  split; [exact Hnull|]. split.
  - by rewrite (Hother 2%positive _ eq_refl).
  - by rewrite (Hother 3%positive _ eq_refl).
Defined.

(** X8: on an object whose kind is none of the enumerators the two
    dispatching calls disagree: [isEqual] aborts, whatever its argument,
    while [Clone] returns [nullptr] and allocates nothing. *)
Theorem unknown_kind_isEqual_Clone
    (fuel : nat) (h : Heap) (this : ptr) (n : ASTNode) (Node : option ptr) :
  h !! this = Some n → NodeKind_of_value (getKind n) = None →
  isEqual (S fuel) h this Node = Some (Abort "revng_abort"%string)
  ∧ Clone this h = Ok (None, h).
Proof.
  intros Hn HK. split.
  - cbn [isEqual]. unfold deref. rewrite Hn. cbn [and_then]. by rewrite HK.
  - unfold Clone. by rewrite Hn, HK.
Qed.

Lemma unknown_kind_isEqual_Clone_witness :
  isEqual 1 example_kind_only_heap 4 (Some 4%positive)
  = Some (Abort "revng_abort"%string)
  ∧ Clone 4 example_kind_only_heap = Ok (None, example_kind_only_heap).
Proof.
  apply (unknown_kind_isEqual_Clone 0 example_kind_only_heap 4
           example_unknown_kind); reflexivity.
Defined.

(** X9: a [SetNode] that has been constructed is a node of kind [NK_Set]
    with ID 0, the name and the state variable value of its CFG vertex and
    the successor it was given, and the assertion of [getDispatcherKind]
    cannot fire on it: the getter returns [DK_Entry] for an [EntrySet]
    vertex and [DK_Exit] for an [ExitSet] vertex. *)
Theorem SetNode_ctor_getDispatcherKind
    (CFGNode : BasicBlockNode.t) (PostDom : option ptr) (n : ASTNode) :
  SetNode_ctor CFGNode PostDom = Ok n →
  ∃ o k,
    derived n = AsSet o
    ∧ WellTyped n ∧ getKind n = NodeKind_value NK_Set
    ∧ SetNode.getStateVariableValue o
      = BasicBlockNode.getStateVariableValue CFGNode
    ∧ SetNode.getDispatcherKind o = Ok k
    ∧ (k = DK_Entry ↔
       BasicBlockNode.getDispatcherType CFGNode = BasicBlockNode.EntrySet)
    ∧ (k = DK_Exit ↔
       BasicBlockNode.getDispatcherType CFGNode = BasicBlockNode.ExitSet)
    ∧ getSuccessor n = PostDom ∧ getID n = 0%N
    ∧ Name n = BasicBlockNode.getNameStr CFGNode
    ∧ isDummy n = false.
Proof.
  unfold SetNode_ctor.
  destruct (BasicBlockNode.getDispatcherType CFGNode) eqn:Ht; simpl; try done;
    intros [= <-]; eexists _, _; repeat split; try done.
Qed.

Lemma SetNode_ctor_getDispatcherKind_witness :
  ∃ n o,
    SetNode_ctor example_exit_set_vertex (Some 2%positive) = Ok n
    ∧ derived n = AsSet o
    ∧ SetNode.getDispatcherKind o = Ok DK_Exit
    ∧ SetNode.getStateVariableValue o = 3%N.
Proof.
  destruct (SetNode_ctor_getDispatcherKind example_exit_set_vertex
              (Some 2%positive)
              (ASTNode_ctor NK_Set example_exit_set_vertex (Some 2%positive)
                 (AsSet (SetNode.mk 3 DK_Exit))) eq_refl)
    as (o & k & Hd & _ & _ & Hv & Hk & _ & Hexit & _).
  exists (ASTNode_ctor NK_Set example_exit_set_vertex (Some 2%positive)
            (AsSet (SetNode.mk 3 DK_Exit))), o.
  split; [reflexivity|]. split; [done|]. split; [|done].
  rewrite Hk. f_equal. by apply Hexit.
Defined.

(** * Promotion of loops *)

Lemma ScsNode_do_all_promoted cs : ∀ this,
  ScsNode.LoopType this ≠ ScsNode.WhileTrue →
  match List.filter is_promotion cs with
  | [] => ∃ this', ScsNode_do_all cs this = Ok this'
                   ∧ ScsNode.LoopType this' = ScsNode.LoopType this
                   ∧ ScsNode.RelatedCondition this'
                     = ScsNode.RelatedCondition this
  | _ => ScsNode_do_all cs this = Abort "assertion failed"%string
  end.
Proof.
  induction cs as [|[Node|C|C] cs IH]; intros this Ht; simpl.
  - by exists this.
  - apply (IH (ScsNode.setBody Node this)). done.
  - unfold ScsNode.setWhile. by rewrite bool_decide_eq_false_2.
  - unfold ScsNode.setDoWhile. by rewrite bool_decide_eq_false_2.
Qed.

Lemma ScsNode_do_all_WhileTrue cs : ∀ this,
  ScsNode.LoopType this = ScsNode.WhileTrue →
  match List.filter is_promotion cs with
  | [] => ∃ this', ScsNode_do_all cs this = Ok this'
                   ∧ ScsNode.LoopType this' = ScsNode.WhileTrue
                   ∧ ScsNode.RelatedCondition this'
                     = ScsNode.RelatedCondition this
  | [call_setWhile C] =>
      ∃ this', ScsNode_do_all cs this = Ok this'
               ∧ ScsNode.LoopType this' = ScsNode.While
               ∧ ScsNode.RelatedCondition this' = C
  | [call_setDoWhile C] =>
      ∃ this', ScsNode_do_all cs this = Ok this'
               ∧ ScsNode.LoopType this' = ScsNode.DoWhile
               ∧ ScsNode.RelatedCondition this' = C
  | _ => ScsNode_do_all cs this = Abort "assertion failed"%string
  end.
Proof.
  induction cs as [|[Node|C|C] cs IH]; intros this Ht; simpl.
  - by exists this.
  - apply (IH (ScsNode.setBody Node this)). done.
  - unfold ScsNode.setWhile. rewrite Ht. simpl.
    pose proof (ScsNode_do_all_promoted cs
                  (ScsNode.mk (ScsNode.Body this) ScsNode.While C)
                  ltac:(done)) as Hrest.
    destruct (List.filter is_promotion cs); [|done].
    destruct Hrest as (this' & Hrun & Hl & Hc). by exists this'.
  - unfold ScsNode.setDoWhile. rewrite Ht. simpl.
    pose proof (ScsNode_do_all_promoted cs
                  (ScsNode.mk (ScsNode.Body this) ScsNode.DoWhile C)
                  ltac:(done)) as Hrest.
    destruct (List.filter is_promotion cs); [|done].
    destruct Hrest as (this' & Hrun & Hl & Hc). by exists this'.
Qed.

(** X10: a loop is promoted at most once.  A sequence of [setBody],
    [setWhile] and [setDoWhile] calls on a loop that has just been
    constructed goes through exactly when at most one of the calls is a
    [setWhile] or a [setDoWhile]; otherwise an assertion fails.  The loop
    it leaves is [WhileTrue] without related condition when there was no
    such call, and otherwise has the type and the condition of that call,
    whatever the [setBody] calls around it. *)
Theorem ScsNode_promoted_at_most_once
    (Body : option ptr) (cs : list ScsNode_call) :
  (isOk (ScsNode_do_all cs (ScsNode.ctor Body)) = true
   ↔ List.length (List.filter is_promotion cs) ≤ 1)
  ∧ (1 < List.length (List.filter is_promotion cs) →
     ScsNode_do_all cs (ScsNode.ctor Body) = Abort "assertion failed"%string)
  ∧ (∀ this', ScsNode_do_all cs (ScsNode.ctor Body) = Ok this' →
       match List.filter is_promotion cs with
       | [] => ScsNode.isWhileTrue this' = true
               ∧ ScsNode.RelatedCondition this' = None
       | [call_setWhile C] =>
           ScsNode.isWhile this' = true ∧ ScsNode.RelatedCondition this' = C
       | [call_setDoWhile C] =>
           ScsNode.isDoWhile this' = true ∧ ScsNode.RelatedCondition this' = C
       | _ => False
       end).
Proof.
  pose proof (ScsNode_do_all_WhileTrue cs (ScsNode.ctor Body) eq_refl) as H.
  unfold ScsNode.isWhileTrue, ScsNode.isWhile, ScsNode.isDoWhile.
  assert (Hall : ∀ c, In c (List.filter is_promotion cs) → is_promotion c = true)
    by (intros c Hc; by apply List.filter_In in Hc as [_ ?]).
  destruct (List.filter is_promotion cs) as [|c [|c' f]].
  - destruct H as (this' & -> & Hl & Hc). simpl.
    split; [split; [lia | done]|]. split; [lia|].
    intros ? [= <-]. by rewrite Hl.
  - destruct c as [Node|C|C]; simpl.
    + by specialize (Hall (call_setBody Node) ltac:(by left)).
    + destruct H as (this' & -> & Hl & Hc). simpl.
      split; [split; [lia | done]|]. split; [lia|].
      intros ? [= <-]. by rewrite Hl.
    + destruct H as (this' & -> & Hl & Hc). simpl.
      split; [split; [lia | done]|]. split; [lia|].
      intros ? [= <-]. by rewrite Hl.
  - assert (Hrun : ScsNode_do_all cs (ScsNode.ctor Body)
                   = Abort "assertion failed"%string)
      by (by destruct c).
    rewrite Hrun. simpl. split; [split; [done | lia]|]. split; [done|]. done.
Qed.

Lemma ScsNode_promoted_at_most_once_witness :
  ScsNode_do_all
    [call_setWhile (Some 7%positive); call_setBody None;
     call_setDoWhile (Some 8%positive)]
    (ScsNode.ctor (Some 2%positive))
  = Abort "assertion failed"%string
  ∧ ∃ this',
      ScsNode_do_all [call_setBody None; call_setDoWhile (Some 8%positive);
                      call_setBody (Some 3%positive)]
        (ScsNode.ctor (Some 2%positive)) = Ok this'
      ∧ ScsNode.isDoWhile this' = true
      ∧ ScsNode.RelatedCondition this' = Some 8%positive.
Proof.
  split.
  - apply (ScsNode_promoted_at_most_once (Some 2%positive)
             [call_setWhile (Some 7%positive); call_setBody None;
              call_setDoWhile (Some 8%positive)]).
    simpl. lia.
  - eexists. split; [reflexivity|].
    apply (ScsNode_promoted_at_most_once (Some 2%positive)
             [call_setBody None; call_setDoWhile (Some 8%positive);
              call_setBody (Some 3%positive)]).
    reflexivity.
Defined.

Lemma string_of_uint_delimited (d1 : Decimal.uint) : ∀ d2 s1 s2,
  (NilEmpty.string_of_uint d1 ++ " " ++ s1)%string
  = (NilEmpty.string_of_uint d2 ++ " " ++ s2)%string →
  d1 = d2 ∧ s1 = s2.
Proof.
  induction d1 as [|d1 IH|d1 IH|d1 IH|d1 IH|d1 IH|d1 IH|d1 IH|d1 IH|d1 IH|d1 IH];
    intros [|d2|d2|d2|d2|d2|d2|d2|d2|d2|d2] s1 s2 Heq;
    unfold String.append in Heq; simpl in Heq; fold String.append in Heq;
    try discriminate;
    try (injection Heq as Heq; destruct (IH _ _ _ Heq) as [-> ->]; done).
  by injection Heq as ->.
Qed.

(** X11: the name [getName] prints determines the ID and the name of the
    node: two nodes have the same printed name exactly when they have the
    same ID and the same name, so that nodes with different IDs are always
    printed differently. *)
Theorem getName_determines_ID_and_Name (n1 n2 : ASTNode) :
  getName n1 = getName n2 ↔ getID n1 = getID n2 ∧ Name n1 = Name n2.
Proof.
  split; [|unfold getName; by intros [-> ->]].
  unfold getName, to_string. simpl. intros Heq.
  injection Heq as Heq.
  apply (string_of_uint_delimited _ _ ("Name:" ++ Name n1)
           ("Name:" ++ Name n2))%string in Heq as [Hid Hname].
  split.
  - rewrite <- (DecimalN.Unsigned.of_to (getID n1)),
            <- (DecimalN.Unsigned.of_to (getID n2)).
    by rewrite Hid.
  - simpl in Hname. by injection Hname.
Qed.

(** * [addNode] on any store *)

Lemma successor_walk_deterministic (h : Heap) V p l1 :
  successor_walk h V p l1 → ∀ l2, successor_walk h V p l2 → l1 = l2.
Proof.
  induction 1 as [V p n Hp Hs | V p n q l Hp HV Hs Hq IH]; intros l2 H2;
    inversion H2 as [V' p' n' Hp' Hs' | V' p' n' q' l' Hp' HV' Hs' Hq'];
    simplify_eq.
  - done.
  - destruct Hs as [Hs | Hs]; [congruence | done].
  - destruct Hs' as [Hs' | Hs']; [congruence | done].
  - f_equal. by apply IH.
Qed.

(** A walk in the store where the successor of [p0] has been cleared is a
    walk of the store before for which [p0] has been visited, and
    conversely. *)
Lemma successor_walk_restore (h h2 : Heap) p0 :
  (∀ x, Successor <$> (h2 !! x)
        = (λ n, if bool_decide (x = p0) then None else Successor n)
            <$> (h !! x)) →
  ∀ V q l, successor_walk h2 V q l → successor_walk h (V ++ [p0]) q l.
Proof.
  intros H2 V q l. induction 1 as [V p n Hp Hs | V p n q l Hp HV Hs Hq IH].
  - pose proof (H2 p) as Hx. rewrite Hp in Hx.
    destruct (h !! p) as [n0|] eqn:Hp0; [|done]. simpl in Hx.
    apply (walk_stop h _ p n0 Hp0).
    case_bool_decide as Hpp.
    + right. subst p. apply elem_of_app. right. by left.
    + destruct Hs as [Hs | Hs].
      * left. congruence.
      * right. apply elem_of_app. by left.
  - pose proof (H2 p) as Hx. rewrite Hp in Hx.
    destruct (h !! p) as [n0|] eqn:Hp0; [|done]. simpl in Hx.
    case_bool_decide as Hpp; [congruence|].
    apply (walk_next h _ p n0 q l Hp0).
    + rewrite elem_of_app, list_elem_of_singleton. tauto.
    + congruence.
    + exact IH.
Qed.

Lemma successor_walk_cleared (h h2 : Heap) p0 :
  (∀ x, Successor <$> (h2 !! x)
        = (λ n, if bool_decide (x = p0) then None else Successor n)
            <$> (h !! x)) →
  ∀ V' q l, successor_walk h V' q l →
  ∀ V, V' = V ++ [p0] → successor_walk h2 V q l.
Proof.
  intros H2 V' q l.
  induction 1 as [V' p n Hp Hs | V' p n q l Hp HV Hs Hq IH]; intros V ->.
  - pose proof (H2 p) as Hx. rewrite Hp in Hx.
    destruct (h2 !! p) as [n2|] eqn:Hp2; [|done]. simpl in Hx.
    apply (walk_stop h2 _ p n2 Hp2).
    case_bool_decide as Hpp; [left; congruence|].
    destruct Hs as [Hs | Hs].
    + left. congruence.
    + right. apply elem_of_app in Hs as [Hs | Hs]; [done|].
      by apply list_elem_of_singleton in Hs.
  - pose proof (H2 p) as Hx. rewrite Hp in Hx.
    destruct (h2 !! p) as [n2|] eqn:Hp2; [|done]. simpl in Hx.
    rewrite elem_of_app, list_elem_of_singleton in HV.
    rewrite bool_decide_eq_false_2 in Hx by tauto.
    apply (walk_next h2 _ p n2 q l Hp2).
    + tauto.
    + congruence.
    + by apply IH.
Qed.

Lemma after_addNode_step this p0 l p n :
  after_addNode this l p (addNode_step this p0 p n)
  = after_addNode this (p0 :: l) p n.
Proof.
  unfold after_addNode, addNode_step.
  assert (Hmem : bool_decide (p ∈ p0 :: l)
                 = bool_decide (p = p0) || bool_decide (p ∈ l)).
  { destruct (decide (p = p0)) as [-> | Hne].
    - rewrite (bool_decide_eq_true_2 (p0 = p0)) by done.
      by rewrite bool_decide_eq_true_2 by left.
    - rewrite (bool_decide_eq_false_2 (p = p0)) by done. simpl.
      apply bool_decide_ext. rewrite elem_of_cons. tauto. }
  rewrite Hmem.
  destruct (bool_decide (p = this)), (bool_decide (p = p0)),
    (bool_decide (p ∈ l)), n as [? ? ? ? ? []]; simpl; try done;
    unfold set_derived, set_Successor; simpl; by rewrite <- app_assoc.
Qed.

Lemma after_addNode_nil this p n : after_addNode this [] p n = n.
Proof.
  unfold after_addNode.
  rewrite (bool_decide_eq_false_2 (p ∈ [])) by apply not_elem_of_nil.
  destruct (bool_decide (p = this)), n as [? ? ? ? ? [| | | | |[v]| | |]];
    try done.
  unfold set_derived. simpl. by rewrite app_nil_r.
Qed.

Lemma addNode_rec_walk fuel : ∀ (h : Heap) this Node r,
  addNode_rec fuel this Node h = Some r →
  match r with
  | Ok h' =>
      (∃ s Seq, h !! this = Some s ∧ derived s = AsSequence Seq)
      ∧ ∃ l, successor_walk h [] Node l
             ∧ ∀ p, h' !! p = after_addNode this l p <$> (h !! p)
  | Abort _ =>
      ¬ ((∃ s Seq, h !! this = Some s ∧ derived s = AsSequence Seq)
         ∧ ∃ l, successor_walk h [] Node l)
  end.
Proof.
  induction fuel as [|fuel IH]; intros h this Node r; [done|].
  cbn [addNode_rec]. unfold deref at 1.
  destruct (h !! this) as [s|] eqn:Hthis; cbn [and_then].
  2:{ intros [= <-]. by intros [(? & ? & ? & _) _]. }
  unfold cast_SequenceNode.
  destruct (derived s) as [| | | | |Seq| | |] eqn:Hseq; cbn [and_then];
    try (intros [= <-]; intros [(? & ? & ? & ?) _]; congruence).
  set (s1 := set_derived (AsSequence (SequenceNode.push_back (Some Node) Seq)) s).
  set (h1 := <[this := s1]> h).
  assert (Hseq_ok : ∃ s Seq, h !! this = Some s ∧ derived s = AsSequence Seq)
    by eauto.
  unfold deref.
  destruct (h1 !! Node) as [n1|] eqn:Hn1; cbn [and_then].
  2:{ intros [= <-]. intros [_ [l Hl]].
      assert (h !! Node = None) as HNode.
      { unfold h1 in Hn1. destruct (decide (this = Node)) as [-> | Hne].
        - by rewrite lookup_insert_eq in Hn1.
        - by rewrite lookup_insert_ne in Hn1. }
      inversion Hl; congruence. }
  assert (Hn0 : ∃ n0, h !! Node = Some n0 ∧ Successor n0 = Successor n1).
  { unfold h1 in Hn1. destruct (decide (this = Node)) as [-> | Hne].
    - rewrite lookup_insert_eq in Hn1. simplify_eq. eauto.
    - rewrite lookup_insert_ne in Hn1 by done. eauto. }
  destruct Hn0 as (n0 & Hn0 & Hs0).
  assert (Hstep : ∀ p, <[Node := set_Successor None n1]> h1 !! p
                       = addNode_step this Node p <$> (h !! p)).
  { intros p. unfold h1, addNode_step.
    destruct (decide (p = Node)) as [-> | HpN].
    - rewrite lookup_insert_eq, Hn0. simpl.
      rewrite (bool_decide_eq_true_2 (Node = Node)) by done.
      unfold h1 in Hn1. case_bool_decide as HNt.
      + subst. rewrite lookup_insert_eq in Hn1. simplify_eq. by rewrite Hseq.
      + rewrite lookup_insert_ne in Hn1 by done. by simplify_eq.
    - rewrite lookup_insert_ne by done.
      rewrite (bool_decide_eq_false_2 (p = Node)) by done.
      case_bool_decide as Hpt.
      + subst. rewrite lookup_insert_eq, Hthis. simpl. by rewrite Hseq.
      + rewrite lookup_insert_ne by done. destruct (h !! p); reflexivity. }
  unfold getSuccessor.
  destruct (Successor n1) as [q|] eqn:Hs1; cbn [nonnull consumeSuccessor].
  - rewrite Hs1. set (h2 := <[Node := set_Successor None n1]> h1) in *.
    assert (Hsucc : ∀ x, Successor <$> (h2 !! x)
        = (λ n, if bool_decide (x = Node) then None else Successor n)
            <$> (h !! x)).
    { intros x. rewrite Hstep. destruct (h !! x) as [n|]; [|done]. simpl.
      f_equal. unfold addNode_step.
      destruct (bool_decide (x = this)), (bool_decide (x = Node)),
        n as [? ? ? ? ? []]; done. }
    assert (Hseq2 : ∃ s Seq, h2 !! this = Some s ∧ derived s = AsSequence Seq).
    { rewrite Hstep, Hthis. simpl. eexists _, _. split; [done|].
      unfold addNode_step. rewrite (bool_decide_eq_true_2 (this = this)) by done.
      rewrite Hseq. destruct (bool_decide (this = Node)); reflexivity. }
    intros Hrun. specialize (IH h2 this q r Hrun). destruct r as [h'|m].
    + destruct IH as (_ & l & Hl & Hh'). split; [by exists s, Seq|].
      exists (Node :: l). split.
      * apply (walk_next h [] Node n0 q l Hn0); [apply not_elem_of_nil | congruence |].
        by apply (successor_walk_restore h h2 Node Hsucc [] q l).
      * intros p. rewrite Hh', Hstep. destruct (h !! p) as [n|]; [|done].
        simpl. by rewrite after_addNode_step.
    + intros [_ [l Hl]]. apply IH. split; [exact Hseq2|].
      inversion Hl as [V p n Hp Hs | V p n q' l' Hp HV Hs Hq]; simplify_eq.
      * destruct Hs as [Hs | Hs]; [congruence | by apply elem_of_nil in Hs].
      * exists l'.
        by apply (successor_walk_cleared h h2 Node Hsucc [Node] q l' Hq []).
  - intros [= <-]. split; [by exists s, Seq|]. exists [Node]. split.
    + apply (walk_stop h [] Node n0 Hn0). left. congruence.
    + intros p.
      assert (Hh1 : h1 !! p = addNode_step this Node p <$> (h !! p)).
      { rewrite <- Hstep. destruct (decide (p = Node)) as [-> | HpN].
        - rewrite lookup_insert_eq, Hn1. f_equal.
          destruct n1; simpl in *; by subst.
        - by rewrite lookup_insert_ne. }
      rewrite Hh1. destruct (h !! p) as [n|]; [|done]. simpl.
      by rewrite <- after_addNode_step, after_addNode_nil.
Qed.

Lemma addNode_rec_more_fuel fuel : ∀ (h : Heap) this Node r,
  addNode_rec fuel this Node h = Some r →
  addNode_rec (S fuel) this Node h = Some r.
Proof.
  induction fuel as [|fuel IH]; intros h this Node r; [done|].
  intros Hrun. cbn [addNode_rec] in Hrun |- *.
  destruct (deref h this) as [s|]; cbn [and_then] in *; [|done].
  destruct (cast_SequenceNode s) as [Seq|]; cbn [and_then] in *; [|done].
  destruct (deref _ Node) as [n|]; cbn [and_then] in *; [|done].
  destruct (nonnull (getSuccessor n)); [|done].
  destruct (consumeSuccessor n) as [[Next|] n']; [|done].
  by apply IH.
Qed.

Lemma addNode_rec_fuel_le fuel fuel' (h : Heap) this Node r :
  fuel ≤ fuel' →
  addNode_rec fuel this Node h = Some r →
  addNode_rec fuel' this Node h = Some r.
Proof.
  induction 1 as [|fuel' _ IH]; [done|].
  intros Hrun. by apply addNode_rec_more_fuel, IH.
Qed.

(** X12: [addNode] returns on every store, however the hybrid successor
    links run: it clears a link before it follows it, so that on a cycle
    it comes back to a node it has cleared and stops there.  When [this]
    is a sequence and the walk from [Node] (follow the links, stop at a
    node without successor or at a node seen before) stays among live
    nodes, the call appends the nodes of the walk, in order and with the
    node the cycle comes back to appended twice, and clears their
    successors; it changes nothing else.  A call that has returned has
    followed such a walk. *)
Theorem addNode_follows_walk (h : Heap) (this Node : ptr) :
  (∃ r, addNode this Node h = Some r
        ∧ ∀ fuel, size h < fuel → addNode_rec fuel this Node h = Some r)
  ∧ (∀ l s Seq,
       h !! this = Some s → derived s = AsSequence Seq →
       successor_walk h [] Node l →
       ∃ h' : Heap,
         addNode this Node h = Some (Ok h')
         ∧ (∀ p, h' !! p = after_addNode this l p <$> (h !! p))
         ∧ (∃ s', h' !! this = Some s'
                  ∧ derived s'
                    = AsSequence
                        (SequenceNode.mk
                           (SequenceNode.NodeVec Seq ++ (Some <$> l)))))
  ∧ (∀ h' : Heap,
       addNode this Node h = Some (Ok h') →
       ∃ l, successor_walk h [] Node l
            ∧ ∀ p, h' !! p = after_addNode this l p <$> (h !! p)).
Proof.
  destruct (addNode_total h this Node) as [r Hr].
  split; [|split].
  - exists r. split; [done|]. intros fuel Hfuel.
    apply (addNode_rec_fuel_le (S (size h))); [lia | done].
  - intros l s Seq Hthis Hseq Hl.
    pose proof (addNode_rec_walk _ _ _ _ _ Hr) as Hspec.
    destruct r as [h'|m].
    + destruct Hspec as (_ & l' & Hl' & Hh').
      pose proof (successor_walk_deterministic _ _ _ _ Hl' _ Hl) as ->.
      exists h'. split; [done|]. split; [done|].
      rewrite Hh', Hthis. simpl. eexists. split; [done|].
      unfold after_addNode.
      rewrite (bool_decide_eq_true_2 (this = this)) by done.
      destruct (bool_decide (this ∈ l)); simpl; by rewrite Hseq.
    + exfalso. apply Hspec. eauto 6.
  - intros h' Hrun.
    by destruct (addNode_rec_walk _ _ _ _ _ Hrun) as (_ & l & Hl & Hh'); eauto.
Qed.

Lemma addNode_follows_walk_witness :
  ∃ h' : Heap,
    addNode 1 2 example_cycle_heap = Some (Ok h')
    ∧ (∀ p, h' !! p
            = after_addNode 1 [2; 3; 2]%positive p <$> (example_cycle_heap !! p))
    ∧ (∃ s', h' !! 1%positive = Some s'
             ∧ derived s'
               = AsSequence
                   (SequenceNode.mk
                      [Some 2%positive; Some 3%positive; Some 2%positive])).
Proof.
  destruct (addNode_follows_walk example_cycle_heap 1 2) as (_ & Hwalk & _).
  apply (Hwalk [2; 3; 2]%positive (SequenceNode_createEmpty "sequence"%string)
           SequenceNode.createEmpty).
  - reflexivity.
  - reflexivity.
  - eapply walk_next; [reflexivity | apply not_elem_of_nil | reflexivity |].
    eapply walk_next; [reflexivity | | reflexivity |].
    + intros Hin. apply list_elem_of_singleton in Hin. discriminate.
    + eapply walk_stop; [reflexivity|]. right. right. left.
Defined.

(** * Bit liveness *)

Section BitLiveness.

Import TypeShrinking.

Lemma N_size_le (v w : N) : (v < 2 ^ w → N.size v ≤ w)%N.
Proof.
  intros Hv. destruct (decide (v = 0%N)) as [-> | Hne]; [simpl; lia|].
  rewrite N.size_log2 by done.
  apply N.le_succ_l. apply N.log2_lt_pow2; lia.
Qed.

Lemma N_size_lt (v w : N) : (N.size v ≤ w → v < 2 ^ w)%N.
Proof.
  intros Hs. eapply N.lt_le_trans; [apply N.size_gt|].
  apply N.pow_le_mono_r; lia.
Qed.

Lemma APInt_value_lt V : (APInt.value V < 2 ^ APInt.BitWidth V)%N.
Proof. unfold APInt.value. apply N.mod_lt. apply N.pow_nonzero. lia. Qed.

Lemma APInt_active_bits V :
  (APInt.getBitWidth V - APInt.countLeadingZeros V)%N = N.size (APInt.value V).
Proof.
  unfold APInt.getBitWidth, APInt.countLeadingZeros.
  pose proof (N_size_le _ _ (APInt_value_lt V)). lia.
Qed.

Lemma getZExtValue_range V k :
  APInt.getZExtValue V = Ok k → k = APInt.value V ∧ (k < 2 ^ 64)%N.
Proof.
  unfold APInt.getZExtValue, APInt.getActiveBits.
  change (APInt.BitWidth V - APInt.countLeadingZeros V)%N
    with (APInt.getBitWidth V - APInt.countLeadingZeros V)%N.
  rewrite APInt_active_bits.
  destruct (N.leb_spec (APInt.BitWidth V) 64) as [Hw | Hw].
  - intros [= <-]. split; [done|].
    eapply N.lt_le_trans; [apply APInt_value_lt|].
    apply N.pow_le_mono_r; lia.
  - destruct (N.leb_spec (N.size (APInt.value V)) 64) as [Hs | Hs]; [|done].
    intros [= <-]. split; [done|]. by apply N_size_lt.
Qed.

(** The loop of [transferAnd] computes a minimum. *)
Lemma transferAnd_loop_min ops :
  ∃ M : option N, ∀ E R0,
    transferAnd_loop ops E R0
    = match M with
      | None => R0
      | Some m => N.min R0 (N.min E m)
      end.
Proof.
  induction ops as [|Op ops [M IH]]; [by exists None|].
  simpl. destruct (Value.ConstantInt Op) as [C|]; [|by exists M].
  rewrite APInt_active_bits. unfold transferMask.
  destruct M as [m|].
  - exists (Some (N.min (N.size (APInt.value C)) m)). intros E R0.
    rewrite IH. lia.
  - exists (Some (N.size (APInt.value C))). intros E R0. by rewrite IH.
Qed.

Lemma transferAnd_loop_spec ops E : ∀ R0,
  (transferAnd_loop ops E R0 ≤ R0)%N
  ∧ (∀ Op C, Op ∈ ops → Value.ConstantInt Op = Some C →
       (transferAnd_loop ops E R0 ≤ N.size (APInt.value C))%N)
  ∧ (transferAnd_loop ops E R0 = R0
     ∨ transferAnd_loop ops E R0 = E
     ∨ ∃ Op C, Op ∈ ops ∧ Value.ConstantInt Op = Some C
               ∧ transferAnd_loop ops E R0 = N.size (APInt.value C)).
Proof.
  induction ops as [|Op ops IH]; intros R0; simpl.
  - split; [lia|]. split; [|by left].
    intros Op C HOp. by apply elem_of_nil in HOp.
  - destruct (Value.ConstantInt Op) as [C|] eqn:HC.
    + rewrite APInt_active_bits. unfold transferMask.
      set (R1 := N.min R0 (N.min E (N.size (APInt.value C)))).
      destruct (IH R1) as (Hle & Hall & Hone).
      split; [unfold R1 in *; lia|]. split.
      * intros Op' C' [-> | HOp]%elem_of_cons HC'.
        -- simplify_eq. unfold R1 in *. lia.
        -- by eapply Hall.
      * destruct Hone as [Hone | [Hone | (Op' & C' & HOp & HC' & Hone)]].
        -- rewrite Hone. unfold R1.
           destruct (N.min_spec R0 (N.min E (N.size (APInt.value C))))
             as [[_ ->] | [_ ->]]; [by left|].
           destruct (N.min_spec E (N.size (APInt.value C)))
             as [[_ ->] | [_ ->]]; [right; by left|].
           right. right. exists Op, C. split; [left | done].
        -- right. by left.
        -- right. right. exists Op', C'. split; [by right | done].
    + destruct (IH R0) as (Hle & Hall & Hone).
      split; [done|]. split.
      * intros Op' C' [-> | HOp]%elem_of_cons HC'; [congruence|].
        by eapply Hall.
      * destruct Hone as [Hone | [Hone | (Op' & C' & HOp & HC' & Hone)]];
          [by left | right; by left |].
        right. right. exists Op', C'. split; [by right | done].
Qed.

(** X13: the transfer function is monotone, as a data-flow analysis needs
    it: when more bits of the result of an instruction are alive, at least
    as many bits of its operands are.  Whether the call fails an assertion
    does not depend on the number of bits. *)
Theorem applyTransferFunction_monotone
    (Ins : Instruction.t) (E1 E2 : N) :
  (E1 ≤ E2)%N → (E2 ≤ Top)%N →
  match applyTransferFunction Ins E1, applyTransferFunction Ins E2 with
  | Ok R1, Ok R2 => (R1 ≤ R2)%N
  | Abort m1, Abort m2 => m1 = m2
  | _, _ => False
  end.
Proof.
  intros HE HTop. unfold Top in HTop. unfold applyTransferFunction.
  destruct (Instruction.getOpcode Ins) eqn:Hop.
  - unfold transferAnd. rewrite Hop. simpl.
    destruct (transferAnd_loop_min (Instruction.operands Ins)) as [M HM].
    rewrite !HM. destruct M; lia.
  - lia.
  - lia.
  - lia.
  - lia.
  - lia.
  - unfold transferShiftLeft.
    destruct (Instruction.getOperand 1 Ins) as [Op|]; simpl; [|done].
    destruct (Value.ConstantInt Op) as [C|]; [|lia].
    destruct (APInt.getZExtValue C) as [k|] eqn:Hk; simpl; [|done].
    apply getZExtValue_range in Hk as [_ Hk].
    unfold to_uint32, uint64_sub.
    change (2 ^ 64)%N with 18446744073709551616%N in *.
    change (2 ^ 32)%N with 4294967296%N in *.
    destruct (N.ltb_spec E1 k), (N.ltb_spec E2 k);
      try lia; try apply N.le_0_l.
    replace (E1 + 18446744073709551616 - k)%N with (E1 - k + 1 * 18446744073709551616)%N by lia.
    replace (E2 + 18446744073709551616 - k)%N with (E2 - k + 1 * 18446744073709551616)%N by lia.
    rewrite !N.Div0.mod_add.
    rewrite !(N.mod_small _ 18446744073709551616) by lia.
    rewrite !(N.mod_small _ 4294967296) by lia. lia.
  - unfold transferLogicalShiftRight.
    destruct (Instruction.getOperand 1 Ins) as [Op|]; simpl; [|done].
    destruct (Value.ConstantInt Op) as [C|]; [|lia].
    destruct (APInt.getZExtValue C) as [k|] eqn:Hk; simpl; [|done].
    apply getZExtValue_range in Hk as [_ Hk].
    unfold Top. destruct (N.ltb_spec k 4294967295) as [Hlt | Hge]; simpl; [|done].
    unfold to_uint32, uint64_sub, uint32_add.
    change (2 ^ 64)%N with 18446744073709551616%N in *.
    change (2 ^ 32)%N with 4294967296%N in *.
    replace (4294967295 + 18446744073709551616 - k)%N
      with (4294967295 - k + 1 * 18446744073709551616)%N by lia.
    rewrite N.Div0.mod_add.
    rewrite (N.mod_small (4294967295 - k) 18446744073709551616) by lia.
    rewrite (N.mod_small k 4294967296) by lia.
    destruct (N.ltb_spec (4294967295 - k) E1), (N.ltb_spec (4294967295 - k) E2);
      try lia.
    + rewrite N.mod_small by lia.
      pose proof (N.le_min_l (getMaxOperandSize Ins) (E1 + k)).
      pose proof (N.le_min_r (getMaxOperandSize Ins) (E1 + k)). lia.
    + rewrite !N.mod_small by lia. lia.
  - unfold transferArithmeticalShiftRight.
    destruct (Instruction.getOperand 1 Ins) as [Op|]; simpl; [|done].
    destruct (Value.ConstantInt Op) as [C|]; [|lia].
    destruct (APInt.getZExtValue C) as [k|] eqn:Hk; simpl; [|done].
    apply getZExtValue_range in Hk as [_ Hk].
    unfold Top. destruct (N.ltb_spec k 4294967295) as [Hlt | Hge]; simpl; [|done].
    unfold to_uint32, uint64_sub, uint32_add.
    change (2 ^ 64)%N with 18446744073709551616%N in *.
    change (2 ^ 32)%N with 4294967296%N in *.
    replace (4294967295 + 18446744073709551616 - k)%N
      with (4294967295 - k + 1 * 18446744073709551616)%N by lia.
    rewrite N.Div0.mod_add.
    rewrite (N.mod_small (4294967295 - k) 18446744073709551616) by lia.
    rewrite (N.mod_small k 4294967296) by lia.
    destruct (N.ltb_spec (4294967295 - k) E1), (N.ltb_spec (4294967295 - k) E2);
      try lia.
    + rewrite N.mod_small by lia.
      pose proof (N.le_min_l (getMaxOperandSize Ins) (E1 + k)).
      pose proof (N.le_min_r (getMaxOperandSize Ins) (E1 + k)). lia.
    + rewrite !N.mod_small by lia. lia.
  - unfold transferTrunc.
    destruct (getIntegerBitWidth (Instruction.getType Ins)); simpl; [lia | done].
  - unfold transferZExt. lia.
  - lia.
Qed.

Lemma applyTransferFunction_monotone_witness :
  match applyTransferFunction example_lshr 4,
        applyTransferFunction example_lshr 30 with
  | Ok R1, Ok R2 => (R1 ≤ R2)%N
  | Abort m1, Abort m2 => m1 = m2
  | _, _ => False
  end.
Proof.
  apply (applyTransferFunction_monotone example_lshr 4 30); unfold Top; lia.
Defined.

(** X14: through [and], [xor], [or], [add], [sub], [mul], [trunc] and
    [zext] the number of live bits does not grow, and applying the
    transfer function to its own result changes nothing.  For the five
    arithmetic and logic instructions and for [zext] the result is the
    number of live bits capped by the size of the largest operand. *)
Theorem applyTransferFunction_shrinks (Ins : Instruction.t) (E R : N) :
  Instruction.getOpcode Ins
    ∈ [Instruction.And; Instruction.Xor; Instruction.Or; Instruction.Add;
       Instruction.Sub; Instruction.Mul; Instruction.Trunc; Instruction.ZExt] →
  applyTransferFunction Ins E = Ok R →
  (R ≤ E)%N
  ∧ applyTransferFunction Ins R = Ok R
  ∧ (Instruction.getOpcode Ins ≠ Instruction.And →
     Instruction.getOpcode Ins ≠ Instruction.Trunc →
     R = N.min E (getMaxOperandSize Ins)).
Proof.
  intros Hop. unfold applyTransferFunction.
  repeat (apply elem_of_cons in Hop as [-> | Hop]);
    [..|by apply elem_of_nil in Hop].
  - unfold transferAnd.
    destruct (bool_decide _); simpl; [|done].
    destruct (transferAnd_loop_min (Instruction.operands Ins)) as [M HM].
    rewrite !HM. intros [= <-]. split; [destruct M; lia|].
    split; [|done]. f_equal. destruct M; lia.
  - intros [= <-]. split; [lia|]. split; [f_equal; lia | done].
  - intros [= <-]. split; [lia|]. split; [f_equal; lia | done].
  - intros [= <-]. split; [lia|]. split; [f_equal; lia | done].
  - intros [= <-]. split; [lia|]. split; [f_equal; lia | done].
  - intros [= <-]. split; [lia|]. split; [f_equal; lia | done].
  - unfold transferTrunc.
    destruct (getIntegerBitWidth (Instruction.getType Ins)); simpl; [|done].
    intros [= <-]. split; [lia|]. split; [f_equal; lia | done].
  - unfold transferZExt.
    intros [= <-]. split; [lia|]. split; [f_equal; lia | done].
Qed.

Lemma applyTransferFunction_shrinks_witness :
  (8 ≤ 20)%N ∧ applyTransferFunction example_and 8 = Ok 8%N.
Proof.
  destruct (applyTransferFunction_shrinks example_and 20 8) as (Hle & Hfix & _).
  - left.
  - reflexivity.
  - by split.
Defined.

(** X15: the two right shifts have the same transfer function.  When the
    shift amount is a constant [k], the call fails its assertion exactly
    when [k] is not below [Top]; otherwise [E + k] bits of the operands are
    alive, capped by the size of the largest operand, the sum being computed
    without wrapping around: when it would exceed [Top] the result is
    [Top].  When the amount is not a constant the result is the size of the
    largest operand. *)
Theorem transferShiftRight_constant
    (Ins : Instruction.t) (E : N) (Operand : Value.t) :
  Instruction.getOperand 1 Ins = Ok Operand →
  transferLogicalShiftRight Ins E = transferArithmeticalShiftRight Ins E
  ∧ (Value.ConstantInt Operand = None →
     transferLogicalShiftRight Ins E = Ok (getMaxOperandSize Ins))
  ∧ (∀ ConstOp OpVal,
       Value.ConstantInt Operand = Some ConstOp →
       APInt.getZExtValue ConstOp = Ok OpVal →
       OpVal = APInt.value ConstOp
       ∧ ((Top ≤ OpVal)%N →
          transferLogicalShiftRight Ins E = Abort "assertion failed"%string)
       ∧ ((OpVal < Top)%N →
          transferLogicalShiftRight Ins E
          = Ok (if (Top <? E + OpVal)%N then Top
                else N.min (getMaxOperandSize Ins) (E + OpVal)))).
Proof.
  intros HOp. split; [done|].
  unfold transferLogicalShiftRight. rewrite HOp. simpl.
  split; [by intros ->|].
  intros C k -> Hk. rewrite Hk. simpl.
  apply getZExtValue_range in Hk as [Hv Hk]. split; [done|].
  unfold Top, to_uint32, uint64_sub, uint32_add.
  change (2 ^ 64)%N with 18446744073709551616%N in *.
  change (2 ^ 32)%N with 4294967296%N in *.
  split.
  - intros Hge. destruct (N.ltb_spec k 4294967295); [lia | done].
  - intros Hlt. destruct (N.ltb_spec k 4294967295); [|lia]. simpl.
    replace (4294967295 + 18446744073709551616 - k)%N
      with (4294967295 - k + 1 * 18446744073709551616)%N by lia.
    rewrite N.Div0.mod_add.
    rewrite (N.mod_small (4294967295 - k) 18446744073709551616) by lia.
    rewrite (N.mod_small k 4294967296) by lia.
    destruct (N.ltb_spec (4294967295 - k) E), (N.ltb_spec 4294967295 (E + k));
      try lia; [done|].
    by rewrite N.mod_small by lia.
Qed.

Lemma transferShiftRight_constant_witness :
  transferLogicalShiftRight example_lshr 4 = Ok 12%N
  ∧ transferArithmeticalShiftRight example_lshr 4294967290 = Ok Top.
Proof.
  destruct (transferShiftRight_constant example_lshr 4 example_eight eq_refl)
    as (_ & _ & Hconst).
  destruct (Hconst (APInt.mk 32 8) 8%N eq_refl eq_refl) as (_ & _ & Hfour).
  destruct (transferShiftRight_constant example_lshr 4294967290 example_eight
              eq_refl) as (Hsame & _ & Hconst').
  destruct (Hconst' (APInt.mk 32 8) 8%N eq_refl eq_refl) as (_ & _ & Hbig).
  split.
  - rewrite Hfour by (unfold Top; lia). reflexivity.
  - rewrite <- Hsame, Hbig by (unfold Top; lia). reflexivity.
Defined.

(** X16: for a left shift by a constant [k], the [E - k] lowest bits of
    the operands are alive, and none when [k] exceeds [E]; the difference
    does not wrap around.  When the amount is not a constant the result is
    the size of the largest operand, and when the instruction has no
    second operand the call fails. *)
Theorem transferShiftLeft_constant (Ins : Instruction.t) (E : N) :
  (E ≤ Top)%N →
  (Instruction.operands Ins !! 1%nat = None →
   transferShiftLeft Ins E = Abort "getOperand() out of range!"%string)
  ∧ (∀ Operand,
       Instruction.operands Ins !! 1%nat = Some Operand →
       (Value.ConstantInt Operand = None →
        transferShiftLeft Ins E = Ok (getMaxOperandSize Ins))
       ∧ (∀ ConstOp OpVal,
            Value.ConstantInt Operand = Some ConstOp →
            APInt.getZExtValue ConstOp = Ok OpVal →
            transferShiftLeft Ins E = Ok (E - OpVal)%N)).
Proof.
  intros HTop. unfold transferShiftLeft, Instruction.getOperand.
  split; [by intros ->|]. intros Op ->. simpl.
  split; [by intros ->|]. intros C k -> Hk. rewrite Hk. simpl.
  apply getZExtValue_range in Hk as [_ Hk].
  unfold Top, to_uint32, uint64_sub in *.
  change (2 ^ 64)%N with 18446744073709551616%N in *.
  change (2 ^ 32)%N with 4294967296%N in *.
  destruct (N.ltb_spec E k); [f_equal; lia|]. f_equal.
  replace (E + 18446744073709551616 - k)%N
    with (E - k + 1 * 18446744073709551616)%N by lia.
  rewrite N.Div0.mod_add.
  rewrite (N.mod_small _ 18446744073709551616) by lia.
  by rewrite N.mod_small by lia.
Qed.

Lemma transferShiftLeft_constant_witness :
  transferShiftLeft example_shl 20 = Ok 12%N
  ∧ transferShiftLeft example_shl 3 = Ok 0%N.
Proof.
  split.
  - destruct (transferShiftLeft_constant example_shl 20) as [_ Hop];
      [unfold Top; lia|].
    destruct (Hop example_eight eq_refl) as [_ Hconst].
    apply (Hconst (APInt.mk 32 8) 8%N); reflexivity.
  - destruct (transferShiftLeft_constant example_shl 3) as [_ Hop];
      [unfold Top; lia|].
    destruct (Hop example_eight eq_refl) as [_ Hconst].
    apply (Hconst (APInt.mk 32 8) 8%N); reflexivity.
Defined.

(** X17: for an [and], the number of live bits of the operands is the
    smallest of the number of live bits of the result and of the numbers
    of significant bits of the constant operands: it is at most [E], at
    most the number of significant bits of every constant operand, and it
    is one of these numbers.  So a constant mask below [2 ^ k] leaves at
    most [k] bits alive, and without constant operand the result is [E].
    Called on another instruction, [transferAnd] fails its assertion. *)
Theorem transferAnd_constant_mask (Ins : Instruction.t) (E : N) :
  (Instruction.getOpcode Ins ≠ Instruction.And →
   transferAnd Ins E = Abort "assertion failed"%string)
  ∧ (Instruction.getOpcode Ins = Instruction.And →
     ∃ R, transferAnd Ins E = Ok R
       ∧ applyTransferFunction Ins E = Ok R
       ∧ (R ≤ E)%N
       ∧ (∀ Operand C, Operand ∈ Instruction.operands Ins →
            Value.ConstantInt Operand = Some C →
            (R ≤ N.size (APInt.value C))%N
            ∧ ∀ k, (APInt.value C < 2 ^ k)%N → (R ≤ k)%N)
       ∧ (R = E
          ∨ ∃ Operand C, Operand ∈ Instruction.operands Ins
                         ∧ Value.ConstantInt Operand = Some C
                         ∧ R = N.size (APInt.value C))
       ∧ ((∀ Operand, Operand ∈ Instruction.operands Ins →
             Value.ConstantInt Operand = None) → R = E)).
Proof.
  unfold applyTransferFunction, transferAnd. split.
  - intros Hop. by rewrite bool_decide_eq_false_2.
  - intros Hop. rewrite Hop. simpl.
    destruct (transferAnd_loop_spec (Instruction.operands Ins) E E)
      as (Hle & Hall & Hone).
    eexists. split; [done|]. split; [done|]. split; [done|].
    split; [|split].
    + intros Op C HOp HC. pose proof (Hall Op C HOp HC) as HR.
      split; [done|]. intros k Hk. pose proof (N_size_le _ _ Hk). lia.
    + destruct Hone as [Hone | [Hone | Hone]]; [by left | by left | by right].
    + intros Hnone.
      destruct Hone as [Hone | [Hone | (Op & C & HOp & HC & _)]]; [done..|].
      rewrite (Hnone Op HOp) in HC. done.
Qed.

Lemma transferAnd_constant_mask_witness :
  ∃ R, transferAnd example_and 20 = Ok R ∧ (R ≤ 8)%N.
Proof.
  destruct (transferAnd_constant_mask example_and 20) as [_ Hand].
  destruct (Hand eq_refl) as (R & Hrun & _ & _ & Hmask & _).
  exists R. split; [done|].
  apply (Hmask example_mask (APInt.mk 32 255)).
  - right. left.
  - reflexivity.
  - vm_compute. reflexivity.
Defined.

Lemma getMaxOperandSize_loop_other ops : ∀ Max Op,
  Op ∈ ops → Value.getType Op = OtherTy →
  getMaxOperandSize_loop ops Max = Top.
Proof.
  induction ops as [|Op0 ops IH]; intros Max Op HOp HT.
  - by apply elem_of_nil in HOp.
  - simpl. apply elem_of_cons in HOp as [<- | HOp]; [by rewrite HT|].
    destruct (Value.getType Op0); [by eapply IH | done].
Qed.

Lemma getMaxOperandSize_loop_max ops : ∀ Max,
  (∀ Op, Op ∈ ops → Value.getType Op ≠ OtherTy) →
  (Max ≤ getMaxOperandSize_loop ops Max)%N
  ∧ (∀ Op w, Op ∈ ops → Value.getType Op = IntegerTy w →
       (w ≤ getMaxOperandSize_loop ops Max)%N)
  ∧ (getMaxOperandSize_loop ops Max = Max
     ∨ ∃ Op, Op ∈ ops
             ∧ Value.getType Op = IntegerTy (getMaxOperandSize_loop ops Max)).
Proof.
  induction ops as [|Op0 ops IH]; intros Max Hint; simpl.
  - split; [lia|]. split; [|by left].
    intros Op w HOp. by apply elem_of_nil in HOp.
  - destruct (Value.getType Op0) as [w0|] eqn:HT0.
    2:{ by destruct (Hint Op0 ltac:(left)). }
    destruct (IH (N.max Max w0)) as (Hle & Hall & Hone).
    { intros Op HOp. apply Hint. by right. }
    split; [lia|]. split.
    + intros Op w [-> | HOp]%elem_of_cons HT.
      * rewrite HT0 in HT. simplify_eq. lia.
      * by eapply Hall.
    + destruct Hone as [Hone | (Op & HOp & HT)].
      * rewrite Hone.
        destruct (N.max_spec Max w0) as [[_ ->] | [_ ->]]; [|by left].
        right. exists Op0. split; [left | done].
      * right. exists Op. split; [by right | done].
Qed.

(** X18: [getMaxOperandSize] is [Top] as soon as an operand is not an
    integer, is 0 for an instruction without operands, and is otherwise
    the bit width of the widest operand.  For an instruction the transfer
    function has no case for, this is the number of live bits of the
    operands, whatever the number of live bits of the result. *)
Theorem getMaxOperandSize_widest (Ins : Instruction.t) :
  (∀ Operand, Operand ∈ Instruction.operands Ins →
     Value.getType Operand = OtherTy → getMaxOperandSize Ins = Top)
  ∧ ((∀ Operand, Operand ∈ Instruction.operands Ins →
        Value.getType Operand ≠ OtherTy) →
     (∀ Operand w, Operand ∈ Instruction.operands Ins →
        Value.getType Operand = IntegerTy w → (w ≤ getMaxOperandSize Ins)%N)
     ∧ (getMaxOperandSize Ins = 0%N
        ∨ ∃ Operand, Operand ∈ Instruction.operands Ins
            ∧ Value.getType Operand = IntegerTy (getMaxOperandSize Ins)))
  ∧ (Instruction.operands Ins = [] → getMaxOperandSize Ins = 0%N)
  ∧ (Instruction.getOpcode Ins = Instruction.OtherOpcode →
     ∀ E, applyTransferFunction Ins E = Ok (getMaxOperandSize Ins)).
Proof.
  unfold getMaxOperandSize. split; [|split; [|split]].
  - intros Op HOp HT. by eapply getMaxOperandSize_loop_other.
  - intros Hint.
    destruct (getMaxOperandSize_loop_max (Instruction.operands Ins) 0 Hint)
      as (_ & Hall & Hone).
    split; [done|]. destruct Hone as [-> | ?]; [by left | by right].
  - by intros ->.
  - intros Hop E. unfold applyTransferFunction. by rewrite Hop.
Qed.

Lemma getMaxOperandSize_widest_witness :
  applyTransferFunction example_load 1 = Ok Top
  ∧ (32 ≤ getMaxOperandSize example_and)%N.
Proof.
  destruct (getMaxOperandSize_widest example_load) as (Hother & _ & _ & Hdef).
  destruct (getMaxOperandSize_widest example_and) as (_ & Hint & _).
  split.
  - rewrite (Hdef eq_refl 1%N).
    rewrite (Hother (Value.mk OtherTy None)); [reflexivity | left | reflexivity].
  - destruct Hint as [Hall _].
    + intros Op HOp.
      apply elem_of_cons in HOp as [-> | HOp]; [done|].
      apply elem_of_cons in HOp as [-> | HOp]; [done|].
      by apply elem_of_nil in HOp.
    + apply (Hall example_i32); [left | reflexivity].
Defined.

End BitLiveness.
